(** * HoneycombSearch: a shallow embedding of [hexagonalSearch.cpp]

    The program reads a honeycomb of concentric hexagonal layers of letters
    and a dictionary, and prints the dictionary words that can be traced
    through adjacent cells without visiting a cell twice.

    The embedding follows the source function by function.  Nodes live in an
    arena ([heap]); a node pointer is the index of the node in the arena, in
    the order in which [new] created the nodes, and [NULL] is [None].
    Operations whose behaviour is undefined in C++ (an index outside a vector
    or an array, a pointer that names no node) end in a [Fault]. *)

From Stdlib Require Import ZArith Lia Ascii String.
From stdpp Require Import base tactics option fin vector list.

Local Open Scope nat_scope.

(** ** Macros *)

Abbreviation SIDES := 6%nat (only parsing).
Abbreviation ALPHABET := 26%nat (only parsing).

(** ** Faults and the result monad *)

Inductive fault : Type :=
  | OutOfRange       (* operator[] outside a vector or an array *)
  | InvalidPointer   (* dereference of a pointer that names no node *)
  | OutOfRangeExn    (* std::out_of_range thrown by substr *)
  | StackOverflow    (* recursion deeper than the allowed depth *)
  | Diverge.         (* a loop that did not end within its fuel *)

Inductive result (A : Type) : Type :=
  | Ok (a : A)
  | Fault (f : fault).
Arguments Ok {A} a.
Arguments Fault {A} f.

Definition result_bind {A B : Type} (f : A → result B) (r : result A) : result B :=
  match r with
  | Ok a => f a
  | Fault e => Fault e
  end.

#[global] Instance result_mbind : MBind result := @result_bind.
#[global] Instance result_mret : MRet result := @Ok.

(** [forM xs body s] runs [body] on the elements of [xs] from left to right,
    threading the state: the shape of the counted [for] loops of the source. *)
Fixpoint forM {A S : Type} (xs : list A) (body : A → S → result S) (s : S) : result S :=
  match xs with
  | [] => Ok s
  | x :: xs' => s' ← body x s; forM xs' body s'
  end.

(** ** The node structure *)

Abbreviation ptr := nat (only parsing).

Record linkedPolygonNode : Type := mkNode {
  value : ascii;
  layerN : nat;
  charN : nat;
  adjacentList : vec (option ptr) SIDES;
  nextPtr : option ptr;
  visited : bool
}.

Abbreviation heap := (list linkedPolygonNode) (only parsing).

(** [new linkedPolygonNode<SIDES>] with the default member initialisers. *)
Definition newNode : linkedPolygonNode :=
  mkNode zero 0 0 (vreplicate SIDES None) None false.

Definition deref (h : heap) (p : ptr) : result linkedPolygonNode :=
  match h !! p with
  | Some n => Ok n
  | None => Fault InvalidPointer
  end.

Definition set_value (a : ascii) (n : linkedPolygonNode) : linkedPolygonNode :=
  mkNode a (layerN n) (charN n) (adjacentList n) (nextPtr n) (visited n).
Definition set_layerN (l : nat) (n : linkedPolygonNode) : linkedPolygonNode :=
  mkNode (value n) l (charN n) (adjacentList n) (nextPtr n) (visited n).
Definition set_charN (c : nat) (n : linkedPolygonNode) : linkedPolygonNode :=
  mkNode (value n) (layerN n) c (adjacentList n) (nextPtr n) (visited n).
Definition set_adjacent (k : fin SIDES) (q : option ptr) (n : linkedPolygonNode)
  : linkedPolygonNode :=
  mkNode (value n) (layerN n) (charN n) (vinsert k q (adjacentList n))
         (nextPtr n) (visited n).
Definition set_nextPtr (q : option ptr) (n : linkedPolygonNode) : linkedPolygonNode :=
  mkNode (value n) (layerN n) (charN n) (adjacentList n) q (visited n).
Definition set_visited (b : bool) (n : linkedPolygonNode) : linkedPolygonNode :=
  mkNode (value n) (layerN n) (charN n) (adjacentList n) (nextPtr n) b.

(** [p->field = ...]: a store through a pointer. *)
Definition store (h : heap) (p : ptr) (f : linkedPolygonNode → linkedPolygonNode)
  : result heap :=
  n ← deref h p; Ok (<[p := f n]> h).

(** [getLastNode]: follow [nextPtr] to the end of the list.  The loop of the
    source has no bound of its own; a list without a cycle has at most
    [length h] nodes, which is the fuel given by [getLastNode]. *)
Fixpoint getLastNode_loop (fuel : nat) (h : heap) (current : ptr) : result ptr :=
  match fuel with
  | 0 => Fault Diverge
  | S fuel' =>
      n ← deref h current;
      match nextPtr n with
      | None => Ok current
      | Some nx => getLastNode_loop fuel' h nx
      end
  end.

Definition getLastNode (h : heap) (this : ptr) : result ptr :=
  getLastNode_loop (length h) h this.

(** ** Characters and buckets *)

(** The integer value of a [char]; plain [char] is taken as signed.  Codes
    128..255 are outside 'A'..'Z' under either signedness. *)
Definition char_to_int (c : ascii) : Z :=
  let n := Z.of_nat (nat_of_ascii c) in
  if (n <? 128)%Z then n else (n - 256)%Z.

(** [getBucket]: [value - 'A'] is computed in [int] and converted to the
    64-bit [size_t] of the return type. *)
Definition getBucket (v : ascii) : Z :=
  ((char_to_int v - 65) mod 2 ^ 64)%Z.

(** [isCorner] *)
Definition isCorner (l c : nat) : bool :=
  if l =? 0 then true else c mod l =? 0.

(** [word[0]]: for an empty [std::string] this is the terminating NUL. *)
Definition string_front (w : string) : ascii :=
  match w with
  | EmptyString => zero
  | String a _ => a
  end.

(** [word.substr(1)]: throws when the position is past the end. *)
Definition substr1 (w : string) : result string :=
  match w with
  | EmptyString => Fault OutOfRangeExn
  | String _ rest => Ok rest
  end.

(** An index of type [size_t] into a vector or an array. *)
Definition at_index {A : Type} (v : list A) (i : Z) : result A :=
  if ((0 <=? i) && (i <? Z.of_nat (length v)))%Z
  then match v !! Z.to_nat i with
       | Some x => Ok x
       | None => Fault OutOfRange
       end
  else Fault OutOfRange.

Definition at_nat {A : Type} (v : list A) (i : nat) : result A :=
  match v !! i with
  | Some x => Ok x
  | None => Fault OutOfRange
  end.

(** [positionNodeArray[i][j]] *)
Definition at2 (pna : list (list ptr)) (i j : nat) : result ptr :=
  row ← at_nat pna i; at_nat row j.

(** ** Grid construction *)

(** The three objects [main] hands to [populateLinkedNodeArray]. *)
Record grid : Type := mkGrid {
  nodes : heap;
  linkedNodeArray : list (option ptr);
  positionNodeArray : list (list ptr)
}.

Definition emptyGrid : grid :=
  mkGrid [] (replicate ALPHABET None) [].

(** The body of the inner loop of [populateLinkedNodeArray], for the
    character [v] at [charN = c] of layer [l]. *)
Definition populateChar (l c : nat) (v : ascii) (g : grid) : result grid :=
  let new := length (nodes g) in
  let h1 := nodes g ++ [set_charN c (set_layerN l (set_value v newNode))] in
  let pna1 := alter (λ row, row ++ [new]) l (positionNodeArray g) in
  let bucket := getBucket v in
  first ← at_index (linkedNodeArray g) bucket;
  match first with
  | None =>
      Ok (mkGrid h1 (<[Z.to_nat bucket := Some new]> (linkedNodeArray g)) pna1)
  | Some head =>
      last ← getLastNode h1 head;
      h2 ← store h1 last (set_nextPtr (Some new));
      Ok (mkGrid h2 (linkedNodeArray g) pna1)
  end.

(** The inner loop: the characters of [layer] from index [c] on. *)
Fixpoint populateLayer (l c : nat) (layer : string) (g : grid) : result grid :=
  match layer with
  | EmptyString => Ok g
  | String v rest => g' ← populateChar l c v g; populateLayer l (S c) rest g'
  end.

(** The outer loop: the layers from index [l] on. *)
Fixpoint populateLayers (l : nat) (layers : list string) (g : grid) : result grid :=
  match layers with
  | [] => Ok g
  | layer :: rest =>
      let g0 := mkGrid (nodes g) (linkedNodeArray g) (positionNodeArray g ++ [[]]) in
      g' ← populateLayer l 0 layer g0;
      populateLayers (S l) rest g'
  end.

Definition populateLinkedNodeArray (layers : list string) (g : grid) : result grid :=
  populateLayers 0 layers g.

(** ** Adjacency *)

Definition setAdjacent (current : ptr) (k : fin SIDES) (q : ptr) (h : heap) : result heap :=
  store h current (set_adjacent k (Some q)).

(** The slots as [fin SIDES] constants. *)
Definition slot0 : fin SIDES := 0%fin.
Definition slot1 : fin SIDES := 1%fin.
Definition slot2 : fin SIDES := 2%fin.
Definition slot3 : fin SIDES := 3%fin.
Definition slot4 : fin SIDES := 4%fin.
Definition slot5 : fin SIDES := 5%fin.
Definition slots : list (fin SIDES) := [slot0; slot1; slot2; slot3; slot4; slot5].

(** The body of the inner loop of [setNeighbors] for the node at
    [(layerN, charN) = (l, c)].  All index arithmetic is on [size_t]; no
    subtraction below is reached with a smaller left operand (see
    [isCorner] and the loop bounds), so [nat] arithmetic agrees with it. *)
Definition setNeighborsCell (pna : list (list ptr)) (layerCount l charCount c : nat)
    (h : heap) : result heap :=
  current ← at2 pna l c;
  if 0 <? l then
    h ← (if c <? charCount - 1
         then q ← at2 pna (l - 1) ((l - 1) * (c / l) + c mod l);
              setAdjacent current slot0 q h
         else q ← at2 pna (l - 1) 0; setAdjacent current slot0 q h);
    h ← (if negb (isCorner l c)
         then q ← at2 pna (l - 1) ((l - 1) * (c / l) + c mod l - 1);
              setAdjacent current slot5 q h
         else Ok h);
    h ← (if 0 <? c
         then q ← at2 pna l (c - 1); setAdjacent current slot1 q h
         else q ← at2 pna l (charCount - 1); setAdjacent current slot1 q h);
    h ← (if c <? charCount - 1
         then q ← at2 pna l (c + 1); setAdjacent current slot2 q h
         else q ← at2 pna l 0; setAdjacent current slot2 q h);
    if l <? layerCount - 1 then
      h ← (if isCorner l c
           then if 0 <? c
                then q ← at2 pna (l + 1) ((l + 1) * (c / l) - 1);
                     setAdjacent current slot5 q h
                else q ← at2 pna (l + 1) (charCount + SIDES - 1);
                     setAdjacent current slot5 q h
           else Ok h);
      h ← (q ← at2 pna (l + 1) ((l + 1) * (c / l) + c mod l);
           setAdjacent current slot3 q h);
      q ← at2 pna (l + 1) ((l + 1) * (c / l) + c mod l + 1);
      setAdjacent current slot4 q h
    else Ok h
  else if 1 <? layerCount then
    forM slots (λ k h, q ← at2 pna 1 (fin_to_nat k); setAdjacent current k q h) h
  else Ok h.

Definition setNeighborsLayer (pna : list (list ptr)) (layerCount l : nat) (h : heap)
  : result heap :=
  row ← at_nat pna l;
  let charCount := length row in
  forM (seq 0 charCount) (setNeighborsCell pna layerCount l charCount) h.

Definition setNeighbors (pna : list (list ptr)) (h : heap) : result heap :=
  let layerCount := length pna in
  forM (seq 0 layerCount) (setNeighborsLayer pna layerCount) h.

(** ** The word search *)

(** The test of one neighbour slot in the loop of [searchNodes]:
    [neighbor != NULL && neighbor->visited == false && neighbor->value == first],
    and then the recursive call [rec] on the rest of the word. *)
Definition searchNeighbor (rec : heap → option ptr → result (bool * heap))
    (first : ascii) (neighbor : option ptr) (h : heap) : result (bool * heap) :=
  match neighbor with
  | None => Ok (false, h)
  | Some nb =>
      nn ← deref h nb;
      if negb (visited nn) && Ascii.eqb (value nn) first
      then rec h (Some nb)
      else Ok (false, h)
  end.

(** The [for] loop of [searchNodes] over the neighbour slots [ks] of
    [current]: the first slot whose search succeeds ends the loop. *)
Fixpoint searchNeighbors (rec : heap → option ptr → result (bool * heap))
    (current : ptr) (first : ascii) (ks : list (fin SIDES)) (h : heap)
  : result (bool * heap) :=
  match ks with
  | [] =>
      (* reset and back-track *)
      h' ← store h current (set_visited false); Ok (false, h')
  | k :: ks' =>
      cn ← deref h current;
      '(found, h') ← searchNeighbor rec first (adjacentList cn !!! k) h;
      if found : bool then
        h'' ← store h' current (set_visited false); Ok (true, h'')
      else searchNeighbors rec current first ks' h'
  end.

(** [searchNodes]; the array of linked lists is passed along by the source
    and never read, so it is left out.  The recursion is on the word. *)
Fixpoint searchNodes (h : heap) (word : string) (current : option ptr)
  : result (bool * heap) :=
  match current with
  | None => Ok (false, h)
  | Some cur =>
      match word with
      | EmptyString => Ok (true, h)
      | String first rest =>
          h1 ← store h cur (set_visited true);
          searchNeighbors (λ h' nb, searchNodes h' rest nb) cur first slots h1
      end
  end.

(** The same function run with a bound on the depth of the recursion:
    [depth] is the number of nested recursive calls still allowed. *)
Fixpoint searchNodesDepth (depth : nat) (h : heap) (word : string) (current : option ptr)
  : result (bool * heap) :=
  match current with
  | None => Ok (false, h)
  | Some cur =>
      match word with
      | EmptyString => Ok (true, h)
      | String first rest =>
          h1 ← store h cur (set_visited true);
          searchNeighbors
            (λ h' nb, match depth with
                      | 0 => Fault StackOverflow
                      | S d => searchNodesDepth d h' rest nb
                      end)
            cur first slots h1
      end
  end.

(** ** The driver *)

(** The call [searchNodes(linkedNodeArray, word.substr(1), current)] of
    [main]: the search for [word] from the start node [current]. *)
Definition search (h : heap) (word : string) (current : ptr) : result (bool * heap) :=
  rest ← substr1 word; searchNodes h rest (Some current).

(** The [while] loop of [main] over the linked list of start nodes; a list
    without a cycle ends within [length h] steps. *)
Fixpoint searchStarts (fuel : nat) (h : heap) (word : string) (current : option ptr)
  : result (bool * heap) :=
  match current with
  | None => Ok (false, h)
  | Some cur =>
      match fuel with
      | 0 => Fault Diverge
      | S fuel' =>
          '(found, h') ← search h word cur;
          if found : bool then Ok (true, h')
          else n ← deref h' cur; searchStarts fuel' h' word (nextPtr n)
      end
  end.

(** The body of the loop of [main] over the dictionary. *)
Definition searchWord (lna : list (option ptr)) (h : heap) (word : string)
  : result (bool * heap) :=
  let first := string_front word in
  let bucket := getBucket first in
  current ← at_index lna bucket;
  searchStarts (length h) h word current.

Fixpoint searchDictionary (lna : list (option ptr)) (h : heap)
    (dictionary found : list string) : result (list string * heap) :=
  match dictionary with
  | [] => Ok (found, h)
  | word :: rest =>
      '(b, h') ← searchWord lna h word;
      searchDictionary lna h' rest (if b : bool then found ++ [word] else found)
  end.

(** [std::sort] on strings: the order is [operator<], the lexicographic
    order of the character codes. *)
Fixpoint string_ltb (a b : string) : bool :=
  match a, b with
  | _, EmptyString => false
  | EmptyString, String _ _ => true
  | String x a', String y b' =>
      if (nat_of_ascii x <? nat_of_ascii y) then true
      else if (nat_of_ascii y <? nat_of_ascii x) then false
      else string_ltb a' b'
  end.

Fixpoint sort_insert (w : string) (ws : list string) : list string :=
  match ws with
  | [] => [w]
  | x :: ws' => if string_ltb w x then w :: x :: ws' else x :: sort_insert w ws'
  end.

Definition sort (ws : list string) : list string :=
  foldr sort_insert [] ws.

(** The grid as [main] builds it. *)
Definition buildGrid (layers : list string) : result grid :=
  g ← populateLinkedNodeArray layers emptyGrid;
  h ← setNeighbors (positionNodeArray g) (nodes g);
  Ok (mkGrid h (linkedNodeArray g) (positionNodeArray g)).

(** [main], from the two line vectors that [readLines] returns (the layers
    without the first line of their file, which holds their number) to the
    lines it prints.  The [delete] of the nodes at the end has no part in
    the output and is left out. *)
Definition main (layers dictionary : list string) : result (list string) :=
  g ← buildGrid layers;
  '(found, _) ← searchDictionary (linkedNodeArray g) (nodes g) dictionary [];
  Ok (sort found).


(** ** Reading the input files *)

(** The exceptions that [readLines] lets escape. *)
Inductive exception : Type :=
  | invalid_argument   (* std::stoul: no conversion could be performed *)
  | out_of_range       (* std::stoul: the value does not fit unsigned long *)
  | alloc_failure.     (* reserve: std::length_error or std::bad_alloc *)

(** How a call that can end the program ends. *)
Inductive outcome (A : Type) : Type :=
  | Returns (a : A)
  | Exits (status : nat)      (* exit(status) *)
  | Throws (e : exception)    (* an exception that nothing catches *)
  | Undefined (f : fault).
Arguments Returns {A} a.
Arguments Exits {A} status.
Arguments Throws {A} e.
Arguments Undefined {A} f.

Definition outcome_bind {A B : Type} (f : A → outcome B) (r : outcome A) : outcome B :=
  match r with
  | Returns a => f a
  | Exits s => Exits s
  | Throws e => Throws e
  | Undefined u => Undefined u
  end.

#[global] Instance outcome_mbind : MBind outcome := @outcome_bind.
#[global] Instance outcome_mret : MRet outcome := @Returns.

Definition lift {A : Type} (r : result A) : outcome A :=
  match r with
  | Ok a => Returns a
  | Fault f => Undefined f
  end.

(** What the program sees of the machine: the content of the file at a
    path, when the file can be opened for reading, and whether
    [vector<string>::reserve(n)] gets its storage. *)
Record environment : Type := mkEnvironment {
  files : string → option string;
  reserves : Z → bool
}.

(** An input file stream: the characters not read yet, and whether the
    stream is [good()]. *)
Record ifstream : Type := mkStream {
  unread : string;
  good : bool
}.

(** [ifstream inFile(argv[argn])] *)
Definition open_file (env : environment) (path : string) : ifstream :=
  match files env path with
  | Some content => mkStream content true
  | None => mkStream EmptyString false
  end.

Definition newline : ascii := "010"%char.

(** The characters up to the first newline, and what follows that newline
    when there is one. *)
Fixpoint read_line (s : string) : string * option string :=
  match s with
  | EmptyString => (EmptyString, None)
  | String c s' =>
      if Ascii.eqb c newline then (EmptyString, Some s')
      else let '(l, r) := read_line s' in (String c l, r)
  end.

(** [getline(inFile, line)]: the stream and the line afterwards, and the
    value of the stream as a condition.  A stream that is not good leaves
    the line as it is and fails.  At the end of the file nothing is
    extracted and the stream fails.  A last line without a newline is
    extracted; the stream has then met the end of the file and is no longer
    good, but it has not failed. *)
Definition getline (inFile : ifstream) (line : string) : ifstream * string * bool :=
  if good inFile then
    match unread inFile with
    | EmptyString => (mkStream EmptyString false, EmptyString, false)
    | String _ _ =>
        match read_line (unread inFile) with
        | (l, Some rest) => (mkStream rest true, l, true)
        | (l, None) => (mkStream EmptyString false, l, true)
        end
    end
  else (inFile, line, false).

(** The loop [while (getline(inFile, line)) lines.push_back(line)]; every
    turn but the last takes a character from the stream, which bounds the
    fuel that [readLines] gives. *)
Fixpoint readLoop (fuel : nat) (inFile : ifstream) (line : string) (lines : list string)
  : result (list string) :=
  match fuel with
  | 0 => Fault Diverge
  | S fuel' =>
      let '(inFile', line', ok) := getline inFile line in
      if ok : bool then readLoop fuel' inFile' line' (lines ++ [line'])
      else Ok lines
  end.

(** [std::stoul(line)]: [strtoul] in base 10 on the characters of the line:
    white space, an optional sign, decimal digits; what follows the digits
    is not looked at. *)
Definition isspace (c : ascii) : bool :=
  let n := nat_of_ascii c in (n =? 32) || ((9 <=? n) && (n <=? 13)).

Fixpoint skip_spaces (s : string) : string :=
  match s with
  | String c s' => if isspace c then skip_spaces s' else s
  | EmptyString => s
  end.

Definition digit_of (c : ascii) : option Z :=
  let n := nat_of_ascii c in
  if (48 <=? n) && (n <=? 57) then Some (Z.of_nat (n - 48)) else None.

(** The value of the leading decimal digits of [s], after [acc]. *)
Fixpoint digits (s : string) (acc : Z) : Z :=
  match s with
  | String c s' =>
      match digit_of c with
      | Some d => digits s' (10 * acc + d)
      | None => acc
      end
  | EmptyString => acc
  end.

Definition starts_with_digit (s : string) : bool :=
  match s with
  | String c _ => bool_decide (is_Some (digit_of c))
  | EmptyString => false
  end.

Definition stoul (s : string) : outcome Z :=
  let s1 := skip_spaces s in
  let '(negative, s2) :=
    match s1 with
    | String c r =>
        if Ascii.eqb c "-"%char then (true, r)
        else if Ascii.eqb c "+"%char then (false, r)
        else (false, s1)
    | EmptyString => (false, s1)
    end in
  if starts_with_digit s2 then
    let v := digits s2 0 in
    if (v <? 2 ^ 64)%Z
    then Returns (if negative : bool then ((- v) mod 2 ^ 64)%Z else v)
    else Throws out_of_range
  else Throws invalid_argument.

(** [readLines<vector<string>>(argc, argv, argn, firstLineCount)], with
    [argc] the length of [argv]. *)
Definition readLines (env : environment) (argv : list string) (argn : nat)
    (firstLineCount : bool) : outcome (list string) :=
  if argn <? length argv then
    path ← lift (at_nat argv argn);
    let inFile := open_file env path in
    let line := EmptyString in
    '(inFile, line) ←
      (if firstLineCount then
         let '(inFile', line', _) := getline inFile line in
         lineCount ← stoul line';
         if reserves env lineCount then Returns (inFile', line')
         else Throws alloc_failure
       else Returns (inFile, line));
    lift (readLoop (S (String.length (unread inFile))) inFile line [])
  else Exits 1.

(** The program from its command line: the two calls of [readLines] and
    then [main] on the lines they return.  The value is the list of the
    lines printed. *)
Definition hexagonalSearch (env : environment) (argv : list string)
  : outcome (list string) :=
  layers ← readLines env argv 1 true;
  dictionary ← readLines env argv 2 false;
  lift (main layers dictionary).

(** ** Releasing the nodes *)

(** [delete(p)], on the record of the nodes that are allocated: [live !! p]
    is [true] from the [new] that made the node [p] to its [delete].  A
    [delete] of a pointer that names no allocated node is undefined. *)
Definition deleteNode (p : ptr) (live : list bool) : result (list bool) :=
  match live !! p with
  | Some true => Ok (<[p := false]> live)
  | _ => Fault InvalidPointer
  end.

(** The two loops at the end of [main]. *)
Definition deleteNodes (pna : list (list ptr)) (live : list bool) : result (list bool) :=
  forM (seq 0 (length pna))
    (λ l live,
       row ← at_nat pna l;
       forM (seq 0 (length row)) (λ c live, p ← at2 pna l c; deleteNode p live) live)
    live.

(** * The vocabulary of the properties *)

(** ** Paths in the neighbour graph *)

(** [lists h a b]: some neighbour slot of the node [a] points to [b]. *)
Definition lists (h : heap) (a b : ptr) : Prop :=
  ∃ na k, h !! a = Some na ∧ adjacentList na !!! k = Some b.

Definition letter_at (h : heap) (p : ptr) (a : ascii) : Prop :=
  ∃ n, h !! p = Some n ∧ value n = a.

Definition unvisited (h : heap) (p : ptr) : Prop :=
  ∃ n, h !! p = Some n ∧ visited n = false.

Definition all_unvisited (h : heap) : Prop :=
  ∀ p n, h !! p = Some n → visited n = false.

(** Every neighbour slot that is not [NULL] names a node of the arena. *)
Definition closed (h : heap) : Prop :=
  ∀ a b, lists h a b → b < length h.

(** Consecutive cells of the sequence are linked by a neighbour slot. *)
Fixpoint linked (h : heap) (p : list ptr) : Prop :=
  match p with
  | a :: t => match t with
              | b :: _ => lists h a b ∧ linked h t
              | [] => True
              end
  | [] => True
  end.

(** The letters of the cells of [p], in order, are the characters of [w]. *)
Definition spells (h : heap) (p : list ptr) (w : string) : Prop :=
  Forall2 (letter_at h) p (list_ascii_of_string w).

(** [p] is a simple path from [start] whose letters are [word]. *)
Definition simple_path (h : heap) (start : ptr) (word : string) (p : list ptr) : Prop :=
  head p = Some start ∧ linked h p ∧ NoDup p ∧ spells h p word.

(** What a call of [searchNodes] at [cur] looks for: cells [p] after [cur]
    that spell the remaining word and are not on the path so far. *)
Definition continuation (h : heap) (cur : ptr) (rest : string) (p : list ptr) : Prop :=
  linked h (cur :: p) ∧ NoDup (cur :: p) ∧ spells h p rest ∧ Forall (unvisited h) p.

(** A slot qualifies for the letter [first] when it holds an unvisited node
    with that letter from which the rest of the word is found ([P]). *)
Definition qualifies (h1 : heap) (first : ascii) (P : ptr → Prop) (slot : option ptr)
  : Prop :=
  ∃ nb nn, slot = Some nb ∧ h1 !! nb = Some nn ∧ visited nn = false
           ∧ value nn = first ∧ P nb.

(** The faults a run of the search can end in. *)
Definition pointer_fault_only {A : Type} (r : result A) : Prop :=
  match r with
  | Ok _ | Fault InvalidPointer => True
  | Fault _ => False
  end.

(** ** The honeycomb *)

(** The number of cells of layer [l]. *)
Definition ringSize (l : nat) : nat := if l =? 0 then 1 else 6 * l.

(** The node at position [c] of layer [l], when there is one. *)
Definition cell (pna : list (list ptr)) (l c : nat) : option ptr :=
  row ← pna !! l; row !! c.

(** A position array has the shape of a honeycomb over the heap [h]: layer
    [l] has [ringSize l] cells, no node stands at two positions, the nodes
    are in the heap, and no neighbour slot has been set yet. *)
Record honeycomb (pna : list (list ptr)) (h : heap) : Prop := mkHoneycomb {
  hc_shape : ∀ l row, pna !! l = Some row → length row = ringSize l;
  hc_inj : NoDup (concat pna);
  hc_valid : ∀ p, p ∈ concat pna → p < length h;
  hc_fresh : ∀ p n, h !! p = Some n → adjacentList n = vreplicate SIDES None
}.

(** The neighbour table: the position that each of the six slots of the
    cell [(l, c)] holds after [setNeighbors], in a honeycomb of [R] layers. *)
Definition hexSlots (R l c : nat) : vec (option (nat * nat)) SIDES :=
  if l =? 0 then
    if 1 <? R
    then [# Some (1, 0); Some (1, 1); Some (1, 2); Some (1, 3); Some (1, 4); Some (1, 5)]
    else vreplicate SIDES None
  else
    let inner := (l - 1) * (c / l) + c mod l in
    let outer := (l + 1) * (c / l) + c mod l in
    [# Some (l - 1, if c <? 6 * l - 1 then inner else 0);
       Some (l, if 0 <? c then c - 1 else 6 * l - 1);
       Some (l, if c <? 6 * l - 1 then c + 1 else 0);
       if l <? R - 1 then Some (l + 1, outer) else None;
       if l <? R - 1 then Some (l + 1, outer + 1) else None;
       if negb (isCorner l c) then Some (l - 1, inner - 1)
       else if l <? R - 1
            then Some (l + 1, if 0 <? c then (l + 1) * (c / l) - 1 else 6 * l + SIDES - 1)
            else None ].

(** The slots of the table as pointers. *)
Definition hexPointers (pna : list (list ptr)) (l c : nat) : vec (option ptr) SIDES :=
  vmap (λ t : option (nat * nat), pos ← t; cell pna pos.1 pos.2) (hexSlots (length pna) l c).

Definition with_adjacentList (v : vec (option ptr) SIDES) (n : linkedPolygonNode)
  : linkedPolygonNode :=
  mkNode (value n) (layerN n) (charN n) v (nextPtr n) (visited n).

(** The positions of the layers [pna'] numbered from [l] on, layer by
    layer, each with the size of its layer: the order of the two loops of
    [setNeighbors]. *)
Fixpoint positions_from (l : nat) (pna' : list (list ptr)) : list (nat * nat * nat) :=
  match pna' with
  | [] => []
  | row :: rest =>
      ((λ c, (l, length row, c)) <$> seq 0 (length row)) ++ positions_from (S l) rest
  end.

(** The body of the loops of [setNeighbors] at a position. *)
Definition setNeighborsAt (pna : list (list ptr)) (x : nat * nat * nat) (h : heap)
  : result heap :=
  setNeighborsCell pna (length pna) x.1.1 x.1.2 x.2 h.

(** The node at a position ([0] when there is none). *)
Definition nodeAt (pna : list (list ptr)) (x : nat * nat * nat) : ptr :=
  default 0 (cell pna x.1.1 x.2).

(** No cell is its own neighbour on the heap [h]. *)
Definition irreflexive (h : heap) : Prop := ∀ a, ¬ lists h a a.

(** The neighbour relation is symmetric on the heap [h]. *)
Definition symmetric (h : heap) : Prop :=
  ∀ a b, lists h a b → lists h b a.

(** A slot is inward for ring [r] when it points to a node of ring [r - 1]. *)
Definition inwardb (pna : list (list ptr)) (r : nat) (slot : option ptr) : bool :=
  match slot with
  | Some q => bool_decide (q ∈ default [] (pna !! (r - 1)))
  | None => false
  end.

(** The number of inward slots of a node of ring [r]. *)
Definition inwardCount (pna : list (list ptr)) (r : nat) (n : linkedPolygonNode) : nat :=
  length (List.filter (inwardb pna r) (vec_to_list (adjacentList n))).

(** An executable form of [honeycomb]. *)
Definition honeycombb (pna : list (list ptr)) (h : heap) : bool :=
  forallb (λ l, match pna !! l with
                | Some row => length row =? ringSize l
                | None => true
                end) (seq 0 (length pna))
  && bool_decide (NoDup (concat pna))
  && forallb (λ p, p <? length h) (concat pna)
  && forallb (λ n, bool_decide (adjacentList n = vreplicate SIDES None)) h.

(** ** Letters and buckets *)

(** An uppercase letter 'A'..'Z'. *)
Definition is_upper (a : ascii) : bool :=
  (65 <=? nat_of_ascii a) && (nat_of_ascii a <=? 90).

Fixpoint string_forallb (f : ascii → bool) (s : string) : bool :=
  match s with
  | EmptyString => true
  | String a rest => f a && string_forallb f rest
  end.

(** Every character of every layer is an uppercase letter. *)
Definition all_upper (layers : list string) : bool :=
  forallb (string_forallb is_upper) layers.

(** An index into the 26 buckets. *)
Definition in_bucket_range (i : Z) : Prop := (0 ≤ i < 26)%Z.

(** [is_chain h o ps]: the linked list that starts at the pointer [o] and
    follows [nextPtr] consists of the nodes [ps], in this order, and ends
    with [NULL]. *)
Fixpoint is_chain (h : heap) (o : option ptr) (ps : list ptr) : Prop :=
  match ps with
  | [] => o = None
  | p :: ps' => o = Some p ∧ ∃ n, h !! p = Some n ∧ is_chain h (nextPtr n) ps'
  end.

(** The bucket of the letter of the node [p]. *)
Definition bucketOf (h : heap) (p : ptr) : Z :=
  match h !! p with
  | Some n => getBucket (value n)
  | None => (-1)%Z
  end.

(** The nodes whose letter belongs to bucket [b], in the order of their
    creation. *)
Definition bucketNodes (h : heap) (b : nat) : list ptr :=
  filter (λ p, bucketOf h p = Z.of_nat b) (seq 0 (length h)).

(** The state of the three objects during [populateLinkedNodeArray]. *)
Record populated (g : grid) : Prop := mkPopulated {
  pop_lna_length : length (linkedNodeArray g) = ALPHABET;
  pop_chains : ∀ b, b < ALPHABET →
    is_chain (nodes g) (default None (linkedNodeArray g !! b)) (bucketNodes (nodes g) b);
  pop_upper : ∀ p n, nodes g !! p = Some n → is_upper (value n) = true;
  pop_fresh : ∀ p n, nodes g !! p = Some n →
    adjacentList n = vreplicate SIDES None ∧ visited n = false;
  pop_positions : concat (positionNodeArray g) = seq 0 (length (nodes g))
}.

(** The position array of layers of the lengths [lens], for nodes created
    one after the other from [start] on. *)
Fixpoint layout (start : nat) (lens : list nat) : list (list ptr) :=
  match lens with
  | [] => []
  | n :: rest => seq start n :: layout (start + n) rest
  end.

(** The layers of a honeycomb: layer [l] has [ringSize l] characters. *)
Definition hexagonal (layers : list string) : Prop :=
  ∀ l layer, layers !! l = Some layer → String.length layer = ringSize l.

(** [h'] differs from [h] in neighbour slots only. *)
Definition same_but_slots (h h' : heap) : Prop :=
  length h' = length h
  ∧ ∀ p n, h !! p = Some n →
      ∃ n', h' !! p = Some n' ∧ value n' = value n ∧ layerN n' = layerN n
            ∧ charN n' = charN n ∧ nextPtr n' = nextPtr n ∧ visited n' = visited n.

(** Every neighbour slot of [h'] is one of [h] or names a node of the
    position array. *)
Definition slots_from (pna : list (list ptr)) (h h' : heap) : Prop :=
  ∀ a b, lists h' a b → lists h a b ∨ b ∈ concat pna.

(** The state of the heap during [setNeighbors], started on [h]. *)
Definition linking (pna : list (list ptr)) (h h' : heap) : Prop :=
  same_but_slots h h' ∧ slots_from pna h h'.

(** What the search relies on in the grid of [main]. *)
Record searchable (g : grid) : Prop := mkSearchable {
  sr_closed : closed (nodes g);
  sr_unvisited : all_unvisited (nodes g);
  sr_lna_length : length (linkedNodeArray g) = 26;
  sr_chains : ∀ b, b < 26 →
    is_chain (nodes g) (default None (linkedNodeArray g !! b)) (bucketNodes (nodes g) b);
  sr_upper : ∀ p n, nodes g !! p = Some n → is_upper (value n) = true
}.

(** Whether [main] finds the word in the grid. *)
Definition foundb (g : grid) (word : string) : bool :=
  match searchWord (linkedNodeArray g) (nodes g) word with
  | Ok (b, _) => b
  | Fault _ => false
  end.

(** No word of the list stands before a smaller one next to it. *)
Fixpoint ascending (ws : list string) : Prop :=
  match ws with
  | x :: ws' => match ws' with
                | y :: _ => string_ltb y x = false ∧ ascending ws'
                | [] => True
                end
  | [] => True
  end.

(** Executable forms of [closed] and [all_unvisited]. *)
Definition closedb (h : heap) : bool :=
  forallb (λ n, forallb (λ slot, match slot with
                                 | None => true
                                 | Some b => b <? length h
                                 end)
                        (vec_to_list (adjacentList n))) h.

Definition all_unvisitedb (h : heap) : bool :=
  forallb (λ n, negb (visited n)) h.

(** ** Two small honeycombs *)

Definition grid_of (r : result grid) : grid :=
  match r with
  | Ok g => g
  | Fault _ => emptyGrid
  end.

(** The centre "A" alone. *)
Definition grid1 : grid := Eval vm_compute in grid_of (buildGrid ["A"%string]).

(** The centre "A" with the ring "BCDEFG" around it. *)
Definition grid2 : grid := Eval vm_compute in grid_of (buildGrid ["A"; "BCDEFG"]%string).

(** The same honeycomb before [setNeighbors]. *)
Definition grid2_unlinked : grid :=
  Eval vm_compute in grid_of (populateLinkedNodeArray ["A"; "BCDEFG"]%string emptyGrid).

(** A ring of seven cells around the centre: not a honeycomb. *)
Definition grid_long : grid :=
  Eval vm_compute in grid_of (buildGrid ["A"; "BCDEFGH"]%string).

(** A layer 1 of three cells, as [populateLinkedNodeArray] leaves it. *)
Definition grid_short : grid :=
  Eval vm_compute in grid_of (populateLinkedNodeArray ["A"; "BCD"]%string emptyGrid).

(** Three layers, before and after [setNeighbors]. *)
Definition grid3_unlinked : grid :=
  Eval vm_compute in
    grid_of (populateLinkedNodeArray ["A"; "BCDEFG"; "HIJKLMNOPQRS"]%string emptyGrid).

Definition grid3 : grid :=
  Eval vm_compute in grid_of (buildGrid ["A"; "BCDEFG"; "HIJKLMNOPQRS"]%string).

(** ** Words, coordinates and neighbours *)

(** The word read backwards. *)
Definition string_rev (w : string) : string :=
  string_of_list_ascii (reverse (list_ascii_of_string w)).

(** The letter and the coordinates that a node carries. *)
Definition coords (n : linkedPolygonNode) : ascii * nat * nat :=
  (value n, layerN n, charN n).

(** The characters of a layer from position [c] on, and of the layers from
    number [l] on, each with its coordinates, in reading order. *)
Fixpoint layerCoords (l c : nat) (layer : string) : list (ascii * nat * nat) :=
  match layer with
  | EmptyString => []
  | String v rest => (v, l, c) :: layerCoords l (S c) rest
  end.

Fixpoint layersCoords (l : nat) (layers : list string) : list (ascii * nat * nat) :=
  match layers with
  | [] => []
  | layer :: rest => layerCoords l 0 layer ++ layersCoords (S l) rest
  end.

(** The letter of bucket [b]: ['A' + b]. *)
Definition bucketLetter (b : nat) : ascii := ascii_of_nat (65 + b).

(** The neighbours of a node: its slots that are not [NULL], in slot order. *)
Definition neighbors (n : linkedPolygonNode) : list ptr :=
  omap id (vec_to_list (adjacentList n)).

(** The number of neighbours of the cell [(l, c)] in a honeycomb of [R]
    layers: six inside, three at a corner and four at an edge of the
    outermost layer, none for a centre that stands alone. *)
Definition neighborCount (R l c : nat) : nat :=
  if l <? R - 1 then 6
  else if l =? 0 then 0
  else if isCorner l c then 3 else 4.

(** ** Files *)

Definition no_newline (s : string) : bool :=
  string_forallb (λ c, negb (Ascii.eqb c newline)) s.

(** The text of a file whose lines are [ls], each ended by a newline. *)
Fixpoint unlines (ls : list string) : string :=
  match ls with
  | [] => EmptyString
  | l :: ls' => (l ++ String newline (unlines ls'))%string
  end.

(** What a file holds after its last newline, as a list of lines. *)
Definition last_line (last : string) : list string :=
  match last with
  | EmptyString => []
  | String _ _ => [last]
  end.

(** A machine with a honeycomb file and a dictionary file. *)
Definition machine2 : environment :=
  mkEnvironment
    (λ path, if String.eqb path "honeycomb.txt" then Some (unlines ["2"; "A"; "BCDEFG"])
             else if String.eqb path "dictionary.txt"
                  then Some (unlines ["AB"; "AG"; "BC"; "XYZ"])
                  else None)%string
    (λ n, (n <? 2 ^ 58)%Z).

(* ------------------------------------------------------------------ *)
(** * Properties of the word search *)

Lemma bind_Ok {A B : Type} (a : A) (k : A → result B) : (Ok a ≫= k) = k a.
Proof. reflexivity. Qed.

Lemma deref_Some (h : heap) p n : h !! p = Some n → deref h p = Ok n.
Proof. unfold deref. by intros ->. Qed.

Lemma store_Some (h : heap) p n f :
  h !! p = Some n → store h p f = Ok (<[p := f n]> h).
Proof. intros H. unfold store. by rewrite (deref_Some _ _ _ H). Qed.

Section Marking.
Variables (h : heap) (cur : ptr) (n : linkedPolygonNode) (b : bool).
Hypothesis Hcur : h !! cur = Some n.

Local Abbreviation h1 := (<[cur := set_visited b n]> h) (only parsing).

Lemma mark_lookup_eq : h1 !! cur = Some (set_visited b n).
Proof. apply list_lookup_insert_eq. by eapply lookup_lt_Some. Qed.

Lemma mark_lookup_ne q : q ≠ cur → h1 !! q = h !! q.
Proof. intros. by apply list_lookup_insert_ne. Qed.

Lemma mark_lookup q m :
  h1 !! q = Some m →
  ∃ m0, h !! q = Some m0 ∧ value m = value m0 ∧ adjacentList m = adjacentList m0
        ∧ nextPtr m = nextPtr m0 ∧ (q ≠ cur → m = m0) ∧ (q = cur → visited m = b).
Proof.
  destruct (decide (q = cur)) as [->|Hne].
  - rewrite mark_lookup_eq. intros [= <-]. exists n. naive_solver.
  - rewrite mark_lookup_ne by done. intros. exists m. naive_solver.
Qed.

Lemma mark_lookup_inv q m0 :
  h !! q = Some m0 →
  ∃ m, h1 !! q = Some m ∧ value m = value m0 ∧ adjacentList m = adjacentList m0.
Proof.
  destruct (decide (q = cur)) as [->|Hne]; intros Hq.
  - rewrite mark_lookup_eq. rewrite Hcur in Hq. injection Hq as <-. eauto.
  - rewrite mark_lookup_ne by done. eauto.
Qed.

Lemma mark_length : length h1 = length h.
Proof. apply length_insert. Qed.

Lemma mark_lists a c : lists h1 a c ↔ lists h a c.
Proof.
  split.
  - intros (na & k & Ha & Hk).
    destruct (mark_lookup _ _ Ha) as (m0 & ? & _ & Hadj & _).
    exists m0, k. by rewrite <- Hadj.
  - intros (na & k & Ha & Hk).
    destruct (mark_lookup_inv _ _ Ha) as (m & ? & _ & Hadj).
    exists m, k. by rewrite Hadj.
Qed.

Lemma mark_letter_at q a : letter_at h1 q a ↔ letter_at h q a.
Proof.
  split.
  - intros (m & Hq & Hv).
    destruct (mark_lookup _ _ Hq) as (m0 & ? & Hval & _).
    exists m0. split; [done | congruence].
  - intros (m0 & Hq & Hv).
    destruct (mark_lookup_inv _ _ Hq) as (m & ? & Hval & _).
    exists m. split; [done | congruence].
Qed.

Lemma mark_closed : closed h → closed h1.
Proof.
  intros Hc a c Hl. rewrite mark_length. apply (Hc a c). by apply mark_lists.
Qed.

Lemma mark_linked p : linked h1 p ↔ linked h p.
Proof.
  induction p as [|a [|c t] IH]; simpl; [done | done |].
  simpl in IH. rewrite mark_lists, IH. done.
Qed.

Lemma mark_spells p w : spells h1 p w ↔ spells h p w.
Proof.
  unfold spells. split; intros H; (eapply List.Forall2_impl; [| exact H]);
    intros ? ?; apply mark_letter_at.
Qed.
End Marking.

Lemma mark_true_unvisited (h : heap) cur n q :
  h !! cur = Some n →
  unvisited (<[cur := set_visited true n]> h) q ↔ unvisited h q ∧ q ≠ cur.
Proof.
  intros Hcur. split.
  - intros (m & Hq & Hv). destruct (decide (q = cur)) as [->|Hne].
    + rewrite (mark_lookup_eq h cur n true Hcur) in Hq. by injection Hq as <-.
    + rewrite (mark_lookup_ne h cur n true) in Hq by done.
      split; [by exists m | done].
  - intros [(m & Hq & Hv) Hne]. exists m.
    by rewrite (mark_lookup_ne h cur n true).
Qed.

Lemma mark_restore (h : heap) cur n :
  h !! cur = Some n → visited n = false →
  <[cur := set_visited false (set_visited true n)]> (<[cur := set_visited true n]> h) = h.
Proof.
  intros Hcur Hv. rewrite list_insert_insert_eq.
  apply list_insert_id. rewrite Hcur. f_equal.
  destruct n; simpl in *; by subst.
Qed.

(** ** The loop over the neighbour slots *)

Section NeighborLoop.
Variable rec : heap → option ptr → result (bool * heap).
Variables (h1 : heap) (cur : ptr) (cn : linkedPolygonNode) (first : ascii).
Variable P : ptr → Prop.
Hypothesis Hcur : h1 !! cur = Some cn.
Hypothesis Hclosed : closed h1.
Hypothesis Hrec : ∀ nb nn, h1 !! nb = Some nn → visited nn = false →
  ∃ b, rec h1 (Some nb) = Ok (b, h1) ∧ (b = true ↔ P nb).

Lemma searchNeighbor_spec k :
  ∃ b, searchNeighbor rec first (adjacentList cn !!! k) h1 = Ok (b, h1)
       ∧ (b = true ↔ qualifies h1 first P (adjacentList cn !!! k)).
Proof.
  unfold searchNeighbor, qualifies.
  destruct (adjacentList cn !!! k) as [nb|] eqn:Hk.
  - assert (nb < length h1) as Hlt by (apply (Hclosed cur); by exists cn, k).
    destruct (lookup_lt_is_Some_2 _ _ Hlt) as [nn Hnn].
    rewrite (deref_Some _ _ _ Hnn), bind_Ok.
    destruct (visited nn) eqn:Hv; simpl.
    + exists false. split; [done |]. split; [done |].
      intros (? & ? & [= <-] & ? & ? & _). congruence.
    + destruct (Ascii.eqb_spec (value nn) first) as [Hval|Hval].
      * destruct (Hrec nb nn Hnn Hv) as (b & -> & Hb). exists b.
        split; [done |]. rewrite Hb. split.
        -- intros. by exists nb, nn.
        -- by intros (? & ? & [= <-] & _ & _ & _ & ?).
      * exists false. split; [done |]. split; [done |].
        intros (? & ? & [= <-] & ? & ? & ? & _). congruence.
  - exists false. split; [done |]. split; [done |].
    by intros (? & ? & [=] & _).
Qed.

Lemma searchNeighbors_spec ks :
  ∃ b, searchNeighbors rec cur first ks h1
         = Ok (b, <[cur := set_visited false cn]> h1)
       ∧ (b = true ↔ ∃ k, k ∈ ks ∧ qualifies h1 first P (adjacentList cn !!! k)).
Proof.
  induction ks as [|k ks IH]; simpl.
  - rewrite (store_Some _ _ _ _ Hcur), bind_Ok. exists false.
    split; [done |]. split; [done |]. intros (k & Hk & _). by inversion Hk.
  - rewrite (deref_Some _ _ _ Hcur), bind_Ok.
    destruct (searchNeighbor_spec k) as ([|] & -> & Hb); rewrite bind_Ok; simpl.
    + rewrite (store_Some _ _ _ _ Hcur), bind_Ok. exists true.
      split; [done |]. split; [| done]. intros _. exists k.
      split; [apply list_elem_of_here | by apply Hb].
    + destruct IH as (b & -> & IHb). exists b. split; [done |].
      rewrite IHb. split.
      * intros (k' & Hk' & Hq). exists k'. split; [by apply list_elem_of_further | done].
      * intros (k' & Hk' & Hq). apply elem_of_cons in Hk' as [-> | Hk'].
        -- apply Hb in Hq. discriminate.
        -- by exists k'.
Qed.
End NeighborLoop.

Lemma slots_all (k : fin SIDES) : k ∈ slots.
Proof.
  unfold slots, slot0, slot1, slot2, slot3, slot4, slot5.
  repeat (inv_fin k; [repeat constructor | intros k]).
  inv_fin k.
Qed.

(** ** The recursion on the word *)

Lemma continuation_nil (h : heap) cur : continuation h cur EmptyString [].
Proof.
  repeat split; simpl; try constructor; [by intros ?%elem_of_nil | constructor].
Qed.

Lemma continuation_step (h : heap) cur n first rest nb p :
  h !! cur = Some n →
  continuation h cur (String first rest) (nb :: p) ↔
    lists h cur nb ∧ nb ≠ cur ∧ letter_at h nb first ∧ unvisited h nb
    ∧ continuation (<[cur := set_visited true n]> h) nb rest p.
Proof.
  intros Hcur. unfold continuation.
  change (linked h (cur :: nb :: p)) with (lists h cur nb ∧ linked h (nb :: p)).
  rewrite (mark_linked h cur n true Hcur), (mark_spells h cur n true Hcur).
  unfold spells. simpl list_ascii_of_string.
  rewrite !NoDup_cons, !not_elem_of_cons, Forall2_cons, !Forall_cons.
  rewrite !Forall_forall.
  setoid_rewrite (mark_true_unvisited h cur n _ Hcur).
  split.
  - intros ((Hl & Hlk) & ((Hne & Hnin) & Hnb & Hnd) & (Hlet & Hsp) & Hun & Hall).
    repeat split; try done; try (by apply Hall).
    by intros ->.
  - intros (Hl & Hne & Hlet & Hun & Hlk & (Hnb & Hnd) & Hsp & Hall).
    repeat split; try done; try (by apply Hall).
    intros Hin. by destruct (Hall _ Hin).
Qed.

Lemma searchNodes_cons (h : heap) first rest cur :
  searchNodes h (String first rest) (Some cur) =
    (h1 ← store h cur (set_visited true);
     searchNeighbors (λ h' nb, searchNodes h' rest nb) cur first slots h1).
Proof. reflexivity. Qed.

Lemma searchNodes_spec rest : ∀ (h : heap) cur n,
  closed h → h !! cur = Some n → visited n = false →
  ∃ b, searchNodes h rest (Some cur) = Ok (b, h)
       ∧ (b = true ↔ ∃ p, continuation h cur rest p).
Proof.
  induction rest as [|first rest IH]; intros h cur n Hclosed Hcur Hv.
  - exists true. split; [done |]. split; [| done].
    intros _. exists []. apply continuation_nil.
  - rewrite searchNodes_cons, (store_Some _ _ _ _ Hcur), bind_Ok.
    pose proof (mark_lookup_eq h cur n true Hcur) as Hcur1.
    pose proof (mark_closed h cur n true Hcur Hclosed) as Hclosed1.
    set (h1 := <[cur := set_visited true n]> h) in *.
    destruct (searchNeighbors_spec (λ h' nb, searchNodes h' rest nb)
                h1 cur (set_visited true n) first
                (λ nb, ∃ p, continuation h1 nb rest p) Hcur1 Hclosed1) with slots
      as (b & Hrun & Hb).
    { intros nb nn Hnn Hvn. by apply (IH h1 nb nn). }
    exists b. split.
    { rewrite Hrun. subst h1. by rewrite mark_restore. }
    rewrite Hb. unfold qualifies. simpl. split.
    + intros (k & _ & nb & nn & Hk & Hnn & Hvn & Hval & p & Hp).
      exists (nb :: p). apply (continuation_step h cur n first rest nb p Hcur).
      assert (nb ≠ cur) as Hne by (intros ->; rewrite Hcur1 in Hnn; by injection Hnn as <-).
      subst h1. rewrite (mark_lookup_ne h cur n true) in Hnn by done.
      split_and!; [by exists n, k | done | by exists nn | by exists nn | done].
    + intros (p & Hp). destruct p as [|nb p].
      { destruct Hp as (_ & _ & Hsp & _). inversion Hsp. }
      apply (continuation_step h cur n first rest nb p Hcur) in Hp
        as ((na & k & Hna & Hk) & Hne & (nn & Hnn & Hval) & (nn' & Hnn' & Hvn) & Hp).
      rewrite Hcur in Hna. injection Hna as <-.
      rewrite Hnn in Hnn'. injection Hnn' as <-.
      exists k. split; [apply slots_all |].
      exists nb, nn. split_and!; try done.
      * subst h1. by rewrite (mark_lookup_ne h cur n true).
      * by exists p.
Qed.

(** A continuation of the search at [start] is the tail of a simple path
    that starts there, when no cell is marked. *)
Lemma continuation_simple_path (h : heap) start n first rest :
  all_unvisited h → h !! start = Some n → value n = first →
  (∃ p, continuation h start rest p) ↔
  (∃ p, simple_path h start (String first rest) p).
Proof.
  intros Hall Hstart Hval. split.
  - intros (p & Hl & Hnd & Hsp & _). exists (start :: p).
    split_and!; try done. apply list.Forall2_cons. split; [by exists n | done].
  - intros (p & Hhd & Hl & Hnd & Hsp). destruct p as [|s p]; [done |].
    injection Hhd as ->. apply list.Forall2_cons in Hsp as [_ Hsp].
    exists p. split_and!; try done.
    apply list.Forall_forall. intros q Hq.
    destruct (list_elem_of_lookup_1 _ _ Hq) as [i Hi].
    destruct (Forall2_lookup_l _ _ _ _ _ Hsp Hi) as (a & _ & m & Hm & _).
    exists m. split; [done |]. by apply (Hall q).
Qed.

Lemma no_path_for_empty_word (h : heap) start p :
  ¬ simple_path h start EmptyString p.
Proof.
  intros (Hhd & _ & _ & Hsp). apply Forall2_nil_inv_r in Hsp. by subst.
Qed.

(** ** Agreement of the depth-bounded search with the search *)

Lemma searchNeighbor_ext rec1 rec2 first slot (h : heap) :
  (∀ h' nb, rec1 h' nb = rec2 h' nb) →
  searchNeighbor rec1 first slot h = searchNeighbor rec2 first slot h.
Proof.
  intros Hext. unfold searchNeighbor. destruct slot as [nb|]; [| done].
  destruct (deref h nb) as [nn|]; [| done]. simpl.
  by destruct (negb (visited nn) && Ascii.eqb (value nn) first).
Qed.

Lemma searchNeighbors_ext rec1 rec2 cur first ks : ∀ h : heap,
  (∀ h' nb, rec1 h' nb = rec2 h' nb) →
  searchNeighbors rec1 cur first ks h = searchNeighbors rec2 cur first ks h.
Proof.
  induction ks as [|k ks IH]; intros h Hext; simpl; [done |].
  destruct (deref h cur) as [cn|]; [| done]. simpl.
  rewrite (searchNeighbor_ext rec1 rec2) by done.
  destruct (searchNeighbor rec2 first (adjacentList cn !!! k) h) as [[[|] h']|]; simpl;
    [done | by apply IH | done].
Qed.

Lemma searchNodesDepth_cons depth (h : heap) first rest cur :
  searchNodesDepth depth h (String first rest) (Some cur) =
    (h1 ← store h cur (set_visited true);
     searchNeighbors
       (λ h' nb, match depth with
                 | 0 => Fault StackOverflow
                 | S d => searchNodesDepth d h' rest nb
                 end)
       cur first slots h1).
Proof. by destruct depth. Qed.

Lemma searchNodesDepth_enough word : ∀ depth (h : heap) current,
  String.length word ≤ depth →
  searchNodesDepth depth h word current = searchNodes h word current.
Proof.
  induction word as [|first rest IH]; intros depth h current Hle.
  - by destruct depth, current.
  - destruct current as [cur|]; [| by destruct depth].
    destruct depth as [|d]; [simpl in Hle; lia |].
    rewrite searchNodes_cons, searchNodesDepth_cons.
    destruct (store h cur (set_visited true)) as [h1|]; [| done].
    rewrite !bind_Ok. apply searchNeighbors_ext. intros h' nb. apply IH. simpl in Hle. lia.
Qed.

Lemma searchNeighbors_pointer_fault_only rec cur first ks : ∀ h : heap,
  (∀ h' nb, pointer_fault_only (rec h' nb)) →
  pointer_fault_only (searchNeighbors rec cur first ks h).
Proof.
  induction ks as [|k ks IH]; intros h Hrec; simpl.
  - unfold store, deref. by destruct (h !! cur).
  - unfold deref at 1. destruct (h !! cur) as [cn|]; [| done]. simpl.
    unfold searchNeighbor. destruct (adjacentList cn !!! k) as [nb|]; simpl.
    + unfold deref at 1. destruct (h !! nb) as [nn|]; [| done]. simpl.
      destruct (negb (visited nn) && Ascii.eqb (value nn) first); simpl.
      * pose proof (Hrec h (Some nb)) as Hr.
        destruct (rec h (Some nb)) as [[[|] h']|[]]; simpl in *; try done.
        -- unfold store, deref. by destruct (h' !! cur).
        -- by apply IH.
      * by apply IH.
    + by apply IH.
Qed.

Lemma searchNodes_pointer_fault_only word : ∀ (h : heap) current,
  pointer_fault_only (searchNodes h word current).
Proof.
  induction word as [|first rest IH]; intros h [cur|]; try done.
  rewrite searchNodes_cons. unfold store, deref.
  destruct (h !! cur) as [n|]; [| done]. rewrite !bind_Ok.
  apply searchNeighbors_pointer_fault_only. intros h' nb. apply IH.
Qed.

(** ** The executable checks are sound *)

Lemma closedb_sound (h : heap) : closedb h = true → closed h.
Proof.
  unfold closedb. rewrite forallb_forall. intros Hall a b (na & k & Ha & Hk).
  specialize (Hall na). rewrite forallb_forall in Hall.
  assert (In na h) as Hin by (apply list_elem_of_In; by eapply list_elem_of_lookup_2).
  specialize (Hall Hin (Some b)). simpl in Hall.
  apply Nat.ltb_lt, Hall. apply list_elem_of_In. rewrite <- Hk. apply elem_of_vlookup.
  by exists k.
Qed.

Lemma all_unvisitedb_sound (h : heap) : all_unvisitedb h = true → all_unvisited h.
Proof.
  unfold all_unvisitedb. rewrite forallb_forall. intros Hall p n Hp.
  apply negb_true_iff, Hall, list_elem_of_In. by eapply list_elem_of_lookup_2.
Qed.

(* ------------------------------------------------------------------ *)
(** * Properties of the adjacency *)

(** ** Counted loops *)

Lemma forM_app {A S : Type} (xs ys : list A) (body : A → S → result S) (s : S) :
  forM (xs ++ ys) body s = (s' ← forM xs body s; forM ys body s').
Proof.
  revert s. induction xs as [|x xs IH]; intros s; simpl; [done |].
  destruct (body x s) as [s'|]; simpl; [apply IH | done].
Qed.

(** An invariant of the body of a loop is an invariant of the loop. *)
Lemma forM_invariant {A S : Type} (I : S → Prop) (xs : list A)
    (body : A → S → result S) :
  (∀ x s s', x ∈ xs → I s → body x s = Ok s' → I s') →
  ∀ s s', I s → forM xs body s = Ok s' → I s'.
Proof.
  induction xs as [|x xs IH]; intros Hbody s s' Hs; simpl.
  - by intros [= <-].
  - destruct (body x s) as [s1|] eqn:Hx; simpl; [| done].
    apply IH.
    + intros y t t' Hy. apply Hbody. by apply list_elem_of_further.
    + eapply Hbody; [apply list_elem_of_here | done | done].
Qed.

Lemma forM_fmap {A B S : Type} (f : A → B) (xs : list A)
    (body : B → S → result S) (s : S) :
  forM (f <$> xs) body s = forM xs (λ x, body (f x)) s.
Proof.
  revert s. induction xs as [|x xs IH]; intros s; simpl; [done |].
  destruct (body (f x) s) as [s'|]; simpl; [apply IH | done].
Qed.

(** A loop whose body rewrites one node per element, a different node each
    time, rewrites exactly these nodes of the heap [h0] it starts from. *)
Lemma forM_updates_from {A : Type} (xs : list A) (key : A → ptr)
    (upd : A → linkedPolygonNode → linkedPolygonNode)
    (body : A → heap → result heap) (h0 : heap) :
  (∀ x (h : heap) n, x ∈ xs → h0 !! key x = Some n → h !! key x = Some n →
     body x h = Ok (<[key x := upd x n]> h)) →
  NoDup (key <$> xs) →
  (∀ x, x ∈ xs → key x < length h0) →
  ∀ h : heap, length h = length h0 → (∀ x, x ∈ xs → h !! key x = h0 !! key x) →
  ∃ h' : heap, forM xs body h = Ok h' ∧ length h' = length h0
    ∧ (∀ x n, x ∈ xs → h0 !! key x = Some n → h' !! key x = Some (upd x n))
    ∧ (∀ p, p ∉ key <$> xs → h' !! p = h !! p).
Proof.
  induction xs as [|x xs IH]; intros Hbody Hnd Hvalid h Hlen Hsame.
  - exists h. split_and!; try done. intros x n Hx. by apply elem_of_nil in Hx.
  - rewrite fmap_cons in Hnd. apply NoDup_cons in Hnd as [Hx Hnd].
    destruct (lookup_lt_is_Some_2 h0 (key x) (Hvalid x (list_elem_of_here _ _)))
      as [n Hn].
    assert (h !! key x = Some n) as Hn'
      by (by rewrite (Hsame x (list_elem_of_here _ _))).
    simpl. rewrite (Hbody x h n (list_elem_of_here _ _) Hn Hn'), bind_Ok.
    destruct (IH (λ y h1 m Hy, Hbody y h1 m (list_elem_of_further _ _ _ Hy)) Hnd
                 (λ y Hy, Hvalid y (list_elem_of_further _ _ _ Hy))
                 (<[key x := upd x n]> h)) as (h' & Hrun & Hlen' & Hupd & Hframe).
    { by rewrite length_insert. }
    { intros y Hy. rewrite list_lookup_insert_ne.
      - apply Hsame. by apply list_elem_of_further.
      - intros Heq. apply Hx. rewrite Heq. by apply list_elem_of_fmap_2. }
    exists h'. split_and!; [done | done | |].
    + intros y m Hy Hm. apply elem_of_cons in Hy as [-> | Hy].
      * rewrite Hframe by done. rewrite Hn in Hm. injection Hm as <-.
        apply list_lookup_insert_eq. by eapply lookup_lt_Some.
      * by apply Hupd.
    + intros q Hq. apply not_elem_of_cons in Hq as [Hne Hq].
      rewrite Hframe by done. by apply list_lookup_insert_ne.
Qed.

(** ** Index arithmetic of the honeycomb *)

Lemma side_offset l c :
  0 < l → c < 6 * l →
  ∃ s o, c / l = s ∧ c mod l = o ∧ c = l * s + o ∧ o < l ∧ s < 6.
Proof.
  intros Hl Hc. exists (c / l), (c mod l). split_and!; try done.
  - apply Nat.div_mod_eq.
  - apply Nat.mod_upper_bound. lia.
  - apply Nat.Div0.div_lt_upper_bound. lia.
Qed.

Ltac side_cases l c :=
  let s := fresh "s" in let o := fresh "o" in
  let Hs := fresh "Hs" in let Ho := fresh "Ho" in
  let Hc := fresh "Hc" in let Hol := fresh "Hol" in let Hs6 := fresh "Hs6" in
  destruct (side_offset l c) as (s & o & Hs & Ho & Hc & Hol & Hs6); [lia | lia |];
  rewrite ?Hs, ?Ho in *;
  do 6 (try destruct s as [|s]); [| | | | | | lia].

Lemma ringSize_pos l : 0 < l → ringSize l = 6 * l.
Proof. unfold ringSize. destruct (Nat.eqb_spec l 0); [lia | done]. Qed.

Lemma ringSize_gt0 l : 0 < ringSize l.
Proof. unfold ringSize. destruct (Nat.eqb_spec l 0); lia. Qed.

Lemma inner_bound l c :
  0 < l → c < 6 * l - 1 → (l - 1) * (c / l) + c mod l < ringSize (l - 1).
Proof.
  intros Hl Hc. unfold ringSize. side_cases l c;
    destruct (Nat.eqb_spec (l - 1) 0); lia.
Qed.

Lemma inner_left_bound l c :
  0 < l → c < 6 * l → c mod l ≠ 0 →
  (l - 1) * (c / l) + c mod l - 1 < ringSize (l - 1).
Proof.
  intros Hl Hc Hm. unfold ringSize. side_cases l c;
    destruct (Nat.eqb_spec (l - 1) 0); lia.
Qed.

Lemma outer_bound l c :
  0 < l → c < 6 * l → (l + 1) * (c / l) + c mod l + 1 < ringSize (l + 1).
Proof.
  intros Hl Hc. rewrite ringSize_pos by lia. side_cases l c; lia.
Qed.

Lemma outer_mid_bound l c :
  0 < l → c < 6 * l → (l + 1) * (c / l) + c mod l < ringSize (l + 1).
Proof.
  intros Hl Hc. rewrite ringSize_pos by lia. side_cases l c; lia.
Qed.

Lemma outer_left_bound l c :
  0 < l → c < 6 * l → (l + 1) * (c / l) - 1 < ringSize (l + 1).
Proof.
  intros Hl Hc. rewrite ringSize_pos by lia. side_cases l c; lia.
Qed.

Lemma at2_cell (pna : list (list ptr)) i j q : cell pna i j = Some q → at2 pna i j = Ok q.
Proof.
  unfold cell, at2, at_nat. destruct (pna !! i) as [row|]; simpl; [| done].
  by intros ->.
Qed.

Lemma at2_inv (pna : list (list ptr)) i j q : at2 pna i j = Ok q → cell pna i j = Some q.
Proof.
  unfold cell, at2, at_nat. destruct (pna !! i) as [row|]; simpl; [| done].
  destruct (row !! j); [by intros [= ->] | done].
Qed.

Section Shape.
Variable pna : list (list ptr).
Hypothesis Hshape : ∀ l row, pna !! l = Some row → length row = ringSize l.

Lemma cell_in_range i j :
  i < length pna → j < ringSize i → is_Some (cell pna i j).
Proof.
  intros Hi Hj. unfold cell.
  destruct (lookup_lt_is_Some_2 pna i Hi) as [row Hrow]. rewrite Hrow. simpl.
  apply lookup_lt_is_Some_2. by rewrite (Hshape i row Hrow).
Qed.

Lemma cell_range i j q :
  cell pna i j = Some q → i < length pna ∧ j < ringSize i.
Proof.
  unfold cell. destruct (pna !! i) as [row|] eqn:Hrow; simpl; [| done].
  intros Hq. split; [by eapply lookup_lt_Some |].
  rewrite <- (Hshape i row Hrow). by eapply lookup_lt_Some.
Qed.
End Shape.

Lemma setAdjacent_insert (h : heap) cur k q n :
  cur < length h →
  setAdjacent cur k q (<[cur := n]> h) = Ok (<[cur := set_adjacent k (Some q) n]> h).
Proof.
  intros Hlt. unfold setAdjacent.
  rewrite (store_Some _ cur n) by (by apply list_lookup_insert_eq).
  by rewrite list_insert_insert_eq.
Qed.

Lemma setAdjacent_Some (h : heap) cur k q n :
  h !! cur = Some n →
  setAdjacent cur k q h = Ok (<[cur := set_adjacent k (Some q) n]> h).
Proof. intros Hn. unfold setAdjacent. by rewrite (store_Some _ cur n). Qed.

Ltac resolve_at2 Hshape :=
  repeat match goal with
  | |- context [at2 ?pna ?i ?j] =>
      let q := fresh "q" in let Hq := fresh "Hq" in
      destruct (cell_in_range pna Hshape i j) as [q Hq];
      [ lia
      | first [ apply inner_bound; lia
              | apply inner_left_bound; lia
              | apply outer_bound; lia
              | apply outer_mid_bound; lia
              | apply outer_left_bound; lia
              | rewrite ringSize_pos by lia; lia
              | apply ringSize_gt0 ]
      | rewrite (at2_cell pna i j q Hq), ?bind_Ok ]
  end.

Lemma setNeighborsCell_ring (pna : list (list ptr)) (h : heap) l c cur n :
  (∀ l row, pna !! l = Some row → length row = ringSize l) →
  0 < l → l < length pna → c < 6 * l →
  cell pna l c = Some cur → h !! cur = Some n →
  adjacentList n = vreplicate 6 None →
  setNeighborsCell pna (length pna) l (6 * l) c h
    = Ok (<[cur := with_adjacentList (hexPointers pna l c) n]> h).
Proof.
  intros Hshape Hl HlR Hc Hcur Hn Hfresh.
  assert (cur < length h) as Hlt by (by eapply lookup_lt_Some).
  unfold setNeighborsCell, hexPointers, hexSlots.
  rewrite (at2_cell _ _ _ _ Hcur), bind_Ok.
  destruct (Nat.ltb_spec 0 l) as [_|]; [| lia].
  destruct (Nat.eqb_spec l 0) as [|_]; [lia |].
  assert (isCorner l c = (c mod l =? 0)) as HisC.
  { unfold isCorner. destruct (Nat.eqb_spec l 0); [lia | done]. }
  rewrite HisC.
  destruct (Nat.ltb_spec c (6 * l - 1)), (Nat.eqb_spec (c mod l) 0),
    (Nat.ltb_spec 0 c), (Nat.ltb_spec l (length pna - 1)); simpl negb; cbv iota.
  all: resolve_at2 Hshape.
  all: repeat (rewrite ?bind_Ok; cbv beta;
               first [ rewrite (setAdjacent_Some h cur _ _ n Hn)
                     | rewrite setAdjacent_insert by done ]).
  all: rewrite ?bind_Ok.
  all: cbn [Vector.map mbind option_bind fst snd].
  all: rewrite ?Hq, ?Hq0, ?Hq1, ?Hq2, ?Hq3, ?Hq4, ?Hq5, ?Hq6.
  all: unfold with_adjacentList, set_adjacent;
    cbn [adjacentList value layerN charN nextPtr visited]; rewrite Hfresh; reflexivity.
Qed.

Lemma setNeighborsCell_centre (pna : list (list ptr)) (h : heap) cc cur n :
  (∀ l row, pna !! l = Some row → length row = ringSize l) →
  0 < length pna →
  cell pna 0 0 = Some cur → h !! cur = Some n →
  adjacentList n = vreplicate 6 None →
  setNeighborsCell pna (length pna) 0 cc 0 h
    = Ok (<[cur := with_adjacentList (hexPointers pna 0 0) n]> h).
Proof.
  intros Hshape HR Hcur Hn Hfresh.
  assert (cur < length h) as Hlt by (by eapply lookup_lt_Some).
  unfold setNeighborsCell, hexPointers, hexSlots.
  rewrite (at2_cell _ _ _ _ Hcur), bind_Ok.
  change (0 <? 0) with false. change (0 =? 0) with true. cbv iota.
  destruct (Nat.ltb_spec 1 (length pna)).
  - unfold slots. cbn [forM fin_to_nat slot0 slot1 slot2 slot3 slot4 slot5].
    resolve_at2 Hshape.
    repeat (rewrite ?bind_Ok; cbv beta;
            first [ rewrite (setAdjacent_Some h cur _ _ n Hn)
                  | rewrite setAdjacent_insert by done ]).
    rewrite ?bind_Ok.
    cbn [Vector.map mbind option_bind fst snd].
    rewrite ?Hq, ?Hq0, ?Hq1, ?Hq2, ?Hq3, ?Hq4, ?Hq5, ?Hq6.
    unfold with_adjacentList, set_adjacent;
      cbn [adjacentList value layerN charN nextPtr visited]; rewrite Hfresh; reflexivity.
  - f_equal. symmetry. apply list_insert_id. rewrite Hn. f_equal.
    unfold with_adjacentList. destruct n; simpl in *. subst. reflexivity.
Qed.

Lemma setNeighborsCell_spec (pna : list (list ptr)) (h : heap) l c cur n :
  (∀ l row, pna !! l = Some row → length row = ringSize l) →
  cell pna l c = Some cur → h !! cur = Some n →
  adjacentList n = vreplicate 6 None →
  setNeighborsCell pna (length pna) l (ringSize l) c h
    = Ok (<[cur := with_adjacentList (hexPointers pna l c) n]> h).
Proof.
  intros Hshape Hcur Hn Hfresh.
  destruct (cell_range pna Hshape l c cur Hcur) as [HlR Hc].
  destruct (decide (l = 0)) as [-> | Hl].
  - assert (c = 0) as -> by (unfold ringSize in Hc; simpl in Hc; lia).
    apply setNeighborsCell_centre; try done; lia.
  - rewrite ringSize_pos in * by lia.
    apply setNeighborsCell_ring; try done; lia.
Qed.

(** ** The neighbour table is symmetric *)

Lemma div_mod_unique l s o c :
  o < l → c = l * s + o → c / l = s ∧ c mod l = o.
Proof.
  intros Ho Hc. split; symmetry.
  - by apply (Nat.div_unique c l s o).
  - by apply (Nat.mod_unique c l s o).
Qed.

Ltac try_side c l s :=
  let H1 := fresh "Hd" in let H2 := fresh "Hm" in
  assert (c / l = s ∧ c mod l = c - l * s) as [H1 H2]
    by (apply div_mod_unique; lia);
  rewrite ?H1, ?H2.

Ltac solve_divmod :=
  match goal with
  | |- context [?c / ?l] =>
      first [ try_side c l 0 | try_side c l 1 | try_side c l 2
            | try_side c l 3 | try_side c l 4 | try_side c l 5 ]
  end.

Ltac split_conds :=
  repeat match goal with
  | |- context [?a <? ?b] => destruct (Nat.ltb_spec a b)
  | |- context [?a =? ?b] => destruct (Nat.eqb_spec a b)
  end.

Ltac back_slot k' :=
  solve [ exists k'; unfold hexSlots, isCorner;
          try (destruct (Nat.eqb_spec 0 0); [|lia]);
          match goal with
          | |- context [if ?l' =? 0 then _ else _] =>
              destruct (Nat.eqb_spec l' 0);
              [ split_conds; try lia; cbn; try (f_equal; f_equal; lia)
              | try solve_divmod; split_conds; cbn;
                try lia; try (f_equal; f_equal; lia) ]
          end ].

Ltac find_back :=
  first [ back_slot slot0 | back_slot slot1 | back_slot slot2
        | back_slot slot3 | back_slot slot4 | back_slot slot5 ].

Lemma hexSlots_back_ring R l c k l' c' :
  0 < l → l < R → c < 6 * l →
  hexSlots R l c !!! k = Some (l', c') →
  l' < R ∧ c' < ringSize l' ∧ ∃ k', hexSlots R l' c' !!! k' = Some (l, c).
Proof.
  intros Hl HlR Hc. unfold hexSlots at 1, isCorner.
  destruct (Nat.eqb_spec l 0) as [|_]; [lia |].
  side_cases l c.
  all: repeat (inv_fin k; [| intros k]); try (inv_fin k).
  all: cbn [lookup_total vector_lookup_total vec_S_inv negb];
       split_conds; cbn [negb]; intros [= <- <-] || discriminate.
  all: (split; [lia |]).
  all: (split; [unfold ringSize; split_conds; lia |]).
  all: try find_back.
  all: destruct (Nat.ltb_spec o (l - 1)); try find_back.
  all: destruct (Nat.eqb_spec l 1); find_back.
Qed.

(** ** What [setNeighbors] computes *)

Lemma hexSlots_back_centre R k l' c' :
  hexSlots R 0 0 !!! k = Some (l', c') →
  l' < R ∧ c' < ringSize l' ∧ ∃ k', hexSlots R l' c' !!! k' = Some (0, 0).
Proof.
  unfold hexSlots at 1. change (0 =? 0) with true. cbv iota.
  destruct (Nat.ltb_spec 1 R); [| by rewrite vlookup_replicate].
  repeat (inv_fin k; [| intros k]); try (inv_fin k).
  all: intros [= <- <-]; split; [lia |]; split; [vm_compute; lia |].
  all: exists slot0; reflexivity.
Qed.

Lemma hexSlots_back R l c k l' c' :
  l < R → c < ringSize l →
  hexSlots R l c !!! k = Some (l', c') →
  l' < R ∧ c' < ringSize l' ∧ ∃ k', hexSlots R l' c' !!! k' = Some (l, c).
Proof.
  intros HlR Hc. destruct (decide (l = 0)) as [-> | Hl].
  - assert (c = 0) as -> by (unfold ringSize in Hc; simpl in Hc; lia).
    apply hexSlots_back_centre.
  - rewrite ringSize_pos in Hc by lia. apply hexSlots_back_ring; lia.
Qed.

Lemma tabulate_lookup {A : Type} (d : A) (row : list A) :
  (λ c, default d (row !! c)) <$> seq 0 (length row) = row.
Proof.
  induction row as [|x row IH]; [done |].
  simpl. f_equal. rewrite <- fmap_S_seq, <- list_fmap_compose.
  rewrite <- IH at 2. done.
Qed.

Section Positions.
Variable pna : list (list ptr).

Lemma suffix_tail (row : list ptr) rest l :
  (∀ i, (row :: rest) !! i = pna !! (l + i)) →
  ∀ i, rest !! i = pna !! (S l + i).
Proof.
  intros Hsuf i. specialize (Hsuf (S i)). simpl in Hsuf. rewrite Hsuf.
  f_equal. lia.
Qed.

Lemma suffix_head (row : list ptr) rest l :
  (∀ i, (row :: rest) !! i = pna !! (l + i)) → pna !! l = Some row.
Proof.
  intros Hsuf. specialize (Hsuf 0). rewrite Nat.add_0_r in Hsuf. by rewrite <- Hsuf.
Qed.

Lemma positions_nodes pna' l :
  (∀ i, pna' !! i = pna !! (l + i)) →
  nodeAt pna <$> positions_from l pna' = concat pna'.
Proof.
  revert l. induction pna' as [|row rest IH]; intros l Hsuf; [done |].
  simpl. rewrite fmap_app, <- list_fmap_compose. f_equal.
  - rewrite <- (tabulate_lookup 0 row) at 2. apply list_fmap_ext.
    intros _ c _. unfold nodeAt, cell. simpl.
    by rewrite (suffix_head _ _ _ Hsuf).
  - apply IH. by eapply suffix_tail.
Qed.

Lemma positions_elem pna' l x :
  (∀ i, pna' !! i = pna !! (l + i)) →
  x ∈ positions_from l pna' →
  ∃ row, pna !! x.1.1 = Some row ∧ x.1.2 = length row ∧ x.2 < length row.
Proof.
  revert l. induction pna' as [|row rest IH]; intros l Hsuf Hx.
  - by apply elem_of_nil in Hx.
  - simpl in Hx. apply elem_of_app in Hx as [Hx | Hx].
    + apply list_elem_of_fmap in Hx as (c & -> & Hc). exists row. simpl.
      split_and!; [by eapply suffix_head | done |].
      apply elem_of_seq in Hc. lia.
    + apply (IH (S l)); [| done]. by eapply suffix_tail.
Qed.

Lemma positions_complete pna' l i row c :
  pna' !! i = Some row → c < length row →
  (l + i, length row, c) ∈ positions_from l pna'.
Proof.
  revert l i. induction pna' as [|row0 rest IH]; intros l i Hi Hc; [done |].
  simpl. apply elem_of_app. destruct i as [|i].
  - left. injection Hi as ->. rewrite Nat.add_0_r.
    apply list_elem_of_fmap. exists c. split; [done |].
    apply elem_of_seq. lia.
  - right. replace (l + S i) with (S l + i) by lia. by apply IH.
Qed.

Lemma setNeighborsLayer_Some R l row (h : heap) :
  pna !! l = Some row →
  setNeighborsLayer pna R l h
  = forM (seq 0 (length row)) (setNeighborsCell pna R l (length row)) h.
Proof. intros Hrow. unfold setNeighborsLayer, at_nat. by rewrite Hrow. Qed.

Lemma setNeighbors_flat pna' l (h : heap) :
  (∀ i, pna' !! i = pna !! (l + i)) →
  forM (seq l (length pna')) (setNeighborsLayer pna (length pna)) h
  = forM (positions_from l pna') (setNeighborsAt pna) h.
Proof.
  revert l h. induction pna' as [|row rest IH]; intros l h Hsuf; [done |].
  simpl. rewrite forM_app, forM_fmap.
  rewrite (setNeighborsLayer_Some _ l row h (suffix_head _ _ _ Hsuf)).
  change (λ x, setNeighborsAt pna (l, length row, x))
    with (setNeighborsCell pna (length pna) l (length row)).
  destruct (forM (seq 0 (length row))
              (setNeighborsCell pna (length pna) l (length row)) h) as [h1|];
    [| done].
  rewrite !bind_Ok. apply IH. by eapply suffix_tail.
Qed.
End Positions.

Lemma setNeighbors_positions (pna : list (list ptr)) (h : heap) :
  setNeighbors pna h = forM (positions_from 0 pna) (setNeighborsAt pna) h.
Proof. unfold setNeighbors. by apply setNeighbors_flat. Qed.

(** What [setNeighbors] does to a honeycomb. *)
Lemma setNeighbors_spec (pna : list (list ptr)) (h : heap) :
  honeycomb pna h →
  ∃ h' : heap, setNeighbors pna h = Ok h' ∧ length h' = length h
    ∧ (∀ l c cur n, cell pna l c = Some cur → h !! cur = Some n →
         h' !! cur = Some (with_adjacentList (hexPointers pna l c) n))
    ∧ (∀ p, p ∉ concat pna → h' !! p = h !! p).
Proof.
  intros [Hshape Hinj Hvalid Hfresh].
  rewrite setNeighbors_positions.
  assert (∀ i, pna !! i = pna !! (0 + i)) as Hsuf by done.
  pose proof (positions_nodes pna pna 0 Hsuf) as Hnodes.
  assert (∀ x, x ∈ positions_from 0 pna →
            cell pna x.1.1 x.2 = Some (nodeAt pna x) ∧ x.1.2 = ringSize x.1.1) as Hpos.
  { intros x Hx. destruct (positions_elem pna pna 0 x Hsuf Hx) as (row & Hrow & Hcc & Hc).
    unfold nodeAt, cell. rewrite Hrow. simpl.
    destruct (lookup_lt_is_Some_2 row x.2 Hc) as [q ->]. simpl.
    split; [done |]. rewrite Hcc. by apply (Hshape x.1.1). }
  destruct (forM_updates_from (positions_from 0 pna) (nodeAt pna)
              (λ x, with_adjacentList (hexPointers pna x.1.1 x.2))
              (setNeighborsAt pna) h) with h
    as (h' & Hrun & Hlen & Hupd & Hframe); try done.
  - intros x h1 n Hx Hn0 Hn1. destruct (Hpos x Hx) as [Hcell Hcc].
    unfold setNeighborsAt. rewrite Hcc.
    apply setNeighborsCell_spec; try done. by apply (Hfresh (nodeAt pna x)).
  - by rewrite Hnodes.
  - intros x Hx. apply Hvalid. rewrite <- Hnodes. by apply list_elem_of_fmap_2.
  - exists h'. split_and!; try done.
    + intros l c cur n Hcell Hn.
      unfold cell in Hcell. destruct (pna !! l) as [row|] eqn:Hrow; [| done].
      simpl in Hcell.
      pose proof (positions_complete pna 0 l row c Hrow (lookup_lt_Some _ _ _ Hcell)) as Hin.
      simpl in Hin. specialize (Hupd _ n Hin).
      unfold nodeAt, cell in Hupd. simpl in Hupd. rewrite Hrow in Hupd. simpl in Hupd.
      rewrite Hcell in Hupd. simpl in Hupd. by apply Hupd.
    + intros p Hp. apply Hframe. by rewrite Hnodes.
Qed.

Lemma elem_of_concat {A : Type} (x : A) (ls : list (list A)) :
  x ∈ concat ls ↔ ∃ i row, ls !! i = Some row ∧ x ∈ row.
Proof.
  induction ls as [|row ls IH]; simpl.
  - split; [by intros ?%elem_of_nil | by intros (i & r & ? & _)].
  - rewrite elem_of_app, IH. split.
    + intros [Hx | (i & r & Hi & Hx)]; [by exists 0, row | by exists (S i), r].
    + intros ([|i] & r & Hi & Hx); simpl in Hi.
      * injection Hi as ->. by left.
      * right. by exists i, r.
Qed.

Lemma NoDup_concat_row {A : Type} (x : A) (ls : list (list A)) i j r1 r2 :
  NoDup (concat ls) → ls !! i = Some r1 → ls !! j = Some r2 →
  x ∈ r1 → x ∈ r2 → i = j.
Proof.
  revert i j. induction ls as [|row ls IH]; intros i j Hnd Hi Hj H1 H2; [done |].
  simpl in Hnd. apply NoDup_app in Hnd as (_ & Hdisj & Hnd).
  destruct i as [|i], j as [|j]; simpl in *; try done.
  - injection Hi as ->. exfalso. apply (Hdisj x H1).
    apply elem_of_concat. by exists j, r2.
  - injection Hj as ->. exfalso. apply (Hdisj x H2).
    apply elem_of_concat. by exists i, r1.
  - f_equal. by apply IH.
Qed.

Lemma cell_elem (pna : list (list ptr)) l c p :
  cell pna l c = Some p → p ∈ concat pna.
Proof.
  unfold cell. destruct (pna !! l) as [row|] eqn:Hrow; [| done]. simpl.
  intros Hc. apply elem_of_concat. exists l, row. split; [done |].
  by eapply list_elem_of_lookup_2.
Qed.

Lemma elem_cell (pna : list (list ptr)) p :
  p ∈ concat pna → ∃ l c, cell pna l c = Some p.
Proof.
  intros (l & row & Hrow & Hp)%elem_of_concat.
  apply list_elem_of_lookup_1 in Hp as [c Hc].
  exists l, c. unfold cell. by rewrite Hrow.
Qed.

Lemma hexPointers_lookup (pna : list (list ptr)) l c k :
  hexPointers pna l c !!! k
  = (pos ← hexSlots (length pna) l c !!! k; cell pna pos.1 pos.2).
Proof. unfold hexPointers. by rewrite vlookup_map. Qed.

(** After [setNeighbors] on a honeycomb the slots of every node are those of
    the table, and the nodes outside the position array have none. *)
Lemma setNeighbors_lists (pna : list (list ptr)) (h h' : heap) a b :
  honeycomb pna h → setNeighbors pna h = Ok h' →
  lists h' a b ↔
  ∃ l c k l' c', cell pna l c = Some a ∧ hexSlots (length pna) l c !!! k = Some (l', c')
                 ∧ cell pna l' c' = Some b.
Proof.
  intros Hhc Hrun.
  destruct (setNeighbors_spec pna h Hhc) as (h'' & Hrun' & Hlen & Hupd & Hframe).
  rewrite Hrun in Hrun'. injection Hrun' as <-.
  destruct Hhc as [Hshape Hinj Hvalid Hfresh]. split.
  - intros (na & k & Ha & Hk).
    destruct (decide (a ∈ concat pna)) as [Hin | Hnin].
    + destruct (elem_cell pna a Hin) as (l & c & Hcell).
      destruct (lookup_lt_is_Some_2 h a (Hvalid a Hin)) as [n0 Hn0].
      rewrite (Hupd l c a n0 Hcell Hn0) in Ha. injection Ha as <-.
      simpl in Hk. rewrite hexPointers_lookup in Hk.
      destruct (hexSlots (length pna) l c !!! k) as [[l' c']|] eqn:Hslot; [| done].
      simpl in Hk. by exists l, c, k, l', c'.
    + rewrite (Hframe a Hnin) in Ha.
      rewrite (Hfresh a na Ha), vlookup_replicate in Hk. done.
  - intros (l & c & k & l' & c' & Hcell & Hslot & Hcell').
    pose proof (cell_elem pna l c a Hcell) as Hin.
    destruct (lookup_lt_is_Some_2 h a (Hvalid a Hin)) as [n0 Hn0].
    exists (with_adjacentList (hexPointers pna l c) n0), k.
    split; [by apply (Hupd l c) |].
    simpl. rewrite hexPointers_lookup, Hslot. done.
Qed.

Lemma neighbors_symmetric (pna : list (list ptr)) (h h' : heap) :
  honeycomb pna h → setNeighbors pna h = Ok h' → symmetric h'.
Proof.
  intros Hhc Hrun a b Hab.
  apply (setNeighbors_lists pna h h' a b Hhc Hrun) in Hab
    as (l & c & k & l' & c' & Hcell & Hslot & Hcell').
  apply (setNeighbors_lists pna h h' b a Hhc Hrun).
  destruct (cell_range pna (hc_shape _ _ Hhc) l c a Hcell) as [HlR Hc].
  destruct (hexSlots_back (length pna) l c k l' c' HlR Hc Hslot) as (_ & _ & k' & Hback).
  by exists l', c', k', l, c.
Qed.

(** ** Corners and inward slots *)

Lemma honeycombb_sound (pna : list (list ptr)) (h : heap) :
  honeycombb pna h = true → honeycomb pna h.
Proof.
  unfold honeycombb. rewrite !andb_true_iff, !forallb_forall.
  intros [[[Hshape Hinj] Hvalid] Hfresh]. split.
  - intros l row Hrow. specialize (Hshape l). rewrite Hrow in Hshape.
    apply Nat.eqb_eq, Hshape, list_elem_of_In, elem_of_seq.
    split; [lia |]. simpl. by eapply lookup_lt_Some.
  - by apply bool_decide_eq_true in Hinj.
  - intros p Hp. by apply Nat.ltb_lt, Hvalid, list_elem_of_In.
  - intros p n Hp.
    assert (In n h) as Hin by (apply list_elem_of_In; by eapply list_elem_of_lookup_2).
    by apply Hfresh, bool_decide_eq_true in Hin.
Qed.

Lemma isCorner_spec r p : isCorner r p = true ↔ r = 0 ∨ p mod r = 0.
Proof.
  unfold isCorner. destruct (Nat.eqb_spec r 0) as [-> | Hr].
  - split; [by left | done].
  - rewrite Nat.eqb_eq. split; [by right | by intros [? | ?]].
Qed.

Lemma inwardb_cell (pna : list (list ptr)) r l c q :
  NoDup (concat pna) → cell pna l c = Some q →
  inwardb pna r (Some q) = bool_decide (l = r - 1).
Proof.
  intros Hnd Hcell. unfold inwardb, cell in *.
  destruct (pna !! l) as [row|] eqn:Hrow; [| done]. simpl in Hcell.
  apply list_elem_of_lookup_2 in Hcell.
  destruct (decide (l = r - 1)) as [-> | Hne].
  - rewrite Hrow. simpl. rewrite !bool_decide_eq_true_2; done.
  - rewrite (bool_decide_eq_false_2 (l = r - 1)) by done.
    apply bool_decide_eq_false_2. intros Hin.
    destruct (pna !! (r - 1)) as [row'|] eqn:Hrow'; simpl in Hin.
    + apply Hne. by eapply (NoDup_concat_row q pna l (r - 1)).
    + by apply elem_of_nil in Hin.
Qed.

Lemma hexSlots_in_range (pna : list (list ptr)) l c k l' c' :
  (∀ l row, pna !! l = Some row → length row = ringSize l) →
  l < length pna → c < ringSize l →
  hexSlots (length pna) l c !!! k = Some (l', c') →
  is_Some (cell pna l' c').
Proof.
  intros Hshape Hl Hc Hslot.
  destruct (hexSlots_back _ _ _ _ _ _ Hl Hc Hslot) as (Hl' & Hc' & _).
  by apply cell_in_range.
Qed.

Lemma inwardCount_ring (pna : list (list ptr)) r p n :
  (∀ l row, pna !! l = Some row → length row = ringSize l) →
  NoDup (concat pna) →
  0 < r → r < length pna → p < ringSize r →
  inwardCount pna r (with_adjacentList (hexPointers pna r p) n)
  = if isCorner r p then 1 else 2.
Proof.
  intros Hshape Hnd Hr HrR Hp.
  assert (∀ k, match hexSlots (length pna) r p !!! k with
               | Some (l', c') =>
                   ∃ q, cell pna l' c' = Some q
                        ∧ inwardb pna r (Some q) = bool_decide (l' = r - 1)
               | None => True
               end) as Hall.
  { intros k. destruct (hexSlots (length pna) r p !!! k) as [[l' c']|] eqn:Hk; [| done].
    destruct (hexSlots_in_range pna r p k l' c' Hshape HrR Hp Hk) as [q Hq].
    exists q. split; [done |]. by eapply inwardb_cell. }
  pose proof (Hall slot0) as H0. pose proof (Hall slot1) as H1.
  pose proof (Hall slot2) as H2. pose proof (Hall slot3) as H3.
  pose proof (Hall slot4) as H4. pose proof (Hall slot5) as H5. clear Hall.
  unfold inwardCount, with_adjacentList, hexPointers. cbn [adjacentList].
  revert H0 H1 H2 H3 H4 H5. unfold hexSlots.
  destruct (Nat.eqb_spec r 0) as [|_]; [lia |].
  destruct (r <? length pna - 1), (isCorner r p); cbn [negb];
    cbn [lookup_total vector_lookup_total vec_S_inv slot0 slot1 slot2 slot3 slot4 slot5];
    cbn [Vector.map vec_to_list mbind option_bind fst snd];
    repeat (let q := fresh "q" in let E := fresh "E" in intros (q & -> & E) || intros _).
  all: repeat match goal with
       | E : context [bool_decide (?a = ?b)] |- _ =>
           first [ rewrite (bool_decide_eq_true_2 (a = b)) in E by lia
                 | rewrite (bool_decide_eq_false_2 (a = b)) in E by lia ]
       end.
  all: cbn [List.filter]; change (inwardb pna r None) with false;
    repeat match goal with E : inwardb _ _ _ = _ |- _ => rewrite E; clear E end;
    reflexivity.
Qed.


(* ------------------------------------------------------------------ *)
(** * Properties of the grid construction *)

(** ** Bucket indices *)

Lemma char_to_int_range (a : ascii) : (-128 ≤ char_to_int a ≤ 127)%Z.
Proof.
  unfold char_to_int. pose proof (nat_ascii_bounded a).
  destruct (Z.ltb_spec (Z.of_nat (nat_of_ascii a)) 128); lia.
Qed.

Lemma char_to_int_inj (a b : ascii) : char_to_int a = char_to_int b → a = b.
Proof.
  unfold char_to_int. pose proof (nat_ascii_bounded a). pose proof (nat_ascii_bounded b).
  intros Heq. rewrite <- (ascii_nat_embedding a), <- (ascii_nat_embedding b). f_equal.
  destruct (Z.ltb_spec (Z.of_nat (nat_of_ascii a)) 128),
    (Z.ltb_spec (Z.of_nat (nat_of_ascii b)) 128); lia.
Qed.

Lemma getBucket_small (a : ascii) :
  getBucket a = if (65 <=? char_to_int a)%Z then (char_to_int a - 65)%Z
                else (char_to_int a - 65 + 2 ^ 64)%Z.
Proof.
  unfold getBucket. pose proof (char_to_int_range a).
  change (2 ^ 64)%Z with 18446744073709551616%Z.
  destruct (Z.leb_spec 65 (char_to_int a)).
  - apply Z.mod_small. lia.
  - rewrite <- (Z_mod_plus_full _ 1). apply Z.mod_small. lia.
Qed.

Lemma getBucket_inj (a b : ascii) : getBucket a = getBucket b → a = b.
Proof.
  rewrite !getBucket_small. intros Heq. apply char_to_int_inj.
  pose proof (char_to_int_range a). pose proof (char_to_int_range b).
  change (2 ^ 64)%Z with 18446744073709551616%Z in Heq.
  destruct (Z.leb_spec 65 (char_to_int a)), (Z.leb_spec 65 (char_to_int b)); lia.
Qed.

Lemma getBucket_range (a : ascii) :
  in_bucket_range (getBucket a) ↔ is_upper a = true.
Proof.
  unfold in_bucket_range, is_upper. rewrite getBucket_small.
  unfold char_to_int. pose proof (nat_ascii_bounded a).
  change (2 ^ 64)%Z with 18446744073709551616%Z.
  rewrite andb_true_iff, Nat.leb_le, Nat.leb_le.
  destruct (Z.ltb_spec (Z.of_nat (nat_of_ascii a)) 128);
    match goal with |- context [(65 <=? ?x)%Z] => destruct (Z.leb_spec 65 x) end; lia.
Qed.

Lemma at_index_in_range {A : Type} (v : list A) (i : Z) :
  length v = 26 → in_bucket_range i →
  ∃ x, at_index v i = Ok x ∧ v !! Z.to_nat i = Some x.
Proof.
  intros Hlen [H0 H26]. unfold at_index.
  destruct (Z.leb_spec 0 i); [| lia].
  destruct (Z.ltb_spec i (Z.of_nat (length v))); [| lia]. simpl.
  destruct (lookup_lt_is_Some_2 v (Z.to_nat i)) as [x Hx]; [lia |].
  exists x. by rewrite Hx.
Qed.

Lemma at_index_out_of_range {A : Type} (v : list A) (i : Z) :
  length v = 26 → ¬ in_bucket_range i → at_index v i = Fault OutOfRange.
Proof.
  intros Hlen Hout. unfold at_index, in_bucket_range in *.
  destruct (Z.leb_spec 0 i); [| done].
  destruct (Z.ltb_spec i (Z.of_nat (length v))); [lia | done].
Qed.

(** ** Linked lists in the heap *)

Lemma is_chain_extend (h : heap) o ps n : is_chain h o ps → is_chain (h ++ [n]) o ps.
Proof.
  revert o. induction ps as [|q ps IH]; intros o Hch; [done |].
  destruct Hch as (-> & m & Hm & Hch). split; [done |].
  exists m. split; [by apply lookup_app_l_Some | by apply IH].
Qed.

Lemma is_chain_frame (h : heap) o ps l x :
  is_chain h o ps → l ∉ ps → is_chain (<[l := x]> h) o ps.
Proof.
  revert o. induction ps as [|q ps IH]; intros o Hch Hl; [done |].
  destruct Hch as (-> & m & Hm & Hch). apply not_elem_of_cons in Hl as [Hne Hl].
  split; [done |]. exists m. split; [by rewrite list_lookup_insert_ne | by apply IH].
Qed.

Lemma is_chain_nil (h : heap) ps : is_chain h None ps → ps = [].
Proof. destruct ps as [|q ps]; [done | by intros [? _]]. Qed.

Lemma is_chain_last (h : heap) ps : ∀ p fuel,
  is_chain h (Some p) ps → length ps ≤ fuel →
  ∃ l nl, last ps = Some l ∧ getLastNode_loop fuel h p = Ok l
          ∧ h !! l = Some nl ∧ nextPtr nl = None.
Proof.
  induction ps as [|q ps IH]; intros p fuel Hch Hfuel; [done |].
  destruct Hch as ([= <-] & n & Hn & Hch).
  destruct fuel as [|fuel]; [simpl in Hfuel; lia |].
  simpl getLastNode_loop. rewrite (deref_Some _ _ _ Hn), bind_Ok.
  destruct ps as [|q' ps].
  - simpl in Hch. rewrite Hch. by exists p, n.
  - pose proof Hch as Hch'. destruct Hch' as (Hnext & _). rewrite Hnext.
    rewrite Hnext in Hch.
    destruct (IH q' fuel Hch) as (l & nl & Hlast & Hrun & Hl & Hnl);
      [simpl in *; lia |].
    exists l, nl. by rewrite last_cons_cons.
Qed.

Lemma is_chain_snoc (h : heap) ps : ∀ o l nl new nn,
  is_chain h o ps → NoDup ps → last ps = Some l → h !! l = Some nl →
  new ∉ ps → h !! new = Some nn → nextPtr nn = None →
  is_chain (<[l := set_nextPtr (Some new) nl]> h) o (ps ++ [new]).
Proof.
  induction ps as [|q ps IH]; intros o l nl new nn Hch Hnd Hlast Hl Hnew Hnn Hend;
    [done |].
  destruct Hch as (-> & n & Hn & Hch).
  apply NoDup_cons in Hnd as [Hq Hnd]. apply not_elem_of_cons in Hnew as [Hne Hnew].
  split; [done |]. destruct ps as [|q' ps].
  - injection Hlast as <-. rewrite Hn in Hl. injection Hl as <-.
    exists (set_nextPtr (Some new) n). split.
    + apply list_lookup_insert_eq. by eapply lookup_lt_Some.
    + simpl. split; [done |]. exists nn. split; [| done].
      by rewrite list_lookup_insert_ne.
  - rewrite last_cons_cons in Hlast.
    assert (l ≠ q) as Hlq.
    { intros ->. apply Hq. by apply last_Some_elem_of. }
    exists n. split; [by rewrite list_lookup_insert_ne |].
    by apply (IH (nextPtr n) l nl new nn).
Qed.

(** ** Buckets *)

Lemma filter_ext_elem {A : Type} (P1 P2 : A → Prop)
    `{!∀ x, Decision (P1 x), !∀ x, Decision (P2 x)} (l : list A) :
  (∀ x, x ∈ l → P1 x ↔ P2 x) → filter P1 l = filter P2 l.
Proof.
  induction l as [|a l IH]; intros Hiff; [done |].
  assert (filter P1 l = filter P2 l) as Hl.
  { apply IH. intros x Hx. apply Hiff. by apply list_elem_of_further. }
  destruct (decide (P1 a)) as [Ha | Ha].
  - rewrite !filter_cons_True; [by rewrite Hl | | done].
    by apply (Hiff a (list_elem_of_here _ _)).
  - rewrite !filter_cons_False; [done | | done].
    intros Ha'. by apply Ha, (Hiff a (list_elem_of_here _ _)).
Qed.

Lemma bucketOf_app_l (h : heap) n p : p < length h → bucketOf (h ++ [n]) p = bucketOf h p.
Proof. intros Hp. unfold bucketOf. by rewrite lookup_app_l. Qed.

Lemma bucketOf_app_new (h : heap) n : bucketOf (h ++ [n]) (length h) = getBucket (value n).
Proof.
  unfold bucketOf. rewrite lookup_app_r by lia. by rewrite Nat.sub_diag.
Qed.

Lemma bucketNodes_app (h : heap) n b :
  bucketNodes (h ++ [n]) b
  = bucketNodes h b ++ (if decide (getBucket (value n) = Z.of_nat b) then [length h] else []).
Proof.
  unfold bucketNodes. rewrite length_app. simpl length.
  rewrite Nat.add_1_r, seq_S, filter_app. simpl. f_equal.
  - apply filter_ext_elem. intros p Hp. apply elem_of_seq in Hp.
    rewrite bucketOf_app_l by lia. done.
  - rewrite filter_cons, filter_nil, bucketOf_app_new. by repeat case_decide.
Qed.

Lemma bucketOf_set_nextPtr (h : heap) l nl q p :
  h !! l = Some nl → bucketOf (<[l := set_nextPtr q nl]> h) p = bucketOf h p.
Proof.
  intros Hl. unfold bucketOf. destruct (decide (p = l)) as [-> | Hne].
  - rewrite list_lookup_insert_eq by (by eapply lookup_lt_Some). by rewrite Hl.
  - by rewrite list_lookup_insert_ne.
Qed.

Lemma bucketNodes_set_nextPtr (h : heap) l nl q b :
  h !! l = Some nl → bucketNodes (<[l := set_nextPtr q nl]> h) b = bucketNodes h b.
Proof.
  intros Hl. unfold bucketNodes. rewrite length_insert.
  apply list_filter_iff. intros p. by rewrite (bucketOf_set_nextPtr h l nl q p Hl).
Qed.

Lemma bucketNodes_elem (h : heap) b p :
  p ∈ bucketNodes h b ↔ p < length h ∧ bucketOf h p = Z.of_nat b.
Proof.
  unfold bucketNodes. rewrite list_elem_of_filter, elem_of_seq.
  split; [intros [? ?]; split; [lia | done] | intros [? ?]; split; [done | lia]].
Qed.

Lemma bucketNodes_NoDup (h : heap) b : NoDup (bucketNodes h b).
Proof. apply NoDup_filter, NoDup_seq. Qed.

Lemma bucketNodes_length (h : heap) b : length (bucketNodes h b) ≤ length h.
Proof.
  unfold bucketNodes. etrans; [apply length_filter |]. by rewrite length_seq.
Qed.

(** ** One character of [populateLinkedNodeArray] *)

Lemma concat_alter_last {A : Type} (ls : list (list A)) l x :
  S l = length ls → concat (alter (λ row, row ++ [x]) l ls) = concat ls ++ [x].
Proof.
  intros Hl. destruct (decide (ls = [])) as [-> | Hne]; [done |].
  destruct (exists_last Hne) as (rows & row & ->).
  rewrite length_app in Hl. simpl in Hl.
  replace l with (length rows + 0) by lia.
  rewrite alter_app_r. simpl. rewrite !concat_app. simpl.
  by rewrite !app_nil_r, app_assoc.
Qed.

Lemma populateChar_not_upper l c v (g : grid) :
  length (linkedNodeArray g) = 26 → is_upper v = false →
  populateChar l c v g = Fault OutOfRange.
Proof.
  intros Hlen Hv. unfold populateChar.
  rewrite at_index_out_of_range; [done | done |].
  rewrite getBucket_range. by rewrite Hv.
Qed.

Lemma populateChar_upper l c v (g : grid) :
  populated g → S l = length (positionNodeArray g) → is_upper v = true →
  ∃ g', populateChar l c v g = Ok g' ∧ populated g'
        ∧ length (nodes g') = S (length (nodes g))
        ∧ positionNodeArray g'
          = alter (λ row, row ++ [length (nodes g)]) l (positionNodeArray g).
Proof.
  intros [Hlen Hchains Hupper Hfresh Hpos] Hl Hv. unfold populateChar.
  apply getBucket_range in Hv as Hrange.
  destruct (at_index_in_range (linkedNodeArray g) (getBucket v) Hlen Hrange)
    as (first & -> & Hfirst).
  rewrite bind_Ok.
  set (b := Z.to_nat (getBucket v)) in *.
  assert (b < 26) as Hb by (unfold in_bucket_range in Hrange; lia).
  assert (getBucket v = Z.of_nat b) as Hvb by (unfold in_bucket_range in Hrange; lia).
  set (new := length (nodes g)).
  set (node0 := set_charN c (set_layerN l (set_value v newNode))).
  set (h1 := nodes g ++ [node0]).
  assert (h1 !! new = Some node0) as Hnew.
  { subst h1 new. rewrite lookup_app_r by lia. by rewrite Nat.sub_diag. }
  assert (∀ b', bucketNodes h1 b'
                = bucketNodes (nodes g) b' ++ (if decide (b' = b) then [new] else [])) as Hbn.
  { intros b'. subst h1. rewrite bucketNodes_app. f_equal. simpl.
    repeat case_decide; try done; lia. }
  pose proof (Hchains b Hb) as Hchain. rewrite Hfirst in Hchain. simpl in Hchain.
  destruct first as [head |].
  - (* the bucket has a list already *)
    assert (is_chain h1 (Some head) (bucketNodes (nodes g) b)) as Hchain1
      by (by apply is_chain_extend).
    destruct (is_chain_last h1 _ head (length h1) Hchain1) as (l0 & nl & Hlast & Hrun & Hl0 & Hnl).
    { subst h1. rewrite length_app. simpl. pose proof (bucketNodes_length (nodes g) b). lia. }
    unfold getLastNode. rewrite Hrun, bind_Ok, (store_Some _ _ _ _ Hl0), bind_Ok.
    assert (l0 ∈ bucketNodes (nodes g) b) as Hl0in by (by apply last_Some_elem_of).
    apply bucketNodes_elem in Hl0in as Hl0b.
    eexists. split; [done |]. split; [| split].
    + split; simpl.
      * done.
      * intros b' Hb'. rewrite bucketNodes_set_nextPtr, Hbn by done.
        destruct (decide (b' = b)) as [-> | Hne].
        -- rewrite Hfirst. simpl.
           apply (is_chain_snoc h1 _ _ l0 nl new node0); try done.
           ++ apply bucketNodes_NoDup.
           ++ intros Hin. apply bucketNodes_elem in Hin. subst new. lia.
        -- rewrite app_nil_r. apply is_chain_frame.
           ++ apply is_chain_extend. by apply Hchains.
           ++ intros Hin. apply bucketNodes_elem in Hin. lia.
      * intros p n Hp. destruct (decide (p = l0)) as [-> | Hne].
        -- rewrite list_lookup_insert_eq in Hp by (by eapply lookup_lt_Some).
           injection Hp as <-. simpl.
           destruct (decide (l0 = new)) as [-> | Hne'].
           ++ rewrite Hnew in Hl0. by injection Hl0 as <-.
           ++ subst h1. rewrite lookup_app_l in Hl0 by lia. by eapply Hupper.
        -- rewrite list_lookup_insert_ne in Hp by done.
           subst h1. apply lookup_app_Some in Hp as [Hp | [_ Hp]]; [by eapply Hupper |].
           apply list_lookup_singleton_Some in Hp as [_ <-]. done.
      * intros p n Hp. destruct (decide (p = l0)) as [-> | Hne].
        -- rewrite list_lookup_insert_eq in Hp by (by eapply lookup_lt_Some).
           injection Hp as <-. simpl.
           destruct (decide (l0 = new)) as [-> | Hne'].
           ++ rewrite Hnew in Hl0. by injection Hl0 as <-.
           ++ subst h1. rewrite lookup_app_l in Hl0 by lia. by eapply Hfresh.
        -- rewrite list_lookup_insert_ne in Hp by done.
           subst h1. apply lookup_app_Some in Hp as [Hp | [_ Hp]]; [by eapply Hfresh |].
           apply list_lookup_singleton_Some in Hp as [_ <-]. done.
      * rewrite length_insert. subst h1. rewrite length_app. simpl.
        rewrite Nat.add_1_r, seq_S, concat_alter_last, Hpos by done. done.
    + simpl. rewrite length_insert. subst h1. rewrite length_app. simpl. lia.
    + done.
  - (* the first node of this bucket *)
    apply is_chain_nil in Hchain.
    eexists. split; [done |]. split; [| split].
    + split; simpl.
      * by rewrite length_insert.
      * intros b' Hb'. rewrite Hbn.
        destruct (decide (b' = b)) as [-> | Hne].
        -- rewrite list_lookup_insert_eq by lia. rewrite Hchain. simpl.
           split; [done |]. exists node0. done.
        -- rewrite list_lookup_insert_ne by done. rewrite app_nil_r.
           apply is_chain_extend. by apply Hchains.
      * intros p n Hp. subst h1.
        apply lookup_app_Some in Hp as [Hp | [_ Hp]]; [by eapply Hupper |].
        apply list_lookup_singleton_Some in Hp as [_ <-]. done.
      * intros p n Hp. subst h1.
        apply lookup_app_Some in Hp as [Hp | [_ Hp]]; [by eapply Hfresh |].
        apply list_lookup_singleton_Some in Hp as [_ <-]. done.
      * subst h1. rewrite length_app. simpl.
        rewrite Nat.add_1_r, seq_S, concat_alter_last, Hpos by done. done.
    + simpl. subst h1. rewrite length_app. simpl. lia.
    + done.
Qed.

(** ** The loops of [populateLinkedNodeArray] *)

Lemma populateLayer_spec layer : ∀ l c (g : grid),
  populated g → S l = length (positionNodeArray g) →
  match populateLayer l c layer g with
  | Ok g' =>
      string_forallb is_upper layer = true ∧ populated g'
      ∧ length (nodes g') = length (nodes g) + String.length layer
      ∧ positionNodeArray g'
        = alter (λ row, row ++ seq (length (nodes g)) (String.length layer)) l
            (positionNodeArray g)
  | Fault f => string_forallb is_upper layer = false ∧ f = OutOfRange
  end.
Proof.
  induction layer as [|v rest IH]; intros l c g Hpop Hl; simpl.
  - split_and!; try done.
    symmetry. apply list_alter_id. intros row. by rewrite app_nil_r.
  - destruct (is_upper v) eqn:Hv.
    + destruct (populateChar_upper l c v g Hpop Hl Hv) as (g1 & -> & Hpop1 & Hlen1 & Hpna1).
      rewrite bind_Ok. specialize (IH l (S c) g1 Hpop1).
      rewrite Hpna1, length_alter in IH. specialize (IH Hl).
      destruct (populateLayer l (S c) rest g1) as [g'|f].
      * destruct IH as (Hrest & Hpop' & Hlen' & Hpna').
        split_and!; try done; [lia |].
        rewrite Hpna', Hlen1, list_alter_alter_eq.
        apply list_alter_ext; [| done]. intros row _. simpl.
        by rewrite <- app_assoc.
      * done.
    + rewrite populateChar_not_upper; [done | apply (pop_lna_length _ Hpop) | done].
Qed.

Lemma populateLayers_spec layers : ∀ l (g : grid),
  populated g → l = length (positionNodeArray g) →
  match populateLayers l layers g with
  | Ok g' =>
      all_upper layers = true ∧ populated g'
      ∧ positionNodeArray g'
        = positionNodeArray g ++ layout (length (nodes g)) (String.length <$> layers)
  | Fault f => all_upper layers = false ∧ f = OutOfRange
  end.
Proof.
  induction layers as [|layer rest IH]; intros l g Hpop Hl; simpl.
  - split_and!; try done. by rewrite app_nil_r.
  - set (g0 := mkGrid (nodes g) (linkedNodeArray g) (positionNodeArray g ++ [[]])).
    assert (populated g0) as Hpop0.
    { destruct Hpop as [H1 H2 H3 H4 H5]. split; try done. simpl.
      by rewrite concat_app, app_nil_r. }
    pose proof (populateLayer_spec layer l 0 g0 Hpop0) as Hlayer.
    destruct (populateLayer l 0 layer g0) as [g1|f].
    + destruct Hlayer as (Hup & Hpop1 & Hlen1 & Hpna1).
      { subst g0. simpl. rewrite length_app. simpl. lia. }
      rewrite bind_Ok. rewrite Hup. simpl.
      assert (positionNodeArray g1
              = positionNodeArray g ++ [seq (length (nodes g)) (String.length layer)])
        as Hpna1'.
      { rewrite Hpna1. subst g0. simpl. subst l.
        replace (length (positionNodeArray g)) with (length (positionNodeArray g) + 0) by lia.
        by rewrite alter_app_r. }
      specialize (IH (S l) g1 Hpop1).
      destruct (populateLayers (S l) rest g1) as [g'|f].
      * destruct IH as (Hrest & Hpop' & Hpna').
        { rewrite Hpna1', length_app. simpl. lia. }
        split_and!; try done.
        rewrite Hpna', Hpna1', Hlen1, <- app_assoc. done.
      * apply IH. rewrite Hpna1', length_app. simpl. lia.
    + destruct Hlayer as [Hup ->].
      { subst g0. simpl. rewrite length_app. simpl. lia. }
      by rewrite Hup.
Qed.

Lemma populated_emptyGrid : populated emptyGrid.
Proof.
  split; try done.
  intros b Hb. unfold emptyGrid. cbn [linkedNodeArray nodes].
  rewrite lookup_replicate_2 by done. done.
Qed.

(** What [populateLinkedNodeArray] does, from the empty grid of [main]. *)
Lemma populate_spec layers :
  match populateLinkedNodeArray layers emptyGrid with
  | Ok g =>
      all_upper layers = true ∧ populated g
      ∧ positionNodeArray g = layout 0 (String.length <$> layers)
  | Fault f => all_upper layers = false ∧ f = OutOfRange
  end.
Proof.
  apply (populateLayers_spec layers 0 emptyGrid populated_emptyGrid eq_refl).
Qed.

(* ------------------------------------------------------------------ *)
(** * Properties of the grid that [main] builds *)

(** ** [setNeighbors] on any position array *)

Lemma linking_refl (pna : list (list ptr)) (h : heap) : linking pna h h.
Proof.
  split; [split; [done |] | by left]. intros p n Hp. by exists n.
Qed.

Lemma setAdjacent_inv cur k q (h h' : heap) :
  setAdjacent cur k q h = Ok h' →
  ∃ n, h !! cur = Some n ∧ h' = <[cur := set_adjacent k (Some q) n]> h.
Proof.
  unfold setAdjacent, store, deref. destruct (h !! cur) as [n|]; [| done].
  simpl. intros [= <-]. by exists n.
Qed.

Lemma at2_elem (pna : list (list ptr)) i j q : at2 pna i j = Ok q → q ∈ concat pna.
Proof. intros H. eapply cell_elem. by apply at2_inv. Qed.

Lemma linking_step (pna : list (list ptr)) (h0 h1 h2 : heap) cur k q :
  linking pna h0 h1 → q ∈ concat pna → setAdjacent cur k q h1 = Ok h2 →
  linking pna h0 h2.
Proof.
  intros [[Hlen Hsame] Hslots] Hq (n & Hn & ->)%setAdjacent_inv.
  split; [split |].
  - by rewrite length_insert.
  - intros p m Hp. destruct (Hsame p m Hp) as (m' & Hm' & Hfields).
    destruct (decide (p = cur)) as [-> | Hne].
    + rewrite Hn in Hm'. injection Hm' as <-.
      exists (set_adjacent k (Some q) n). split; [| done].
      apply list_lookup_insert_eq. by eapply lookup_lt_Some.
    + exists m'. split; [| done]. by rewrite list_lookup_insert_ne.
  - intros a b (na & k' & Ha & Hk').
    destruct (decide (a = cur)) as [-> | Hne].
    + rewrite list_lookup_insert_eq in Ha by (by eapply lookup_lt_Some).
      injection Ha as <-. simpl in Hk'.
      destruct (decide (k' = k)) as [-> | Hk].
      * rewrite vlookup_insert in Hk'. injection Hk' as <-. by right.
      * rewrite vlookup_insert_ne in Hk' by done. apply Hslots. by exists n, k'.
    + rewrite list_lookup_insert_ne in Ha by done. apply Hslots. by exists na, k'.
Qed.

Lemma bind_Ok_inv {A B : Type} (r : result A) (k : A → result B) b :
  (r ≫= k) = Ok b → ∃ a, r = Ok a ∧ k a = Ok b.
Proof. destruct r as [a|]; [| done]. intros H. by exists a. Qed.

Ltac linking_run :=
  repeat match goal with
  | H : Ok _ = Ok _ |- _ => injection H as <-
  | H : (_ ≫= _) = Ok _ |- _ =>
      let x := fresh "x" in let Hx := fresh "Hx" in
      apply bind_Ok_inv in H as (x & Hx & H)
  | H : (if ?b then _ else _) = Ok _ |- _ => destruct b
  | H : at2 _ _ _ = Ok _ |- _ => apply at2_elem in H
  | H : setAdjacent ?cur ?k ?q ?h = Ok _, HL : linking _ _ ?h |- _ =>
      apply (linking_step _ _ _ _ _ _ _ HL) in H; [clear HL | assumption]
  end.

Lemma setNeighborsCell_linking (pna : list (list ptr)) (h0 h1 h2 : heap) R l cc c :
  linking pna h0 h1 → setNeighborsCell pna R l cc c h1 = Ok h2 → linking pna h0 h2.
Proof.
  intros HL Hrun. unfold setNeighborsCell in Hrun.
  unfold slots in Hrun. cbn [forM] in Hrun.
  linking_run; assumption.
Qed.

Lemma setNeighbors_linking (pna : list (list ptr)) (h h' : heap) :
  setNeighbors pna h = Ok h' → linking pna h h'.
Proof.
  unfold setNeighbors. apply forM_invariant; [| apply linking_refl].
  intros l h1 h2 _ HL. unfold setNeighborsLayer.
  intros (row & _ & Hrun)%bind_Ok_inv. revert Hrun.
  apply forM_invariant; [| done].
  intros c h3 h4 _. apply setNeighborsCell_linking.
Qed.

(** The heap after [setNeighbors]: closed, and the same apart from the
    neighbour slots. *)
Lemma setNeighbors_closed_any (pna : list (list ptr)) (h h' : heap) :
  setNeighbors pna h = Ok h' → closed h → (∀ p, p ∈ concat pna → p < length h) →
  closed h'.
Proof.
  intros [[Hlen _] Hslots]%setNeighbors_linking Hclosed Hvalid a b Hab.
  rewrite Hlen. destruct (Hslots a b Hab) as [Hold | Hin]; [by eapply Hclosed | by apply Hvalid].
Qed.

Lemma same_but_slots_lookup (h h' : heap) p n' :
  same_but_slots h h' → h' !! p = Some n' →
  ∃ n, h !! p = Some n ∧ value n' = value n ∧ nextPtr n' = nextPtr n
       ∧ visited n' = visited n.
Proof.
  intros [Hlen Hsame] Hp.
  destruct (lookup_lt_is_Some_2 h p) as [n Hn].
  { rewrite <- Hlen. by eapply lookup_lt_Some. }
  destruct (Hsame p n Hn) as (m & Hm & Hv & _ & _ & Hnx & Hvis).
  rewrite Hp in Hm. injection Hm as <-. by exists n.
Qed.

Lemma is_chain_same_but_slots (h h' : heap) ps : ∀ o,
  same_but_slots h h' → is_chain h o ps → is_chain h' o ps.
Proof.
  induction ps as [|p ps IH]; intros o Hsame Hch; [done |].
  destruct Hch as (-> & n & Hn & Hch). split; [done |].
  destruct (proj2 Hsame p n Hn) as (n' & Hn' & _ & _ & _ & Hnx & _).
  exists n'. split; [done |]. rewrite Hnx. by apply IH.
Qed.

Lemma bucketNodes_same_but_slots (h h' : heap) b :
  same_but_slots h h' → bucketNodes h' b = bucketNodes h b.
Proof.
  intros Hsame. unfold bucketNodes. rewrite (proj1 Hsame).
  apply filter_ext_elem. intros p Hp. apply elem_of_seq in Hp.
  destruct (lookup_lt_is_Some_2 h p) as [n Hn]; [lia |].
  destruct (proj2 Hsame p n Hn) as (n' & Hn' & Hv & _).
  unfold bucketOf. by rewrite Hn, Hn', Hv.
Qed.

(** ** The centre cell on any position array *)

Lemma frame_step cur k q (h1 h2 : heap) p v :
  h1 !! p = v → p ≠ cur → setAdjacent cur k q h1 = Ok h2 → h2 !! p = v.
Proof.
  intros <- Hne (n & Hn & ->)%setAdjacent_inv. by apply list_lookup_insert_ne.
Qed.

Ltac frame_run Hne :=
  repeat match goal with
  | H : Ok _ = Ok _ |- _ => injection H as <-
  | H : (_ ≫= _) = Ok _ |- _ =>
      let x := fresh "x" in let Hx := fresh "Hx" in
      apply bind_Ok_inv in H as (x & Hx & H)
  | H : (if ?b then _ else _) = Ok _ |- _ => destruct b
  | H : at2 _ _ _ = Ok _ |- _ => clear H
  | H : setAdjacent _ _ _ ?h = Ok _, HI : ?h !! _ = _ |- _ =>
      apply (frame_step _ _ _ _ _ _ _ HI Hne) in H; clear HI
  end.

(** The body of the loops for one cell leaves the other nodes alone. *)
Lemma setNeighborsCell_frame (pna : list (list ptr)) (h1 h2 : heap) R l cc c cur p :
  cell pna l c = Some cur → p ≠ cur →
  setNeighborsCell pna R l cc c h1 = Ok h2 → h2 !! p = h1 !! p.
Proof.
  intros Hcur Hne Hrun. unfold setNeighborsCell in Hrun.
  rewrite (at2_cell _ _ _ _ Hcur), bind_Ok in Hrun.
  unfold slots in Hrun. cbn [forM] in Hrun.
  assert (h1 !! p = h1 !! p) as HI by done. revert HI Hrun.
  generalize (h1 !! p) at 2 3. intros v HI Hrun.
  frame_run Hne; assumption.
Qed.

Lemma setAdjacent_run cur k q (h1 h2 : heap) m :
  h1 !! cur = Some m → setAdjacent cur k q h1 = Ok h2 →
  h2 !! cur = Some (set_adjacent k (Some q) m).
Proof.
  intros Hm Hrun. rewrite (setAdjacent_Some _ _ _ _ _ Hm) in Hrun.
  injection Hrun as <-. apply list_lookup_insert_eq. by eapply lookup_lt_Some.
Qed.

(** The body of the loops for a cell of layer 0. *)
Lemma setNeighborsCell_centre_any (pna : list (list ptr)) (h1 h2 : heap) R cc c cur n :
  cell pna 0 c = Some cur → h1 !! cur = Some n →
  setNeighborsCell pna R 0 cc c h1 = Ok h2 →
  ∃ n', h2 !! cur = Some n'
    ∧ (1 < R → ∀ k : fin SIDES, ∃ q, cell pna 1 (fin_to_nat k) = Some q
                                      ∧ adjacentList n' !!! k = Some q)
    ∧ (R ≤ 1 → n' = n).
Proof.
  intros Hcur Hn Hrun. unfold setNeighborsCell in Hrun.
  rewrite (at2_cell _ _ _ _ Hcur), bind_Ok in Hrun.
  change (0 <? 0) with false in Hrun. cbv iota in Hrun.
  destruct (Nat.ltb_spec 1 R) as [HR | HR].
  - unfold slots in Hrun.
    cbn [forM fin_to_nat slot0 slot1 slot2 slot3 slot4 slot5] in Hrun.
    repeat match goal with
    | H : (_ ≫= _) = Ok _ |- _ =>
        let x := fresh "x" in let Hx := fresh "Hx" in
        apply bind_Ok_inv in H as (x & Hx & H)
    | H : at2 _ _ _ = Ok _ |- _ => apply at2_inv in H
    end.
    injection Hrun as <-.
    repeat match goal with
    | H : setAdjacent ?cur _ _ ?h = Ok _, Hh : ?h !! ?cur = Some _ |- _ =>
        apply (setAdjacent_run _ _ _ _ _ _ Hh) in H; clear Hh
    end.
    eexists. split; [eassumption |]. split; [| lia].
    intros _ k. unfold set_adjacent. cbn [adjacentList].
    repeat (inv_fin k;
            [eexists; split; [eassumption |];
             repeat first [ rewrite vlookup_insert
                          | rewrite vlookup_insert_ne by (intros ?; discriminate) ];
             reflexivity
            | intros k]).
    inv_fin k.
  - injection Hrun as <-. exists n. split_and!; [done | lia | done].
Qed.

(** The slots of the centre after [setNeighbors] on any position array
    that holds each node once. *)
Lemma setNeighbors_centre (pna : list (list ptr)) (h h' : heap) centre n :
  setNeighbors pna h = Ok h' → NoDup (concat pna) →
  cell pna 0 0 = Some centre → h !! centre = Some n →
  ∃ n', h' !! centre = Some n'
    ∧ (1 < length pna →
       ∀ k : fin SIDES, ∃ q, cell pna 1 (fin_to_nat k) = Some q
                              ∧ adjacentList n' !!! k = Some q)
    ∧ (length pna ≤ 1 → n' = n).
Proof.
  rewrite setNeighbors_positions. intros Hrun Hnd Hcell Hn.
  assert (∀ i, pna !! i = pna !! (0 + i)) as Hsuf by done.
  pose proof (positions_nodes pna pna 0 Hsuf) as Hnodes.
  pose proof (positions_elem pna pna 0) as Helem.
  destruct pna as [|[|c0 row0] rest]; try done.
  injection Hcell as ->.
  remember (positions_from 0 ((centre :: row0) :: rest)) as xs eqn:Hxs.
  simpl in Hxs. subst xs.
  set (x := (0, S (length row0), 0)) in *.
  match type of Hrun with forM (_ :: ?t) _ _ = _ => set (tail := t) in * end.
  simpl forM in Hrun. apply bind_Ok_inv in Hrun as (h1 & Hfirst & Hrest).
  unfold setNeighborsAt in Hfirst. subst x. cbn [fst snd] in Hfirst.
  destruct (setNeighborsCell_centre_any ((centre :: row0) :: rest) h h1
              (length ((centre :: row0) :: rest)) (S (length row0)) 0 centre n
              eq_refl Hn Hfirst) as (n' & Hn' & Hslots).
  exists n'. split; [| done].
  rewrite <- Hnodes in Hnd. rewrite fmap_cons in Hnd.
  apply NoDup_cons in Hnd as [Hfresh _].
  revert Hrest. apply (forM_invariant (λ s : heap, s !! centre = Some n')); [| done].
  intros y hA hB Hy HI Hbody. rewrite <- HI.
  destruct (Helem y Hsuf (list_elem_of_further _ _ _ Hy)) as (row & Hrow & Hcc & Hc).
  destruct (lookup_lt_is_Some_2 row y.2 Hc) as [q Hq].
  assert (cell ((centre :: row0) :: rest) y.1.1 y.2 = Some q) as Hcy.
  { unfold cell. rewrite Hrow. done. }
  eapply (setNeighborsCell_frame _ hA hB _ _ _ _ q); [exact Hcy | | exact Hbody].
  intros ->. apply Hfresh. apply list_elem_of_fmap. exists y. split; [| done].
  unfold nodeAt. by rewrite Hcy.
Qed.

(** ** The grid that [main] builds *)

Lemma buildGrid_inv layers (g : grid) :
  buildGrid layers = Ok g →
  ∃ g0, populateLinkedNodeArray layers emptyGrid = Ok g0
        ∧ setNeighbors (positionNodeArray g0) (nodes g0) = Ok (nodes g)
        ∧ linkedNodeArray g = linkedNodeArray g0
        ∧ positionNodeArray g = positionNodeArray g0.
Proof.
  unfold buildGrid. intros (g0 & Hpop & (h & Hset & [= <-])%bind_Ok_inv)%bind_Ok_inv.
  by exists g0.
Qed.

Lemma buildGrid_searchable layers (g : grid) :
  buildGrid layers = Ok g → searchable g.
Proof.
  intros (g0 & Hpop & Hset & Hlna & Hpna)%buildGrid_inv.
  pose proof (populate_spec layers) as Hspec. rewrite Hpop in Hspec.
  destruct Hspec as (_ & [Hlen Hchains Hupper Hfresh Hpos] & _).
  pose proof (setNeighbors_linking _ _ _ Hset) as [Hsame Hslots].
  split.
  - eapply setNeighbors_closed_any; [done | |].
    + intros a b (na & k & Ha & Hk).
      rewrite (proj1 (Hfresh a na Ha)), vlookup_replicate in Hk. done.
    + intros p Hp. rewrite Hpos in Hp. apply elem_of_seq in Hp. lia.
  - intros p n' Hp.
    destruct (same_but_slots_lookup _ _ _ _ Hsame Hp) as (n & Hn & _ & _ & ->).
    by apply (Hfresh p n).
  - by rewrite Hlna.
  - intros b Hb. rewrite Hlna, (bucketNodes_same_but_slots _ _ b Hsame).
    apply (is_chain_same_but_slots (nodes g0)); [done | by apply Hchains].
  - intros p n' Hp.
    destruct (same_but_slots_lookup _ _ _ _ Hsame Hp) as (n & Hn & -> & _).
    by apply (Hupper p n).
Qed.

(** ** The loop over the start cells *)

Lemma searchStarts_spec (h : heap) word ps : ∀ o fuel,
  is_chain h o ps → length ps ≤ fuel →
  (∀ s, s ∈ ps → ∃ b, search h word s = Ok (b, h)) →
  ∃ b, searchStarts fuel h word o = Ok (b, h)
       ∧ (b = true ↔ ∃ s, s ∈ ps ∧ search h word s = Ok (true, h)).
Proof.
  induction ps as [|p ps IH]; intros o fuel Hch Hfuel Hall.
  - simpl in Hch. subst o. exists false. split; [by destruct fuel |].
    split; [done |]. intros (s & Hs & _). by apply elem_of_nil in Hs.
  - destruct Hch as (-> & n & Hn & Hch).
    destruct fuel as [|fuel]; [simpl in Hfuel; lia |].
    destruct (Hall p (list_elem_of_here _ _)) as ([|] & Hp).
    + exists true. simpl. rewrite Hp, bind_Ok. split; [done |].
      split; [| done]. intros _. exists p. split; [apply list_elem_of_here | done].
    + destruct (IH (nextPtr n) fuel Hch) as (b & Hrun & Hb).
      { simpl in Hfuel. lia. }
      { intros s Hs. apply Hall. by apply list_elem_of_further. }
      exists b. simpl. rewrite Hp, bind_Ok, (deref_Some _ _ _ Hn), bind_Ok.
      split; [done |]. rewrite Hb. split.
      * intros (s & Hs & Hrun'). exists s. split; [by apply list_elem_of_further | done].
      * intros (s & Hs & Hrun'). apply elem_of_cons in Hs as [-> | Hs].
        -- rewrite Hp in Hrun'. discriminate.
        -- by exists s.
Qed.

(** The search from a start cell that carries the first letter of a word
    that is not empty. *)
Lemma search_spec (h : heap) (first : ascii) (rest : string) (start : ptr)
    (n : linkedPolygonNode) :
  closed h → all_unvisited h → h !! start = Some n → value n = first →
  ∃ found, search h (String first rest) start = Ok (found, h)
           ∧ (found = true ↔ ∃ p, simple_path h start (String first rest) p).
Proof.
  intros Hclosed Hall Hstart Hval. unfold search. simpl substr1. rewrite bind_Ok.
  destruct (searchNodes_spec rest h start n Hclosed Hstart (Hall _ _ Hstart))
    as (b & -> & Hb).
  exists b. split; [done |].
  by rewrite <- (continuation_simple_path h start n first rest Hall Hstart Hval).
Qed.

Lemma is_upper_front_nonempty word :
  is_upper (string_front word) = true → word ≠ EmptyString.
Proof. by destruct word. Qed.

(** The start cells that [main] tries for a word are the nodes that carry
    its first letter. *)
Lemma start_cells (g : grid) (word : string) :
  searchable g → is_upper (string_front word) = true →
  let b := Z.to_nat (getBucket (string_front word)) in
  at_index (linkedNodeArray g) (getBucket (string_front word))
    = Ok (default None (linkedNodeArray g !! b))
  ∧ is_chain (nodes g) (default None (linkedNodeArray g !! b)) (bucketNodes (nodes g) b)
  ∧ ∀ s, s ∈ bucketNodes (nodes g) b ↔
         ∃ n, nodes g !! s = Some n ∧ value n = string_front word.
Proof.
  intros [Hclosed Hall Hlen Hchains Hupper] Hup b.
  apply getBucket_range in Hup as Hrange.
  assert (b < 26) as Hb by (unfold in_bucket_range in Hrange; lia).
  assert (getBucket (string_front word) = Z.of_nat b) as Hbz
    by (unfold in_bucket_range in Hrange; lia).
  destruct (at_index_in_range _ _ Hlen Hrange) as (first & Hat & Hfirst).
  fold b in Hfirst. rewrite Hfirst. simpl. split_and!; [done | |].
  - specialize (Hchains b Hb). by rewrite Hfirst in Hchains.
  - intros s. rewrite bucketNodes_elem. unfold bucketOf. split.
    + intros [Hs Hbucket]. destruct (nodes g !! s) as [n|] eqn:Hn; [| lia].
      exists n. split; [done |]. apply getBucket_inj. by rewrite Hbz.
    + intros (n & Hn & Hv). split; [by eapply lookup_lt_Some |].
      by rewrite Hn, Hv.
Qed.

(** The search for one word of the dictionary. *)
Lemma searchWord_spec (g : grid) (word : string) :
  searchable g →
  if is_upper (string_front word)
  then ∃ b, searchWord (linkedNodeArray g) (nodes g) word = Ok (b, nodes g)
            ∧ (b = true ↔ ∃ start p, simple_path (nodes g) start word p)
  else searchWord (linkedNodeArray g) (nodes g) word = Fault OutOfRange.
Proof.
  intros Hsr. destruct (is_upper (string_front word)) eqn:Hup.
  - destruct (start_cells g word Hsr Hup) as (Hat & Hchain & Hstarts).
    pose proof Hsr as [Hclosed Hall Hlen Hchains Hupper].
    unfold searchWord. rewrite Hat, bind_Ok.
    destruct word as [|a rest]; [done |]. simpl string_front in *.
    destruct (searchStarts_spec (nodes g) (String a rest) _ _ (length (nodes g)) Hchain)
      as (b & Hrun & Hb).
    { apply bucketNodes_length. }
    { intros s (n & Hn & Hv)%Hstarts.
      destruct (search_spec (nodes g) a rest s n) as (found & Hfound & _); try done.
      by exists found. }
    exists b. split; [done |]. rewrite Hb. split.
    + intros (s & (n & Hn & Hv)%Hstarts & Hrun').
      destruct (search_spec (nodes g) a rest s n) as (found & Hfound & Hiff); try done.
      exists s. apply Hiff. congruence.
    + intros (s & p & Hp). exists s.
      assert (∃ n, nodes g !! s = Some n ∧ value n = a) as (n & Hn & Hv).
      { destruct Hp as (Hhd & _ & _ & Hsp). destruct p as [|s' p]; [done |].
        injection Hhd as ->.
        apply list.Forall2_cons in Hsp as [(n & Hn & Hv) _]. by exists n. }
      split; [apply Hstarts; by exists n |].
      destruct (search_spec (nodes g) a rest s n) as (found & Hfound & Hiff); try done.
      rewrite Hfound. do 2 f_equal. apply Hiff. by exists p.
  - unfold searchWord. rewrite at_index_out_of_range; [done | apply (sr_lna_length _ Hsr) |].
    rewrite getBucket_range. by rewrite Hup.
Qed.

Lemma foundb_spec (g : grid) (word : string) :
  searchable g → is_upper (string_front word) = true →
  searchWord (linkedNodeArray g) (nodes g) word = Ok (foundb g word, nodes g)
  ∧ (foundb g word = true ↔ ∃ start p, simple_path (nodes g) start word p).
Proof.
  intros Hsr Hup. pose proof (searchWord_spec g word Hsr) as Hspec.
  rewrite Hup in Hspec. destruct Hspec as (b & Hrun & Hb).
  unfold foundb. by rewrite Hrun.
Qed.

Lemma searchDictionary_spec (g : grid) dictionary : ∀ found,
  searchable g →
  Forall (λ w, is_upper (string_front w) = true) dictionary →
  searchDictionary (linkedNodeArray g) (nodes g) dictionary found
  = Ok (found ++ List.filter (foundb g) dictionary, nodes g).
Proof.
  induction dictionary as [|word rest IH]; intros found Hsr Hall; simpl.
  - by rewrite app_nil_r.
  - apply list.Forall_cons in Hall as [Hup Hall].
    destruct (foundb_spec g word Hsr Hup) as [-> _]. rewrite bind_Ok.
    rewrite IH by done. destruct (foundb g word); [| done].
    by rewrite <- app_assoc.
Qed.

(** The output of [main] on a dictionary of words that begin with an
    uppercase letter. *)
Lemma main_spec layers dictionary (g : grid) :
  buildGrid layers = Ok g →
  Forall (λ w, is_upper (string_front w) = true) dictionary →
  main layers dictionary = Ok (sort (List.filter (foundb g) dictionary)).
Proof.
  intros Hbuild Hall. unfold main. rewrite Hbuild, bind_Ok.
  rewrite (searchDictionary_spec g dictionary [] (buildGrid_searchable _ _ Hbuild) Hall).
  done.
Qed.

(** ** The grid of a honeycomb *)

Lemma layout_lookup lens : ∀ start l row,
  layout start lens !! l = Some row → ∃ n s, lens !! l = Some n ∧ row = seq s n.
Proof.
  induction lens as [|n lens IH]; intros start l row Hl; [done |].
  destruct l as [|l]; simpl in Hl.
  - injection Hl as <-. by exists n, start.
  - by apply (IH (start + n)).
Qed.

Lemma populate_honeycomb layers (g : grid) :
  populateLinkedNodeArray layers emptyGrid = Ok g → hexagonal layers →
  honeycomb (positionNodeArray g) (nodes g).
Proof.
  intros Hpop Hhex. pose proof (populate_spec layers) as Hspec.
  rewrite Hpop in Hspec. destruct Hspec as (_ & [Hlen Hchains Hupper Hfresh Hpos] & Hpna).
  split.
  - intros l row Hrow. rewrite Hpna in Hrow.
    apply layout_lookup in Hrow as (n & s & Hn & ->).
    rewrite list_lookup_fmap in Hn.
    destruct (layers !! l) as [layer|] eqn:Hlayer; [| done].
    injection Hn as <-. rewrite length_seq. by apply Hhex.
  - rewrite Hpos. apply NoDup_seq.
  - intros p Hp. rewrite Hpos in Hp. apply elem_of_seq in Hp. lia.
  - intros p n Hp. by apply (Hfresh p n).
Qed.

Lemma populate_upper layers :
  all_upper layers = true → ∃ g, populateLinkedNodeArray layers emptyGrid = Ok g.
Proof.
  intros Hup. pose proof (populate_spec layers) as Hspec.
  destruct (populateLinkedNodeArray layers emptyGrid) as [g|f]; [by exists g |].
  destruct Hspec as [Hno _]. congruence.
Qed.

(** On the layers of a honeycomb of uppercase letters [main] builds its
    grid, and the neighbour relation of the grid is symmetric. *)
Lemma buildGrid_honeycomb layers :
  hexagonal layers → all_upper layers = true →
  ∃ g, buildGrid layers = Ok g ∧ symmetric (nodes g) ∧ searchable g.
Proof.
  intros Hhex Hup. destruct (populate_upper layers Hup) as [g0 Hpop].
  pose proof (populate_honeycomb layers g0 Hpop Hhex) as Hhc.
  destruct (setNeighbors_spec _ _ Hhc) as (h' & Hset & _).
  exists (mkGrid h' (linkedNodeArray g0) (positionNodeArray g0)).
  assert (buildGrid layers = Ok (mkGrid h' (linkedNodeArray g0) (positionNodeArray g0)))
    as Hbuild.
  { unfold buildGrid. by rewrite Hpop, bind_Ok, Hset. }
  split_and!; [done | by eapply neighbors_symmetric | by eapply buildGrid_searchable].
Qed.

(** ** No cell is its own neighbour *)

Lemma NoDup_concat_elem {A : Type} (ls : list (list A)) i row :
  NoDup (concat ls) → ls !! i = Some row → NoDup row.
Proof.
  revert i. induction ls as [|r ls IH]; intros i Hnd Hi; [done |].
  simpl in Hnd. apply NoDup_app in Hnd as (Hr & _ & Hls).
  destruct i as [|i]; simpl in Hi; [by injection Hi as <- | by eapply IH].
Qed.

Lemma cell_inj (pna : list (list ptr)) l c l' c' a :
  NoDup (concat pna) → cell pna l c = Some a → cell pna l' c' = Some a →
  l = l' ∧ c = c'.
Proof.
  intros Hnd. unfold cell.
  destruct (pna !! l) as [row|] eqn:Hrow; [| done].
  destruct (pna !! l') as [row'|] eqn:Hrow'; [| done]. simpl.
  intros Hc Hc'.
  assert (l = l') as <-.
  { eapply (NoDup_concat_row a pna l l'); try done;
      by eapply list_elem_of_lookup_2. }
  rewrite Hrow in Hrow'. injection Hrow' as <-. split; [done |].
  eapply NoDup_lookup; [by eapply NoDup_concat_elem | done | done].
Qed.

Lemma irreflexive_step (pna : list (list ptr)) (h1 h2 : heap) l c cur i j q k :
  NoDup (concat pna) → cell pna l c = Some cur → cell pna i j = Some q →
  (i = l → j = c → False) →
  irreflexive h1 → setAdjacent cur k q h1 = Ok h2 → irreflexive h2.
Proof.
  intros Hnd Hcur Hq Hne Hirr (n & Hn & ->)%setAdjacent_inv a (na & k' & Ha & Hk').
  destruct (decide (a = cur)) as [-> | Hac].
  - rewrite list_lookup_insert_eq in Ha by (by eapply lookup_lt_Some).
    injection Ha as <-. simpl in Hk'.
    destruct (decide (k' = k)) as [-> | Hk].
    + rewrite vlookup_insert in Hk'. injection Hk' as ->.
      destruct (cell_inj pna i j l c cur Hnd Hq Hcur) as [-> ->]. by apply Hne.
    + rewrite vlookup_insert_ne in Hk' by done. apply (Hirr cur). by exists n, k'.
  - rewrite list_lookup_insert_ne in Ha by done. apply (Hirr a). by exists na, k'.
Qed.

Ltac irreflexive_run Hnd Hcur :=
  repeat match goal with
  | H : Ok _ = Ok _ |- _ => injection H as <-
  | H : (_ ≫= _) = Ok _ |- _ =>
      let x := fresh "x" in let Hx := fresh "Hx" in
      apply bind_Ok_inv in H as (x & Hx & H)
  | H : (if negb ?b then _ else _) = Ok _ |- _ => destruct b eqn:?; cbn [negb] in H
  | H : (if ?a <? ?b then _ else _) = Ok _ |- _ => destruct (Nat.ltb_spec a b)
  | H : (if ?b then _ else _) = Ok _ |- _ => destruct b eqn:?
  | H : at2 _ _ _ = Ok _ |- _ => apply at2_inv in H
  | H : setAdjacent ?cur ?k ?q ?h = Ok _, HI : irreflexive ?h, Hq : cell _ _ _ = Some ?q |- _ =>
      apply (irreflexive_step _ _ _ _ _ _ _ _ _ _ Hnd Hcur Hq) in H;
      [clear HI | intros; lia | exact HI]
  end.

Lemma setNeighborsCell_irreflexive (pna : list (list ptr)) (h1 h2 : heap) R l cc c :
  NoDup (concat pna) → c < cc → (0 < l → cc ≠ 1) →
  irreflexive h1 → setNeighborsCell pna R l cc c h1 = Ok h2 → irreflexive h2.
Proof.
  intros Hnd Hc Hcc HI Hrun. unfold setNeighborsCell in Hrun.
  apply bind_Ok_inv in Hrun as (cur & Hcur%at2_inv & Hrun).
  unfold slots in Hrun. cbn [forM] in Hrun.
  cbn [fin_to_nat slot0 slot1 slot2 slot3 slot4 slot5] in Hrun.
  destruct (Nat.ltb_spec 0 l).
  - specialize (Hcc ltac:(done)). irreflexive_run Hnd Hcur; assumption.
  - irreflexive_run Hnd Hcur; assumption.
Qed.

Lemma forM_Ok_elem {A S : Type} (xs : list A) (body : A → S → result S) x : ∀ s s',
  forM xs body s = Ok s' → x ∈ xs → ∃ s1 s2, body x s1 = Ok s2.
Proof.
  induction xs as [|y xs IH]; intros s s' Hrun Hx; [by apply elem_of_nil in Hx |].
  simpl in Hrun. apply bind_Ok_inv in Hrun as (s1 & Hy & Hrun).
  apply elem_of_cons in Hx as [-> | Hx]; [by exists s, s1 | by eapply IH].
Qed.

Lemma isCorner_first l : isCorner l 0 = true.
Proof.
  unfold isCorner. destruct (Nat.eqb_spec l 0); [done |].
  by rewrite Nat.Div0.mod_0_l.
Qed.

Lemma cell_single (pna : list (list ptr)) l x l' j q :
  pna !! l = Some [x] → cell pna l' j = Some q → l' = l → j = 0.
Proof.
  intros Hrow Hcell ->. unfold cell in Hcell. rewrite Hrow in Hcell.
  simpl in Hcell. by destruct j.
Qed.

Lemma cell_empty (pna : list (list ptr)) l l' j q :
  pna !! l = Some [] → cell pna l' j = Some q → l' = l → False.
Proof.
  intros Hrow Hcell ->. unfold cell in Hcell. by rewrite Hrow in Hcell.
Qed.

Ltac cell_run :=
  repeat match goal with
  | H : Ok _ = Ok _ |- _ => clear H
  | H : (_ ≫= _) = Ok _ |- _ =>
      let x := fresh "x" in let Hx := fresh "Hx" in
      apply bind_Ok_inv in H as (x & Hx & H)
  | H : (if negb ?b then _ else _) = Ok _ |- _ => destruct b eqn:?; cbn [negb] in H
  | H : (if ?a <? ?b then _ else _) = Ok _ |- _ => destruct (Nat.ltb_spec a b)
  | H : (if ?b then _ else _) = Ok _ |- _ => destruct b eqn:?
  | H : at2 _ _ _ = Ok _ |- _ => apply at2_inv in H
  end.

(** A run of [setNeighbors] that ends well has met no layer of one cell
    beyond the centre. *)
Lemma setNeighbors_no_single_cell (pna : list (list ptr)) (h h' : heap) l x :
  setNeighbors pna h = Ok h' → 0 < l → pna !! l = Some [x] → False.
Proof.
  rewrite setNeighbors_positions. intros Hrun Hl Hrow.
  assert (l < length pna) as HlR by (by eapply lookup_lt_Some).
  destruct (lookup_lt_is_Some_2 pna (l - 1)) as [row' Hrow']; [lia |].
  destruct row' as [|y row'].
  - (* the layer below is empty: the cell itself reads it *)
    pose proof (positions_complete pna 0 l [x] 0 Hrow ltac:(simpl; lia)) as Hin.
    destruct (forM_Ok_elem _ _ _ _ _ Hrun Hin) as (s1 & s2 & Hcell).
    unfold setNeighborsAt, setNeighborsCell in Hcell. simpl in Hcell.
    cell_run; try lia.
    all: match goal with
         | H : cell _ ?i ?j = Some _ |- _ =>
             apply (cell_empty _ _ i j _ Hrow' H); lia
         end.
  - (* the first cell of the layer below reads past the single cell *)
    pose proof (positions_complete pna 0 (l - 1) (y :: row') 0 Hrow' ltac:(simpl; lia))
      as Hin.
    destruct (forM_Ok_elem _ _ _ _ _ Hrun Hin) as (s1 & s2 & Hcell).
    unfold setNeighborsAt, setNeighborsCell in Hcell.
    cbn [fst snd Nat.add] in Hcell. rewrite isCorner_first in Hcell.
    unfold slots in Hcell. cbn [forM fin_to_nat slot0 slot1 slot2 slot3 slot4 slot5 negb] in Hcell.
    cell_run; try lia.
    all: match goal with
         | H : cell _ ?i ?j = Some _ |- _ =>
             assert (i = l) as Hi by lia;
             pose proof (cell_single _ l x i j _ Hrow H Hi); simpl in *; lia
         end.
Qed.

Lemma setNeighbors_irreflexive_any (pna : list (list ptr)) (h h' : heap) :
  setNeighbors pna h = Ok h' → NoDup (concat pna) → irreflexive h → irreflexive h'.
Proof.
  intros Hrun Hnd Hirr. pose proof Hrun as Hflat.
  rewrite setNeighbors_positions in Hflat. revert Hflat.
  apply forM_invariant; [| done].
  intros x h1 h2 Hx HI Hcell.
  destruct (positions_elem pna pna 0 x) as (row & Hrow & Hcc & Hc); [done | done |].
  unfold setNeighborsAt in Hcell. rewrite Hcc in Hcell.
  eapply setNeighborsCell_irreflexive; [exact Hnd | exact Hc | | exact HI | exact Hcell].
  intros Hl Hone. destruct row as [|y [|z row]]; try done.
  by eapply (setNeighbors_no_single_cell pna h h' x.1.1 y).
Qed.

(** In the grid that [main] builds no cell is its own neighbour. *)
Lemma buildGrid_irreflexive layers (g : grid) :
  buildGrid layers = Ok g → irreflexive (nodes g).
Proof.
  intros (g0 & Hpop & Hset & _ & _)%buildGrid_inv.
  pose proof (populate_spec layers) as Hspec. rewrite Hpop in Hspec.
  destruct Hspec as (_ & [_ _ _ Hfresh Hpos] & _).
  eapply setNeighbors_irreflexive_any; [exact Hset | |].
  - rewrite Hpos. apply NoDup_seq.
  - intros a (na & k & Ha & Hk).
    rewrite (proj1 (Hfresh a na Ha)), vlookup_replicate in Hk. done.
Qed.

Lemma one_letter_path (h : heap) (a : ascii) :
  (∃ start p, simple_path h start (String a EmptyString) p)
  ↔ ∃ q n, h !! q = Some n ∧ value n = a.
Proof.
  split.
  - intros (start & p & Hhd & _ & _ & Hsp). destruct p as [|s p]; [done |].
    apply list.Forall2_cons in Hsp as [(n & Hn & Hv) _]. by exists s, n.
  - intros (q & n & Hn & Hv). exists q, [q]. split_and!; try done.
    + apply NoDup_singleton.
    + apply list.Forall2_cons. split; [by exists n | constructor].
Qed.

(** ** The sort of the words found *)

Lemma string_ltb_asym a : ∀ b, string_ltb a b = true → string_ltb b a = false.
Proof.
  induction a as [|x a IH]; intros [|y b]; simpl; try done.
  destruct (Nat.ltb_spec (nat_of_ascii x) (nat_of_ascii y)),
    (Nat.ltb_spec (nat_of_ascii y) (nat_of_ascii x)); try done; try lia.
  apply IH.
Qed.

Lemma sort_insert_perm w ws : sort_insert w ws ≡ₚ w :: ws.
Proof.
  induction ws as [|x ws IH]; simpl; [done |].
  destruct (string_ltb w x); [done |].
  rewrite IH. apply Permutation_swap.
Qed.

Lemma sort_insert_ascending w ws : ascending ws → ascending (sort_insert w ws).
Proof.
  induction ws as [|x ws IH]; intros Hasc; simpl; [done |].
  destruct (string_ltb w x) eqn:Hwx.
  - split; [by apply string_ltb_asym | done].
  - destruct ws as [|y ws]; simpl in *; [done |].
    destruct Hasc as [Hyx Hasc]. specialize (IH Hasc).
    destruct (string_ltb w y); [| done]. by split.
Qed.

(** [sort] returns the words it was given, in ascending order. *)
Lemma sort_spec ws : sort ws ≡ₚ ws ∧ ascending (sort ws).
Proof.
  induction ws as [|w ws [IHp IHa]]; [done |]. unfold sort. simpl. split.
  - rewrite sort_insert_perm. by f_equiv.
  - by apply sort_insert_ascending.
Qed.

(* ------------------------------------------------------------------ *)
(** * Main results *)


(** C1 as stated fails for a start cell that does not carry the first
    character of the word.  [searchNodes] is handed [word.substr(1)] and
    never reads the letter of the start cell: from the centre "A" of the
    honeycomb A / BCDEFG the search for "XB" answers true, and no path that
    starts at the centre spells "XB". *)
Lemma search_ignores_the_start_letter :
  search (nodes grid2) "XB" 0 = Ok (true, nodes grid2)
  ∧ ¬ ∃ p, simple_path (nodes grid2) 0 "XB" p.
Proof.
  split; [vm_compute; reflexivity |].
  intros (p & Hhd & _ & _ & Hsp). destruct p as [|s p]; [done |].
  injection Hhd as ->. apply list.Forall2_cons in Hsp as [(n & Hn & Hv) _].
  vm_compute in Hn. injection Hn as <-. discriminate.
Qed.

(** C1 (as amended).  For every word and every start cell that carries the
    first character of the word, the word search answers true exactly when
    a simple path spells the word.  [search h word start] is the call that
    [main] makes for a word and a start cell.  On a heap whose neighbour
    slots name nodes and where no on-path marker is set, the call returns
    true if and only if there is a sequence of pairwise distinct cells that
    begins at the start cell, in which every cell lists the next one in a
    neighbour slot, and whose letters are the characters of the word; for a
    word that is not empty the call returns a boolean. *)
Theorem search_iff_simple_path (h : heap) (word : string) (start : ptr)
    (n : linkedPolygonNode) :
  closed h → all_unvisited h → h !! start = Some n → value n = string_front word →
  (search h word start = Ok (true, h) ↔ ∃ p, simple_path h start word p)
  ∧ (word ≠ EmptyString → ∃ found, search h word start = Ok (found, h)).
Proof.
  intros Hclosed Hall Hstart Hval. destruct word as [|first rest].
  - split; [| done]. split; [done |].
    intros (p & Hp). by apply no_path_for_empty_word in Hp.
  - simpl in Hval. unfold search. simpl substr1. rewrite bind_Ok.
    destruct (searchNodes_spec rest h start n Hclosed Hstart (Hall _ _ Hstart))
      as (b & -> & Hb).
    rewrite <- (continuation_simple_path h start n first rest Hall Hstart Hval), <- Hb.
    split; [| by eauto]. split; [by intros [= ->] | by intros ->].
Qed.

Lemma search_iff_simple_path_witness :
  (search (nodes grid2) "BCD" 1 = Ok (true, nodes grid2)
   ↔ ∃ p, simple_path (nodes grid2) 1 "BCD" p)
  ∧ ("BCD"%string ≠ EmptyString → ∃ found, search (nodes grid2) "BCD" 1 = Ok (found, nodes grid2)).
Proof.
  eapply (search_iff_simple_path (nodes grid2) "BCD" 1).
  - apply closedb_sound. vm_compute. reflexivity.
  - apply all_unvisitedb_sound. vm_compute. reflexivity.
  - vm_compute. reflexivity.
  - vm_compute. reflexivity.
Defined.

(** C2 as stated fails on a grid that is not a honeycomb.  With seven cells
    in layer 1 the program builds the grid without any index out of range;
    the seventh cell (node 7) lists the centre (node 0) in its slot 0, and
    no slot of the centre points back to it. *)
Lemma setNeighbors_not_symmetric_on_long_ring :
  buildGrid ["A"; "BCDEFGH"]%string = Ok grid_long
  ∧ ¬ symmetric (nodes grid_long).
Proof.
  split; [vm_compute; reflexivity |].
  intros Hsym.
  assert (lists (nodes grid_long) 7 0) as H70.
  { eexists _, slot0. split; [vm_compute; reflexivity | reflexivity]. }
  apply Hsym in H70. destruct H70 as (na & k & Ha & Hk).
  vm_compute in Ha. injection Ha as <-.
  repeat (inv_fin k; [discriminate |]; intros k). inv_fin k.
Qed.

(** C2 (as amended).  On a honeycomb (layer 0 has one cell, layer [r > 0]
    has [6 r] cells, every position holds a node of its own, no slot is set
    yet) [setNeighbors] returns, and in the heap it returns the neighbour
    relation is symmetric: whenever a slot of a cell A points to a cell B,
    a slot of B points to A. *)
Theorem setNeighbors_symmetric_on_honeycomb (pna : list (list ptr)) (h : heap) :
  honeycomb pna h →
  ∃ h' : heap, setNeighbors pna h = Ok h' ∧ symmetric h'.
Proof.
  intros Hhc. destruct (setNeighbors_spec pna h Hhc) as (h' & Hrun & _).
  exists h'. split; [done |]. by eapply neighbors_symmetric.
Qed.

Lemma setNeighbors_symmetric_on_honeycomb_witness :
  ∃ h' : heap,
    setNeighbors (positionNodeArray grid2_unlinked) (nodes grid2_unlinked) = Ok h'
    ∧ symmetric h'.
Proof.
  apply (setNeighbors_symmetric_on_honeycomb
           (positionNodeArray grid2_unlinked) (nodes grid2_unlinked)).
  apply honeycombb_sound. vm_compute. reflexivity.
Defined.

(** C3.  A call of the word search leaves every on-path marker as it found
    it.  On a heap whose neighbour slots name nodes and where no marker is
    set, [searchNodes] on any word and any start cell ([NULL] or a node of
    the heap) returns with the heap it was given, whether it found the word
    or not: every [visited] flag has its value from before the call. *)
Theorem searchNodes_restores_markers (h : heap) (word : string) (current : option ptr) :
  closed h → all_unvisited h → (∀ c, current = Some c → c < length h) →
  ∃ found, searchNodes h word current = Ok (found, h).
Proof.
  intros Hclosed Hall Hvalid. destruct current as [cur|].
  - destruct (lookup_lt_is_Some_2 h cur (Hvalid cur eq_refl)) as [n Hn].
    destruct (searchNodes_spec word h cur n Hclosed Hn (Hall _ _ Hn)) as (b & Hb & _).
    by exists b.
  - exists false. by destruct word.
Qed.

Lemma searchNodes_restores_markers_witness :
  (∃ found, searchNodes (nodes grid2) "CD" (Some 1) = Ok (found, nodes grid2)).
Proof.
  apply (searchNodes_restores_markers (nodes grid2) "CD" (Some 1)).
  - apply closedb_sound. vm_compute. reflexivity.
  - apply all_unvisitedb_sound. vm_compute. reflexivity.
  - intros c [= <-]. vm_compute. lia.
Defined.

(** C4 as stated fails: the construction validates nothing.  It accepts
    the empty ring list and returns the empty grid, and [main] goes on to
    search the dictionary in it.  For the ring "a" it makes no check
    either: it computes the bucket index 32 and indexes the array of the 26
    buckets with it, an access outside the array and no error that a caller
    receives. *)
Lemma construction_validates_nothing :
  populateLinkedNodeArray [] emptyGrid = Ok emptyGrid
  ∧ buildGrid [] = Ok emptyGrid
  ∧ main [] ["AB"%string] = Ok []
  ∧ getBucket "a" = 32%Z
  ∧ populateLinkedNodeArray ["a"%string] emptyGrid = Fault OutOfRange.
Proof. split_and!; vm_compute; reflexivity. Qed.

Lemma no_word_in_the_empty_grid (word : string) :
  is_upper (string_front word) = true → foundb emptyGrid word = false.
Proof.
  intros Hup.
  assert (searchable emptyGrid) as Hsr by (by apply (buildGrid_searchable [])).
  destruct (foundb emptyGrid word) eqn:Hf; [|done].
  apply (foundb_spec emptyGrid word Hsr Hup) in Hf as (start & p & Hhd & _ & _ & Hsp).
  destruct p as [|s p]; [done |]. unfold spells in Hsp.
  destruct (list_ascii_of_string word) as [|a w]; [by apply Forall2_cons_nil_inv in Hsp |].
  by apply list.Forall2_cons in Hsp as [(n & Hn & _) _].
Qed.

(** C4 (as amended).  [populateLinkedNodeArray] checks nothing and reports
    no error.  The empty ring list is accepted: it gives the empty grid, and
    [main] searches the dictionary in it and finds no word (for a
    dictionary whose words all begin with an uppercase letter).  A ring
    list whose characters are all uppercase letters gives a grid.  What the
    construction does with another character is left open. *)
Theorem populate_without_validation :
  populateLinkedNodeArray [] emptyGrid = Ok emptyGrid
  ∧ (∀ dictionary, Forall (λ w, is_upper (string_front w) = true) dictionary →
       main [] dictionary = Ok [])
  ∧ (∀ layers, all_upper layers = true →
       ∃ g, populateLinkedNodeArray layers emptyGrid = Ok g).
Proof.
  split_and!; [reflexivity | | apply populate_upper].
  intros dictionary Hd.
  rewrite (main_spec [] dictionary emptyGrid eq_refl Hd).
  replace (List.filter (foundb emptyGrid) dictionary) with (@nil string); [done |].
  induction Hd as [|w ws Hw _ IH]; [done |].
  simpl. by rewrite (no_word_in_the_empty_grid w Hw).
Qed.

Lemma populate_without_validation_witness :
  main [] ["AB"; "XYZ"]%string = Ok []
  ∧ ∃ g, populateLinkedNodeArray ["A"; "BCDEFG"]%string emptyGrid = Ok g.
Proof.
  split.
  - apply (proj1 (proj2 populate_without_validation) ["AB"; "XYZ"]%string).
    repeat constructor.
  - apply (proj2 (proj2 populate_without_validation) ["A"; "BCDEFG"]%string).
    vm_compute. reflexivity.
Defined.

(** C5.  A cell is a corner if and only if its ring is 0 or its position
    is a multiple of the ring.  On a honeycomb, after [setNeighbors], the
    cell at ring [r > 0] and position [p] has in its slot 0 the node of ring
    [r - 1] at position [(r - 1) * (p / r) + p mod r], or at position 0 when
    [p] is the last position of ring [r]; and the number of its slots that
    point into ring [r - 1] is one for a corner and two for any other
    cell. *)
Theorem inward_neighbors :
  (∀ r p, isCorner r p = true ↔ r = 0 ∨ p mod r = 0)
  ∧ ∀ (pna : list (list ptr)) (h h' : heap) r p cur,
      honeycomb pna h → setNeighbors pna h = Ok h' →
      0 < r → cell pna r p = Some cur →
      ∃ n' q, h' !! cur = Some n'
        ∧ adjacentList n' !!! slot0 = Some q
        ∧ cell pna (r - 1) (if bool_decide (p = ringSize r - 1) then 0
                            else (r - 1) * (p / r) + p mod r) = Some q
        ∧ inwardCount pna r n' = (if isCorner r p then 1 else 2).
Proof.
  split; [apply isCorner_spec |].
  intros pna h h' r p cur Hhc Hrun Hr Hcell.
  destruct (setNeighbors_spec pna h Hhc) as (h'' & Hrun' & Hlen & Hupd & _).
  rewrite Hrun in Hrun'. injection Hrun' as <-.
  destruct (cell_range pna (hc_shape _ _ Hhc) r p cur Hcell) as [HrR Hp].
  destruct (lookup_lt_is_Some_2 h cur) as [n Hn].
  { apply (hc_valid _ _ Hhc). by eapply cell_elem. }
  pose proof (Hupd r p cur n Hcell Hn) as Hcur'.
  assert (hexSlots (length pna) r p !!! slot0
          = Some (r - 1, if bool_decide (p = ringSize r - 1) then 0
                         else (r - 1) * (p / r) + p mod r)) as Hslot.
  { unfold hexSlots. destruct (Nat.eqb_spec r 0) as [|_]; [lia |].
    cbn [lookup_total vector_lookup_total vec_S_inv slot0].
    rewrite ringSize_pos in * by lia. do 2 f_equal.
    destruct (Nat.ltb_spec p (6 * r - 1)).
    - by rewrite bool_decide_eq_false_2 by lia.
    - by rewrite bool_decide_eq_true_2 by lia. }
  destruct (hexSlots_in_range pna r p slot0 _ _ (hc_shape _ _ Hhc) HrR Hp Hslot) as [q Hq].
  exists (with_adjacentList (hexPointers pna r p) n), q. split_and!; try done.
  - cbn [adjacentList with_adjacentList]. rewrite hexPointers_lookup, Hslot. done.
  - apply inwardCount_ring; try done; [apply (hc_shape _ _ Hhc) | apply (hc_inj _ _ Hhc)].
Qed.

Lemma inward_neighbors_witness :
  ∃ n' q, nodes grid3 !! 8 = Some n'
    ∧ adjacentList n' !!! slot0 = Some q
    ∧ cell (positionNodeArray grid3_unlinked) (2 - 1)
        (if bool_decide (1 = ringSize 2 - 1) then 0
         else (2 - 1) * (1 / 2) + 1 mod 2) = Some q
    ∧ inwardCount (positionNodeArray grid3_unlinked) 2 n' = (if isCorner 2 1 then 1 else 2).
Proof.
  apply (proj2 inward_neighbors (positionNodeArray grid3_unlinked)
           (nodes grid3_unlinked) (nodes grid3) 2 1 8).
  - apply honeycombb_sound. vm_compute. reflexivity.
  - vm_compute. reflexivity.
  - lia.
  - vm_compute. reflexivity.
Defined.

(** C6.  After [setNeighbors] has run on a position array that holds each
    node once, the slots of the centre cell, which were empty before, are:
    with more than one layer, slot [k] holds the node at position [k] of
    layer 1, for each of the six slots; with exactly one layer, every slot
    is still empty.  (On a honeycomb [setNeighbors] does return, see
    [setNeighbors_spec].) *)
Theorem centre_neighbors (pna : list (list ptr)) (h h' : heap) centre n :
  setNeighbors pna h = Ok h' → NoDup (concat pna) →
  cell pna 0 0 = Some centre → h !! centre = Some n →
  adjacentList n = vreplicate SIDES None →
  ∃ n', h' !! centre = Some n'
    ∧ (1 < length pna →
       ∀ k : fin SIDES, ∃ q, cell pna 1 (fin_to_nat k) = Some q
                              ∧ adjacentList n' !!! k = Some q)
    ∧ (length pna = 1 → ∀ k : fin SIDES, adjacentList n' !!! k = None).
Proof.
  intros Hrun Hnd Hcell Hn Hfresh.
  destruct (setNeighbors_centre pna h h' centre n Hrun Hnd Hcell Hn)
    as (n' & Hn' & Hmany & Hone).
  exists n'. split_and!; [done | done |].
  intros HR k. rewrite Hone by lia. by rewrite Hfresh, vlookup_replicate.
Qed.

Lemma centre_neighbors_witness :
  ∃ n', nodes grid2 !! 0 = Some n'
    ∧ (1 < length (positionNodeArray grid2_unlinked) →
       ∀ k : fin SIDES, ∃ q, cell (positionNodeArray grid2_unlinked) 1 (fin_to_nat k) = Some q
                              ∧ adjacentList n' !!! k = Some q)
    ∧ (length (positionNodeArray grid2_unlinked) = 1 →
       ∀ k : fin SIDES, adjacentList n' !!! k = None).
Proof.
  eapply (centre_neighbors (positionNodeArray grid2_unlinked)
            (nodes grid2_unlinked) (nodes grid2) 0).
  - vm_compute. reflexivity.
  - apply (bool_decide_unpack _). vm_compute. exact I.
  - vm_compute. reflexivity.
  - vm_compute. reflexivity.
  - vm_compute. reflexivity.
Defined.

(** The centre alone keeps its six slots empty. *)
Example centre_alone :
  buildGrid ["A"%string] = Ok grid1
  ∧ (∀ n, nodes grid1 !! 0 = Some n → adjacentList n = vreplicate SIDES None).
Proof.
  split; [vm_compute; reflexivity |]. intros n. vm_compute. by intros [= <-].
Qed.

(** C7.  On the honeycomb with "A" in the centre and "BCDEFG" around it and
    the dictionary AB, AG, BC, XYZ, [main] prints AB, AG, BC, in this order,
    which is ascending; XYZ is not found, and no path of the grid spells
    it. *)
Theorem main_on_two_rings :
  main ["A"; "BCDEFG"]%string ["AB"; "AG"; "BC"; "XYZ"]%string
    = Ok ["AB"; "AG"; "BC"]%string
  ∧ ascending ["AB"; "AG"; "BC"]%string
  ∧ buildGrid ["A"; "BCDEFG"]%string = Ok grid2
  ∧ searchWord (linkedNodeArray grid2) (nodes grid2) "XYZ" = Ok (false, nodes grid2)
  ∧ ¬ ∃ start p, simple_path (nodes grid2) start "XYZ" p.
Proof.
  assert (buildGrid ["A"; "BCDEFG"]%string = Ok grid2) as Hbuild
    by (vm_compute; reflexivity).
  split_and!; [vm_compute; reflexivity | by repeat split | done
              | vm_compute; reflexivity |].
  destruct (foundb_spec grid2 "XYZ" (buildGrid_searchable _ _ Hbuild)) as [_ Hiff];
    [vm_compute; reflexivity |].
  intros Hpath. apply Hiff in Hpath. vm_compute in Hpath. discriminate.
Qed.

(** C8.  On the grid that is the centre "A" alone, with the dictionary A,
    AA, [main] prints A only.  In any grid that [main] builds, the search
    for a word of one letter returns, and it finds the word exactly when
    some cell carries that letter; and no neighbour slot of a cell points
    to the cell itself.  (For a word that begins with another character
    the read of the bucket array is outside the array, and nothing is said
    about it here.) *)
Theorem main_on_the_centre_alone :
  main ["A"%string] ["A"; "AA"]%string = Ok ["A"%string]
  ∧ (∀ layers (g : grid) (a : ascii),
       buildGrid layers = Ok g → is_upper a = true →
       ∃ found,
         searchWord (linkedNodeArray g) (nodes g) (String a EmptyString)
           = Ok (found, nodes g)
         ∧ (found = true ↔ ∃ q n, nodes g !! q = Some n ∧ value n = a))
  ∧ (∀ layers (g : grid) (a : ptr), buildGrid layers = Ok g → ¬ lists (nodes g) a a).
Proof.
  split_and!; [vm_compute; reflexivity | | intros layers g a Hbuild;
                                           by apply (buildGrid_irreflexive layers g)].
  intros layers g a Hbuild Hup. pose proof (buildGrid_searchable _ _ Hbuild) as Hsr.
  pose proof (searchWord_spec g (String a EmptyString) Hsr) as Hspec.
  simpl string_front in Hspec. rewrite Hup in Hspec.
  destruct Hspec as (b & Hrun & Hb). exists b. split; [done |].
  by rewrite Hb, one_letter_path.
Qed.

Lemma main_on_the_centre_alone_witness :
  (∃ found,
     searchWord (linkedNodeArray grid2) (nodes grid2) "E" = Ok (found, nodes grid2)
     ∧ (found = true ↔ ∃ q n, nodes grid2 !! q = Some n ∧ value n = "E"%char))
  ∧ ¬ lists (nodes grid2) 3 3.
Proof.
  split.
  - apply (proj1 (proj2 main_on_the_centre_alone) ["A"; "BCDEFG"]%string grid2 "E"%char).
    + vm_compute. reflexivity.
    + reflexivity.
  - apply (proj2 (proj2 main_on_the_centre_alone) ["A"; "BCDEFG"]%string grid2 3).
    vm_compute. reflexivity.
Defined.

(** C9.  The recursion of the word search is bounded by the word.
    [searchNodes] is defined by recursion on the remaining word, each call
    passing the word without its first character, so it returns on every
    heap, word and start cell.  Run with at most [length word] nested
    recursive calls allowed (or any larger number), it gives the very same
    result, whatever the size of the heap, and it never ends in
    [StackOverflow] or [Diverge]. *)
Theorem searchNodes_depth_bounded (h : heap) (word : string) (current : option ptr)
    (extra : nat) :
  searchNodesDepth (String.length word + extra) h word current
    = searchNodes h word current
  ∧ pointer_fault_only (searchNodes h word current).
Proof.
  split.
  - apply searchNodesDepth_enough. lia.
  - apply searchNodes_pointer_fault_only.
Qed.

(** The bound is reached: with one nested call fewer than the word has
    characters the run is cut off. *)
Example searchNodes_depth_needed :
  searchNodes (nodes grid2) "BC" (Some 0) = Ok (true, nodes grid2)
  ∧ searchNodesDepth 1 (nodes grid2) "BC" (Some 0) = Fault StackOverflow.
Proof. split; vm_compute; reflexivity. Qed.

(** C10.  The bucket index that [main] computes for a word, [word[0] - 'A']
    as a [size_t], lies within the 26 buckets if and only if the word is not
    empty and begins with an uppercase letter 'A'..'Z'.  With an index within
    the bounds the read of the bucket array succeeds; otherwise (the empty
    word, whose [word[0]] is the terminating NUL, or any other first
    character) the read of the bucket array by [main] is out of range. *)
Theorem bucket_index_in_range (word : string) (lna : list (option ptr)) (h : heap) :
  length lna = ALPHABET →
  (in_bucket_range (getBucket (string_front word))
   ↔ word ≠ EmptyString ∧ is_upper (string_front word) = true)
  ∧ (in_bucket_range (getBucket (string_front word)) →
     ∃ first, at_index lna (getBucket (string_front word)) = Ok first)
  ∧ (¬ in_bucket_range (getBucket (string_front word)) →
     at_index lna (getBucket (string_front word)) = Fault OutOfRange
     ∧ searchWord lna h word = Fault OutOfRange).
Proof.
  intros Hlen. split_and!.
  - rewrite getBucket_range. split.
    + intros Hup. split; [by apply is_upper_front_nonempty | done].
    + by intros [_ Hup].
  - intros Hin. destruct (at_index_in_range lna _ Hlen Hin) as (first & Hat & _).
    by exists first.
  - intros Hout. pose proof (at_index_out_of_range lna _ Hlen Hout) as Hat.
    split; [done |]. unfold searchWord. by rewrite Hat.
Qed.

Lemma bucket_index_in_range_witness :
  (in_bucket_range (getBucket (string_front "XYZ"))
   ↔ "XYZ"%string ≠ EmptyString ∧ is_upper (string_front "XYZ") = true)
  ∧ (in_bucket_range (getBucket (string_front "XYZ")) →
     ∃ first, at_index (linkedNodeArray grid2) (getBucket (string_front "XYZ")) = Ok first)
  ∧ (¬ in_bucket_range (getBucket (string_front "XYZ")) →
     at_index (linkedNodeArray grid2) (getBucket (string_front "XYZ")) = Fault OutOfRange
     ∧ searchWord (linkedNodeArray grid2) (nodes grid2) "XYZ" = Fault OutOfRange).
Proof.
  apply (bucket_index_in_range "XYZ" (linkedNodeArray grid2) (nodes grid2)).
  vm_compute. reflexivity.
Defined.

(** The empty word and a lowercase word make the read go out of range. *)
Example bucket_out_of_range :
  getBucket (string_front "") = (2 ^ 64 - 65)%Z
  ∧ searchWord (linkedNodeArray grid2) (nodes grid2) "" = Fault OutOfRange
  ∧ searchWord (linkedNodeArray grid2) (nodes grid2) "ab" = Fault OutOfRange.
Proof. split_and!; vm_compute; reflexivity. Qed.
(* ------------------------------------------------------------------ *)
(** * Further results *)

(** ** The input files *)

Lemma string_app_assoc (a b c : string) : ((a ++ b) ++ c = a ++ (b ++ c))%string.
Proof. induction a as [|x a IH]; simpl; [done | by rewrite IH]. Qed.

Lemma string_app_nil_r (a : string) : (a ++ EmptyString)%string = a.
Proof. induction a as [|x a IH]; simpl; [done | by rewrite IH]. Qed.

Lemma string_app_length (a b : string) :
  String.length (a ++ b) = String.length a + String.length b.
Proof. induction a as [|x a IH]; simpl; [done | by rewrite IH]. Qed.

Lemma no_newline_cons c (l : string) :
  no_newline (String c l) = true → Ascii.eqb c newline = false ∧ no_newline l = true.
Proof.
  unfold no_newline. simpl. intros [Hc Hl]%andb_true_iff.
  split; [by apply negb_true_iff | done].
Qed.

Lemma read_line_line (l rest : string) :
  no_newline l = true → read_line (l ++ String newline rest) = (l, Some rest).
Proof.
  induction l as [|c l IH]; [done|].
  intros [Hc Hl]%no_newline_cons. simpl. by rewrite Hc, (IH Hl).
Qed.

Lemma read_line_last (l : string) : no_newline l = true → read_line l = (l, None).
Proof.
  induction l as [|c l IH]; [done|].
  intros [Hc Hl]%no_newline_cons. simpl. by rewrite Hc, (IH Hl).
Qed.

Lemma getline_line (l rest line : string) :
  no_newline l = true →
  getline (mkStream (l ++ String newline rest) true) line = (mkStream rest true, l, true).
Proof.
  intros Hl. unfold getline. cbn [good unread].
  rewrite (read_line_line l rest Hl). by destruct l.
Qed.

Lemma getline_last (c : ascii) (s line : string) :
  no_newline (String c s) = true →
  getline (mkStream (String c s) true) line
  = (mkStream EmptyString false, String c s, true).
Proof.
  intros Hl. unfold getline. cbn [good unread]. by rewrite (read_line_last _ Hl).
Qed.

(** The loop returns the lines of the text, with fuel to spare. *)
Lemma readLoop_lines ls : ∀ fuel (line last : string) (lines : list string),
  forallb no_newline ls = true → no_newline last = true →
  String.length (unlines ls ++ last) < fuel →
  readLoop fuel (mkStream (unlines ls ++ last) true) line lines
  = Ok (lines ++ ls ++ last_line last).
Proof.
  induction ls as [|l ls IH]; intros fuel line last lines Hls Hlast Hfuel.
  - simpl in *. destruct fuel as [|fuel]; [lia|].
    destruct last as [|c s].
    + simpl. by rewrite app_nil_r.
    + cbn [readLoop]. rewrite (getline_last _ _ _ Hlast).
      destruct fuel as [|fuel]; [simpl in Hfuel; lia|]. done.
  - simpl in Hls. apply andb_true_iff in Hls as [Hl Hls].
    simpl unlines in *. rewrite string_app_assoc in *. simpl append in *.
    destruct fuel as [|fuel]; [lia|].
    cbn [readLoop]. rewrite (getline_line _ _ _ Hl).
    rewrite IH; [by rewrite <- app_assoc | done | done |].
    rewrite string_app_length in Hfuel. simpl in Hfuel. lia.
Qed.

(** The first steps of [readLines] when the argument is there. *)
Ltac readLines_open Hpath Hfile :=
  unfold readLines;
  match goal with
  | |- context [?n <? length ?argv] =>
      destruct (Nat.ltb_spec n (length argv)) as [_|?];
      [| apply lookup_lt_Some in Hpath; lia]
  end;
  unfold at_nat; rewrite Hpath; cbn [lift mbind outcome_mbind outcome_bind];
  unfold open_file; rewrite Hfile.

(** X1.  [readLines] without a count line returns the lines of the file, in
    order: for a file that holds the lines [ls], each ended by a newline,
    and then the characters [last] without a newline, the result is [ls],
    followed by [last] when it is not empty.  Empty lines are kept, and the
    loop ends within its fuel. *)
Theorem readLines_returns_the_lines (env : environment) (argv : list string) (argn : nat)
    (path : string) (ls : list string) (last : string) :
  argv !! argn = Some path →
  forallb no_newline ls = true → no_newline last = true →
  files env path = Some (unlines ls ++ last)%string →
  readLines env argv argn false = Returns (ls ++ last_line last).
Proof.
  intros Hpath Hls Hlast Hfile. readLines_open Hpath Hfile.
  cbn [unread]. by rewrite readLoop_lines by (done || lia).
Qed.

Lemma readLines_returns_the_lines_witness :
  readLines machine2 ["prog"; "honeycomb.txt"; "dictionary.txt"]%string 2 false
  = Returns (["AB"; "AG"; "BC"; "XYZ"]%string ++ last_line EmptyString).
Proof.
  apply (readLines_returns_the_lines machine2 _ 2 "dictionary.txt"
           ["AB"; "AG"; "BC"; "XYZ"]%string EmptyString).
  - reflexivity.
  - reflexivity.
  - reflexivity.
  - vm_compute. reflexivity.
Defined.

(** X2.  With a count line, [readLines] uses the number on the first line
    for [reserve] alone: when the first line converts to a number and the
    storage is granted, the result is every line after the first, however
    many the number announced; when it does not convert, the exception of
    [stoul] escapes. *)
Theorem readLines_ignores_the_count (env : environment) (argv : list string) (argn : nat)
    (path first : string) (ls : list string) (last : string) :
  argv !! argn = Some path →
  no_newline first = true → forallb no_newline ls = true → no_newline last = true →
  files env path = Some (first ++ String newline (unlines ls ++ last))%string →
  readLines env argv argn true
  = (count ← stoul first;
     if reserves env count then Returns (ls ++ last_line last)
     else Throws alloc_failure).
Proof.
  intros Hpath Hfirst Hls Hlast Hfile. readLines_open Hpath Hfile.
  rewrite (getline_line _ _ _ Hfirst).
  destruct (stoul first) as [count| | |]; try done.
  cbn [mbind outcome_mbind outcome_bind].
  destruct (reserves env count); [|done].
  cbn [mbind outcome_mbind outcome_bind unread].
  by rewrite readLoop_lines by (done || lia).
Qed.

Lemma readLines_ignores_the_count_witness :
  readLines machine2 ["prog"; "honeycomb.txt"]%string 1 true
  = (count ← stoul "2";
     if reserves machine2 count
     then Returns (["A"; "BCDEFG"]%string ++ last_line EmptyString)
     else Throws alloc_failure).
Proof.
  apply (readLines_ignores_the_count machine2 _ 1 "honeycomb.txt" "2"
           ["A"; "BCDEFG"]%string EmptyString).
  - reflexivity.
  - reflexivity.
  - reflexivity.
  - reflexivity.
  - vm_compute. reflexivity.
Defined.

(** The count need not be the number of the lines. *)
Example readLines_count_too_small :
  readLines
    (mkEnvironment (λ _, Some (unlines ["1"; "A"; "BCDEFG"]%string)) (λ _, true))
    ["prog"; "honeycomb.txt"]%string 1 true
  = Returns ["A"; "BCDEFG"]%string.
Proof. vm_compute. reflexivity. Qed.

(** X3.  A file that cannot be opened, or that is empty, is no error for
    [readLines] without a count line: the result is the empty list.  With a
    count line the first [getline] leaves the line empty and [stoul] throws
    [invalid_argument]; there is no [exit]. *)
Theorem readLines_of_a_missing_file (env : environment) (argv : list string) (argn : nat)
    (path : string) :
  argv !! argn = Some path →
  files env path = None ∨ files env path = Some EmptyString →
  readLines env argv argn false = Returns []
  ∧ readLines env argv argn true = Throws invalid_argument.
Proof.
  intros Hpath Hfile. unfold readLines.
  destruct (Nat.ltb_spec argn (length argv)) as [_|Hge].
  2:{ apply lookup_lt_Some in Hpath. lia. }
  unfold at_nat. rewrite Hpath. cbn [lift mbind outcome_mbind outcome_bind].
  unfold open_file. by destruct Hfile as [-> | ->].
Qed.

Lemma readLines_of_a_missing_file_witness :
  readLines machine2 ["prog"; "nowhere.txt"]%string 1 false = Returns []
  ∧ readLines machine2 ["prog"; "nowhere.txt"]%string 1 true = Throws invalid_argument.
Proof.
  apply (readLines_of_a_missing_file machine2 _ 1 "nowhere.txt").
  - reflexivity.
  - left. reflexivity.
Defined.

(** X4.  The program hands the lines of its two files to [main] as they
    are.  For a honeycomb file made of a first line and the layers, and a
    dictionary file made of the words, each line ended by a newline: when
    the first line converts to a number and [reserve] gets its storage for
    that number, the program is [main] on the layers and the words, and is
    undefined where [main] is; otherwise the exception of [stoul] or of
    [reserve] ends it.  The number on the first line has no other part in
    the result. *)
Theorem hexagonalSearch_runs_main_on_the_lines (env : environment)
    (prog honeycomb dict first : string) (layers dictionary : list string) :
  files env honeycomb = Some (first ++ String newline (unlines layers))%string →
  files env dict = Some (unlines dictionary) →
  no_newline first = true →
  forallb no_newline layers = true → forallb no_newline dictionary = true →
  hexagonalSearch env [prog; honeycomb; dict]
  = (count ← stoul first;
     if reserves env count then lift (main layers dictionary)
     else Throws alloc_failure).
Proof.
  intros Hf1 Hf2 Hfirst Hlayers Hdict.
  pose proof (readLoop_lines layers) as Hl. pose proof (readLoop_lines dictionary) as Hd.
  unfold hexagonalSearch, readLines, open_file.
  cbn [length Nat.ltb Nat.leb at_nat lookup list_lookup lift mbind outcome_mbind outcome_bind].
  rewrite Hf1, Hf2, (getline_line _ _ _ Hfirst).
  destruct (stoul first) as [count| | |]; try done.
  cbn [mbind outcome_mbind outcome_bind].
  destruct (reserves env count); [|done].
  cbn [mbind outcome_mbind outcome_bind unread].
  specialize (Hl (S (String.length (unlines layers))) first EmptyString []).
  specialize (Hd (S (String.length (unlines dictionary))) EmptyString EmptyString []).
  rewrite string_app_nil_r in Hl, Hd.
  rewrite Hl, Hd by (done || lia). cbn [lift mbind outcome_mbind outcome_bind last_line].
  by rewrite !app_nil_r.
Qed.

Lemma hexagonalSearch_runs_main_on_the_lines_witness :
  hexagonalSearch machine2 ["prog"; "honeycomb.txt"; "dictionary.txt"]%string
  = (count ← stoul "2";
     if reserves machine2 count
     then lift (main ["A"; "BCDEFG"]%string ["AB"; "AG"; "BC"; "XYZ"]%string)
     else Throws alloc_failure).
Proof.
  apply (hexagonalSearch_runs_main_on_the_lines machine2 "prog" "honeycomb.txt"
           "dictionary.txt" "2" ["A"; "BCDEFG"]%string
           ["AB"; "AG"; "BC"; "XYZ"]%string).
  all: vm_compute; reflexivity.
Defined.

(** A first line that converts to a number too large for [reserve] ends
    the program before any layer is read, and with fewer than two file
    names the program ends in [exit(1)]. *)
Example hexagonalSearch_without_dictionary :
  hexagonalSearch
    (mkEnvironment (λ _, Some (unlines ["-1"; "A"]%string)) (λ n, (n <? 2 ^ 58)%Z))
    ["prog"; "honeycomb.txt"; "dictionary.txt"]%string
  = Throws alloc_failure
  ∧ hexagonalSearch machine2 ["prog"]%string = Exits 1
  ∧ hexagonalSearch machine2 ["prog"; "honeycomb.txt"]%string = Exits 1.
Proof. split_and!; vm_compute; reflexivity. Qed.


(** ** The grid construction *)

(** X5.  [getBucket] sends no two characters to the same index; it sends
    an uppercase letter to its place in the alphabet, counted from 0, and
    every other character to an index from 26 on, past the 26 buckets. *)
Theorem getBucket_orders_the_letters (a b : ascii) :
  (getBucket a = getBucket b → a = b)
  ∧ (is_upper a = true → getBucket a = (Z.of_nat (nat_of_ascii a) - 65)%Z)
  ∧ (is_upper a = false → (26 ≤ getBucket a < 2 ^ 64)%Z).
Proof.
  assert (0 ≤ getBucket a < 2 ^ 64)%Z as Hmod.
  { unfold getBucket. by apply Z.mod_pos_bound. }
  split_and!.
  - apply getBucket_inj.
  - intros [H1 H2]%andb_true_iff. apply Nat.leb_le in H1, H2.
    rewrite getBucket_small. unfold char_to_int.
    destruct (Z.ltb_spec (Z.of_nat (nat_of_ascii a)) 128); [|lia].
    destruct (Z.leb_spec 65 (Z.of_nat (nat_of_ascii a))); lia.
  - intros Hup. split; [|lia].
    destruct (Z.le_gt_cases 26 (getBucket a)) as [|Hlt]; [done|].
    assert (in_bucket_range (getBucket a)) as Hr by (unfold in_bucket_range; lia).
    apply getBucket_range in Hr. congruence.
Qed.

Lemma NoDup_bounded_length (p : list nat) (n : nat) :
  NoDup p → (∀ x, x ∈ p → x < n) → length p ≤ n.
Proof.
  intros Hnd Hlt.
  replace n with (length (seq 0 n)) by apply length_seq.
  apply submseteq_length, NoDup_submseteq; [done|].
  intros x Hx. apply elem_of_seq. specialize (Hlt x Hx). lia.
Qed.

Lemma is_chain_functional (h : heap) ps : ∀ o ps',
  is_chain h o ps → is_chain h o ps' → ps = ps'.
Proof.
  induction ps as [|p ps IH]; intros o [|p' ps'] H1 H2; simpl in *.
  - done.
  - destruct H2 as [-> _]. done.
  - destruct H1 as [-> _]. done.
  - destruct H1 as (-> & n & Hn & H1). destruct H2 as ([= <-] & n' & Hn' & H2).
    rewrite Hn in Hn'. injection Hn' as <-. f_equal. by eapply IH.
Qed.

Lemma is_chain_suffix (h : heap) l1 : ∀ o x l2,
  is_chain h o (l1 ++ x :: l2) → is_chain h (Some x) (x :: l2).
Proof.
  induction l1 as [|p l1 IH]; intros o x l2 Hc; simpl in *.
  - destruct Hc as (_ & Hc). done.
  - destruct Hc as (_ & n & _ & Hc). by eapply IH.
Qed.

(** A list that ends with [NULL] holds no node twice. *)
Lemma is_chain_NoDup (h : heap) ps : ∀ o, is_chain h o ps → NoDup ps.
Proof.
  induction ps as [|p ps IH]; intros o Hc; [constructor|].
  pose proof Hc as (-> & n & Hn & Hc').
  constructor; [|by eapply IH].
  intros Hin. apply list_elem_of_split in Hin as (l1 & l2 & ->).
  pose proof (is_chain_suffix h (p :: l1) (Some p) p l2 Hc) as Hs.
  pose proof (is_chain_functional _ _ _ _ Hc Hs) as Heq.
  apply (f_equal length) in Heq. simpl in Heq. rewrite length_app in Heq.
  simpl in Heq. lia.
Qed.

Lemma is_chain_valid (h : heap) ps : ∀ o x,
  is_chain h o ps → x ∈ ps → x < length h.
Proof.
  induction ps as [|p ps IH]; intros o x Hc Hx; [by apply elem_of_nil in Hx|].
  destruct Hc as (-> & n & Hn & Hc).
  apply elem_of_cons in Hx as [->|Hx]; [by eapply lookup_lt_Some | by eapply IH].
Qed.

Lemma is_chain_length (h : heap) ps o : is_chain h o ps → length ps ≤ length h.
Proof.
  intros Hc. apply NoDup_bounded_length; [by eapply is_chain_NoDup|].
  intros x Hx. by eapply is_chain_valid.
Qed.

Lemma getLastNode_loop_chain fuel : ∀ (h : heap) p l,
  getLastNode_loop fuel h p = Ok l →
  ∃ ps, is_chain h (Some p) ps ∧ last ps = Some l.
Proof.
  induction fuel as [|fuel IH]; intros h p l Hrun; [done|].
  simpl in Hrun. apply bind_Ok_inv in Hrun as (n & Hn & Hrun).
  unfold deref in Hn. destruct (h !! p) as [n0|] eqn:Hp; [injection Hn as -> | done].
  destruct (nextPtr n) as [nx|] eqn:Hnx.
  - destruct (IH _ _ _ Hrun) as (ps & Hc & Hl).
    exists (p :: ps). split.
    + simpl. split; [done|]. exists n. by rewrite Hnx.
    + destruct ps; [done|]. done.
  - injection Hrun as <-. exists [p]. split; [|done].
    simpl. split; [done|]. exists n. by rewrite Hnx.
Qed.

(** X6.  [getLastNode] returns a node exactly when the list that starts at
    [this] ends with [NULL], and the node is then the last one of the list,
    the one whose [nextPtr] is [NULL].  On a list that runs into a cycle or
    into a pointer that names no node there is no such result. *)
Theorem getLastNode_returns_the_end_of_the_list (h : heap) (this l : ptr) :
  getLastNode h this = Ok l
  ↔ ∃ ps nl, is_chain h (Some this) ps ∧ last ps = Some l
             ∧ h !! l = Some nl ∧ nextPtr nl = None.
Proof.
  split.
  - intros Hrun. destruct (getLastNode_loop_chain _ _ _ _ Hrun) as (ps & Hc & Hl).
    destruct (is_chain_last h ps this (length h) Hc (is_chain_length _ _ _ Hc))
      as (l' & nl & Hl' & _ & Hnl & Hnx).
    exists ps, nl. split_and!; [done | done | congruence | done].
  - intros (ps & nl & Hc & Hl & _).
    destruct (is_chain_last h ps this (length h) Hc (is_chain_length _ _ _ Hc))
      as (l' & nl' & Hl' & Hrun & _).
    unfold getLastNode. congruence.
Qed.

(** A list of two nodes, and two nodes that point at each other. *)
Example getLastNode_of_two :
  getLastNode [set_nextPtr (Some 1) newNode; newNode] 0 = Ok 1
  ∧ getLastNode [set_nextPtr (Some 1) newNode; set_nextPtr (Some 0) newNode] 0
    = Fault Diverge.
Proof. split; vm_compute; reflexivity. Qed.

Lemma populateChar_coords l c v (g g' : grid) :
  populateChar l c v g = Ok g' →
  coords <$> nodes g' = (coords <$> nodes g) ++ [(v, l, c)].
Proof.
  unfold populateChar. intros Hrun.
  apply bind_Ok_inv in Hrun as (first & _ & Hrun).
  destruct first as [head|].
  - apply bind_Ok_inv in Hrun as (lst & _ & Hrun).
    apply bind_Ok_inv in Hrun as (h2 & Hst & Hrun).
    injection Hrun as <-. simpl.
    unfold store in Hst. apply bind_Ok_inv in Hst as (n & Hn & Hst).
    injection Hst as <-. unfold deref in Hn.
    destruct (_ !! lst) as [n0|] eqn:Hlook; [injection Hn as -> | done].
    rewrite list_fmap_insert, list_insert_id.
    + by rewrite fmap_app.
    + by rewrite list_lookup_fmap, Hlook.
  - injection Hrun as <-. simpl. by rewrite fmap_app.
Qed.

Lemma populateLayer_coords layer : ∀ l c (g g' : grid),
  populateLayer l c layer g = Ok g' →
  coords <$> nodes g' = (coords <$> nodes g) ++ layerCoords l c layer.
Proof.
  induction layer as [|v rest IH]; intros l c g g' Hrun; simpl in *.
  - injection Hrun as <-. by rewrite app_nil_r.
  - apply bind_Ok_inv in Hrun as (g1 & H1 & Hrun).
    rewrite (IH _ _ _ _ Hrun), (populateChar_coords _ _ _ _ _ H1), <- app_assoc. done.
Qed.

Lemma populateLayers_coords layers : ∀ l (g g' : grid),
  populateLayers l layers g = Ok g' →
  coords <$> nodes g' = (coords <$> nodes g) ++ layersCoords l layers.
Proof.
  induction layers as [|layer rest IH]; intros l g g' Hrun; simpl in *.
  - injection Hrun as <-. by rewrite app_nil_r.
  - apply bind_Ok_inv in Hrun as (g1 & H1 & Hrun).
    rewrite (IH _ _ _ Hrun), (populateLayer_coords _ _ _ _ _ H1), <- app_assoc. done.
Qed.

Lemma layerCoords_length layer : ∀ l c, length (layerCoords l c layer) = String.length layer.
Proof. induction layer as [|v rest IH]; intros l c; simpl; [done | by rewrite IH]. Qed.

Lemma layersCoords_length layers : ∀ l,
  length (layersCoords l layers) = sum_list (String.length <$> layers).
Proof.
  induction layers as [|layer rest IH]; intros l; simpl; [done|].
  by rewrite length_app, layerCoords_length, IH.
Qed.

Lemma layerCoords_lookup layer : ∀ l c i v,
  String.get i layer = Some v → layerCoords l c layer !! i = Some (v, l, c + i).
Proof.
  induction layer as [|a rest IH]; intros l c i v Hget; [done|].
  destruct i as [|i]; simpl in *.
  - injection Hget as ->. by rewrite Nat.add_0_r.
  - rewrite (IH l (S c) i v Hget). by replace (S c + i) with (c + S i) by lia.
Qed.

Lemma string_get_lt layer : ∀ i v, String.get i layer = Some v → i < String.length layer.
Proof.
  induction layer as [|a rest IH]; intros i v Hget; [done|].
  destruct i as [|i]; simpl in *; [lia|]. specialize (IH i v Hget). lia.
Qed.

Lemma layout_length lens : ∀ start, length (layout start lens) = length lens.
Proof. induction lens as [|n rest IH]; intros start; simpl; [done | by rewrite IH]. Qed.

(** The node at a position of the layout is the one created for the
    character at that position. *)
Lemma layout_coords layers : ∀ start l li layer ci v,
  layers !! li = Some layer → String.get ci layer = Some v →
  ∃ p, cell (layout start (String.length <$> layers)) li ci = Some p
       ∧ start ≤ p
       ∧ layersCoords l layers !! (p - start) = Some (v, l + li, ci).
Proof.
  induction layers as [|layer0 rest IH]; intros start l li layer ci v Hl Hget; [done|].
  destruct li as [|li]; simpl in Hl.
  - injection Hl as ->. exists (start + ci).
    pose proof (string_get_lt _ _ _ Hget) as Hlt.
    split_and!.
    + unfold cell. simpl. by apply lookup_seq.
    + lia.
    + simpl. replace (start + ci - start) with ci by lia.
      rewrite lookup_app_l; [|by rewrite layerCoords_length].
      rewrite (layerCoords_lookup _ _ _ _ _ Hget). by rewrite Nat.add_0_r.
  - destruct (IH (start + String.length layer0) (S l) li layer ci v Hl Hget)
      as (p & Hcell & Hle & Hlook).
    exists p. split_and!; [done | lia |].
    simpl. rewrite lookup_app_r; [|rewrite layerCoords_length; lia].
    rewrite layerCoords_length.
    replace (p - start - String.length layer0) with (p - (start + String.length layer0)) by lia.
    rewrite Hlook. by replace (S l + li) with (l + S li) by lia.
Qed.

(** X7.  In the grid that [main] builds, the position array has one row for
    every layer, the row of a layer has one node for every character of the
    layer, and the node at position [c] of layer [l] carries the character
    [layers[l][c]] and the coordinates [(l, c)].  There are as many nodes as
    the layers have characters. *)
Theorem buildGrid_cells layers (g : grid) :
  buildGrid layers = Ok g →
  length (positionNodeArray g) = length layers
  ∧ length (nodes g) = sum_list (String.length <$> layers)
  ∧ ∀ l layer, layers !! l = Some layer →
      ∃ row, positionNodeArray g !! l = Some row
        ∧ length row = String.length layer
        ∧ ∀ c v, String.get c layer = Some v →
            ∃ p n, row !! c = Some p ∧ nodes g !! p = Some n
                   ∧ value n = v ∧ layerN n = l ∧ charN n = c.
Proof.
  intros Hb.
  destruct (buildGrid_inv _ _ Hb) as (g0 & Hpop & Hset & _ & Hpna).
  pose proof (populate_spec layers) as Hspec. rewrite Hpop in Hspec.
  destruct Hspec as (_ & _ & Hlay).
  pose proof (populateLayers_coords _ _ _ _ Hpop) as Hco. simpl in Hco.
  destruct (setNeighbors_linking _ _ _ Hset) as [[Hlen Hsame] _].
  rewrite Hpna, Hlay. split_and!.
  - by rewrite layout_length, length_fmap.
  - by rewrite Hlen, <- (length_fmap coords), Hco, layersCoords_length.
  - intros l layer Hl.
    destruct (lookup_lt_is_Some_2 (layout 0 (String.length <$> layers)) l) as [row Hrow].
    { rewrite layout_length, length_fmap. by eapply lookup_lt_Some. }
    exists row. split; [done|].
    destruct (layout_lookup _ _ _ _ Hrow) as (n & s & Hn & ->).
    rewrite list_lookup_fmap, Hl in Hn. injection Hn as <-.
    split; [by rewrite length_seq|].
    intros c v Hget.
    destruct (layout_coords layers 0 0 l layer c v Hl Hget) as (p & Hcell & _ & Hlook).
    unfold cell in Hcell. rewrite Hrow in Hcell. simpl in Hcell.
    rewrite Nat.sub_0_r, <- Hco, list_lookup_fmap in Hlook.
    destruct (nodes g0 !! p) as [n0|] eqn:Hn0; [|done].
    injection Hlook as Hv Hln Hcn.
    destruct (Hsame p n0 Hn0) as (n' & Hn' & Hv' & Hl' & Hc' & _).
    exists p, n'. split_and!; [done | done | congruence | congruence | congruence].
Qed.

Lemma buildGrid_cells_witness :
  length (positionNodeArray grid2) = length ["A"; "BCDEFG"]%string
  ∧ length (nodes grid2) = sum_list (String.length <$> ["A"; "BCDEFG"]%string)
  ∧ ∀ l layer, ["A"; "BCDEFG"]%string !! l = Some layer →
      ∃ row, positionNodeArray grid2 !! l = Some row
        ∧ length row = String.length layer
        ∧ ∀ c v, String.get c layer = Some v →
            ∃ p n, row !! c = Some p ∧ nodes grid2 !! p = Some n
                   ∧ value n = v ∧ layerN n = l ∧ charN n = c.
Proof.
  apply (buildGrid_cells ["A"; "BCDEFG"]%string grid2).
  vm_compute. reflexivity.
Defined.

Lemma getBucket_bucketLetter b : b < 26 → getBucket (bucketLetter b) = Z.of_nat b.
Proof.
  intros Hb. do 26 (destruct b as [|b]; [by vm_compute|]). lia.
Qed.

(** X8.  In the grid that [main] builds, the list that starts at
    [linkedNodeArray[b]] ends with [NULL] and holds the nodes whose letter
    is ['A' + b], all of them, each once, in the order of their creation;
    the bucket of a letter that is not in the honeycomb is [NULL]. *)
Theorem buildGrid_buckets layers (g : grid) :
  buildGrid layers = Ok g →
  length (linkedNodeArray g) = 26
  ∧ ∀ b first, linkedNodeArray g !! b = Some first →
      ∃ ps, is_chain (nodes g) first ps
            ∧ ps `sublist_of` seq 0 (length (nodes g))
            ∧ ∀ p, p ∈ ps ↔ ∃ n, nodes g !! p = Some n ∧ value n = bucketLetter b.
Proof.
  intros Hb. pose proof (buildGrid_searchable _ _ Hb) as Hg.
  split; [apply (sr_lna_length g Hg)|].
  intros b first Hfirst.
  assert (b < 26) as Hlt.
  { rewrite <- (sr_lna_length g Hg). by eapply lookup_lt_Some. }
  exists (bucketNodes (nodes g) b). split_and!.
  - pose proof (sr_chains g Hg b Hlt) as Hc. by rewrite Hfirst in Hc.
  - apply sublist_filter.
  - intros p. rewrite bucketNodes_elem. unfold bucketOf. split.
    + intros [Hp Hbk]. destruct (nodes g !! p) as [n|]; [|lia].
      exists n. split; [done|]. apply getBucket_inj.
      by rewrite getBucket_bucketLetter.
    + intros (n & Hn & Hv). split; [by eapply lookup_lt_Some|].
      by rewrite Hn, Hv, getBucket_bucketLetter.
Qed.

Lemma buildGrid_buckets_witness :
  length (linkedNodeArray grid2) = 26
  ∧ ∀ b first, linkedNodeArray grid2 !! b = Some first →
      ∃ ps, is_chain (nodes grid2) first ps
            ∧ ps `sublist_of` seq 0 (length (nodes grid2))
            ∧ ∀ p, p ∈ ps ↔ ∃ n, nodes grid2 !! p = Some n ∧ value n = bucketLetter b.
Proof.
  apply (buildGrid_buckets ["A"; "BCDEFG"]%string grid2).
  vm_compute. reflexivity.
Defined.

(** ** The adjacency *)

Lemma setNeighbors_outside (pna : list (list ptr)) (h h' : heap) p :
  setNeighbors pna h = Ok h' → p ∉ concat pna → h' !! p = h !! p.
Proof.
  intros Hrun Hp. rewrite setNeighbors_positions in Hrun.
  revert Hrun. apply (forM_invariant (λ s : heap, s !! p = h !! p)); [|done].
  intros x s s' _ Hs Hstep. simpl in Hs.
  unfold setNeighborsAt in Hstep. pose proof Hstep as Hcur.
  unfold setNeighborsCell in Hcur. apply bind_Ok_inv in Hcur as (cur & Hcur & _).
  apply at2_inv in Hcur. rewrite <- Hs.
  eapply setNeighborsCell_frame; [exact Hcur | | exact Hstep].
  intros ->. apply Hp. by eapply cell_elem.
Qed.

(** X9.  [setNeighbors] writes neighbour slots and nothing else, on any
    position array on which it returns: the heap keeps its nodes, every
    node keeps its letter, its coordinates, its [nextPtr] and its marker, a
    node that is not in the position array is left as it was, and every
    pointer that a slot holds afterwards was there before or is a node of
    the position array. *)
Theorem setNeighbors_writes_slots_only (pna : list (list ptr)) (h h' : heap) :
  setNeighbors pna h = Ok h' →
  length h' = length h
  ∧ (∀ p n, h !! p = Some n →
       ∃ n', h' !! p = Some n' ∧ value n' = value n ∧ layerN n' = layerN n
             ∧ charN n' = charN n ∧ nextPtr n' = nextPtr n ∧ visited n' = visited n)
  ∧ (∀ p, p ∉ concat pna → h' !! p = h !! p)
  ∧ (∀ a b, lists h' a b → lists h a b ∨ b ∈ concat pna).
Proof.
  intros Hrun. destruct (setNeighbors_linking _ _ _ Hrun) as [[Hlen Hsame] Hslots].
  split_and!; [done | done | | done].
  intros p Hp. by eapply setNeighbors_outside.
Qed.

Lemma setNeighbors_writes_slots_only_witness :
  length (nodes grid2) = length (nodes grid2_unlinked)
  ∧ (∀ p n, nodes grid2_unlinked !! p = Some n →
       ∃ n', nodes grid2 !! p = Some n' ∧ value n' = value n ∧ layerN n' = layerN n
             ∧ charN n' = charN n ∧ nextPtr n' = nextPtr n ∧ visited n' = visited n)
  ∧ (∀ p, p ∉ concat (positionNodeArray grid2_unlinked) →
       nodes grid2 !! p = nodes grid2_unlinked !! p)
  ∧ (∀ a b, lists (nodes grid2) a b →
       lists (nodes grid2_unlinked) a b ∨ b ∈ concat (positionNodeArray grid2_unlinked)).
Proof.
  apply (setNeighbors_writes_slots_only (positionNodeArray grid2_unlinked)
           (nodes grid2_unlinked) (nodes grid2)).
  vm_compute. reflexivity.
Defined.

Lemma at2_row (pna : list (list ptr)) i j row :
  pna !! i = Some row → at2 pna i j = at_nat row j.
Proof.
  intros Hrow. unfold at2, at_nat. cbn [mbind result_mbind result_bind].
  by rewrite Hrow.
Qed.

(** The loop over the six slots of the centre, when layer 1 is too short
    for one of the slots still to come. *)
Lemma centre_loop_short (pna : list (list ptr)) row1 c0 ks :
  pna !! 1 = Some row1 → ∀ (h : heap),
  c0 < length h →
  Exists (λ k : fin SIDES, length row1 ≤ fin_to_nat k) ks →
  forM ks (λ k h, q ← at2 pna 1 (fin_to_nat k); setAdjacent c0 k q h) h = Fault OutOfRange.
Proof.
  intros Hrow. induction ks as [|k ks IH]; intros h Hc0 Hex.
  - by apply Exists_nil in Hex.
  - cbn [forM]. rewrite (at2_row _ _ _ _ Hrow). unfold at_nat.
    destruct (row1 !! fin_to_nat k) as [q|] eqn:Hq; [|done].
    rewrite bind_Ok. destruct (lookup_lt_is_Some_2 h c0 Hc0) as [n Hn].
    rewrite (setAdjacent_Some _ _ _ _ _ Hn), bind_Ok.
    apply IH; [by rewrite length_insert|].
    apply Exists_cons in Hex as [Hex|Hex]; [|done].
    apply lookup_lt_Some in Hq. lia.
Qed.

Lemma setNeighborsCell_centre_short (pna : list (list ptr)) (h : heap)
    R cc c c0 row1 :
  cell pna 0 c = Some c0 → pna !! 1 = Some row1 → length row1 < 6 → 1 < R →
  c0 < length h →
  setNeighborsCell pna R 0 cc c h = Fault OutOfRange.
Proof.
  intros Hcell Hrow Hshort HR Hc0. unfold setNeighborsCell.
  rewrite (at2_cell _ _ _ _ Hcell), bind_Ok.
  change (0 <? 0) with false. cbv iota.
  destruct (Nat.ltb_spec 1 R) as [_|]; [|lia].
  apply (centre_loop_short pna row1 c0 slots Hrow h Hc0).
  apply Exists_exists. exists slot5. split; [repeat constructor | simpl; lia].
Qed.

(** On any position array with a node in layer 0 and fewer than six nodes
    in layer 1, [setNeighbors] reads outside layer 1. *)
Lemma setNeighbors_short_first_ring (pna : list (list ptr)) (h : heap) c0 r0 row1 :
  pna !! 0 = Some (c0 :: r0) → pna !! 1 = Some row1 → length row1 < 6 →
  c0 < length h →
  setNeighbors pna h = Fault OutOfRange.
Proof.
  intros H0 H1 Hshort Hc0. rewrite setNeighbors_positions.
  assert (1 < length pna) as HR by (by eapply lookup_lt_Some).
  assert (cell pna 0 0 = Some c0) as Hcell by (unfold cell; by rewrite H0).
  destruct pna as [|row0 rest]; [done|].
  simpl in H0. injection H0 as ->.
  cbn [positions_from length seq fmap list_fmap app forM].
  unfold setNeighborsAt. cbn [fst snd].
  erewrite setNeighborsCell_centre_short;
    [done | first [exact Hcell | exact H1 | exact Hshort | exact Hc0 | exact HR] ..].
Qed.

(** X10.  When the construction has returned on layers whose layer 0 is not
    empty and whose layer 1 has fewer than six characters, [setNeighbors]
    indexes layer 1 of the position array outside its bounds: the loop over
    the six slots of the centre evaluates [positionNodeArray[1][n]] for the
    number [n] of the cells of layer 1, which the layer does not have.
    Nothing is said about what the program does after that access. *)
Theorem buildGrid_short_first_ring layers (l0 l1 : string) (g0 : grid) :
  populateLinkedNodeArray layers emptyGrid = Ok g0 →
  layers !! 0 = Some l0 → layers !! 1 = Some l1 →
  l0 ≠ EmptyString → String.length l1 < 6 →
  at2 (positionNodeArray g0) 1 (String.length l1) = Fault OutOfRange
  ∧ setNeighbors (positionNodeArray g0) (nodes g0) = Fault OutOfRange.
Proof.
  intros Hrun H0 H1 Hne Hshort.
  pose proof (populate_spec layers) as Hspec. rewrite Hrun in Hspec.
  destruct Hspec as (_ & Hpop & Hlay).
  destruct layers as [|x [|y rest]]; [done | done |].
  simpl in H0, H1. injection H0 as ->. injection H1 as ->.
  simpl in Hlay. destruct l0 as [|a l0]; [done|]. simpl in Hlay.
  rewrite Hlay. split.
  - unfold at2, at_nat. cbn [lookup list_lookup mbind result_mbind result_bind].
    rewrite lookup_ge_None_2; [done | by rewrite length_seq].
  - apply (setNeighbors_short_first_ring _ _ 0 (seq 1 (String.length l0))
             (seq (S (String.length l0)) (String.length l1))).
    + done.
    + done.
    + by rewrite length_seq.
    + pose proof (pop_positions g0 Hpop) as Hpos. rewrite Hlay in Hpos.
      destruct (nodes g0); [done | simpl; lia].
Qed.

Lemma buildGrid_short_first_ring_witness :
  at2 (positionNodeArray grid_short) 1 (String.length "BCD") = Fault OutOfRange
  ∧ setNeighbors (positionNodeArray grid_short) (nodes grid_short) = Fault OutOfRange.
Proof.
  apply (buildGrid_short_first_ring ["A"; "BCD"]%string "A" "BCD" grid_short).
  - vm_compute. reflexivity.
  - reflexivity.
  - reflexivity.
  - discriminate.
  - simpl. lia.
Defined.

Ltac pair_ne := let H := fresh in intros H; injection H; intros; nia.

Ltac distinct_pairs :=
  repeat (apply NoDup_cons; split;
          [rewrite ?not_elem_of_cons, ?elem_of_nil; repeat split;
           first [tauto | pair_ne] |]);
  apply NoDup_nil_2.

(** The positions in the slots of a cell are pairwise distinct, and their
    number is [neighborCount]. *)
Lemma hexSlots_distinct R l c :
  l < R → c < ringSize l →
  NoDup (omap id (vec_to_list (hexSlots R l c)))
  ∧ length (omap id (vec_to_list (hexSlots R l c))) = neighborCount R l c.
Proof.
  intros Hl Hc. unfold hexSlots, neighborCount, ringSize in *.
  destruct l as [|l0].
  - simpl. destruct (Nat.ltb_spec 1 R), (Nat.ltb_spec 0 (R - 1)); try lia; simpl.
    + split; [|done]. distinct_pairs.
    + split; [apply NoDup_nil_2 | done].
  - change (S l0 =? 0) with false in *. cbv iota in Hc. cbv iota. unfold isCorner.
    change (S l0 =? 0) with false. cbv iota.
    pose proof (Nat.div_mod_eq c (S l0)) as Hdm.
    pose proof (Nat.mod_upper_bound c (S l0) ltac:(lia)) as Hm.
    rewrite Nat.sub_succ, Nat.sub_0_r.
    set (a := c / S l0) in *. set (m := c mod S l0) in *. clearbody a m.
    destruct (Nat.ltb_spec c (6 * S l0 - 1)), (Nat.ltb_spec 0 c),
      (Nat.ltb_spec (S l0) (R - 1)), (Nat.eqb_spec m 0);
      cbn [negb vec_to_list omap list_omap id length Vector.to_list];
      (split; [|done]);
      distinct_pairs.
Qed.

Lemma cells_of_positions (pna : list (list ptr)) (v : list (option (nat * nat))) :
  NoDup (concat pna) →
  (∀ pos, Some pos ∈ v → is_Some (cell pna pos.1 pos.2)) →
  NoDup (omap id v) →
  let qs := omap id ((λ t : option (nat * nat), pos ← t; cell pna pos.1 pos.2) <$> v) in
  NoDup qs ∧ length qs = length (omap id v)
  ∧ ∀ q, q ∈ qs → ∃ pos, pos ∈ omap id v ∧ cell pna pos.1 pos.2 = Some q.
Proof.
  intros Hinj. induction v as [|t v IH]; intros Hcells Hnd; simpl.
  - split_and!; [apply NoDup_nil_2 | done |]. by intros q ?%elem_of_nil.
  - assert (∀ pos, Some pos ∈ v → is_Some (cell pna pos.1 pos.2)) as Hcells'.
    { intros pos Hpos. apply Hcells. by apply list_elem_of_further. }
    destruct t as [pos|]; simpl in *.
    + destruct (Hcells pos) as [q Hq]; [apply list_elem_of_here|].
      rewrite Hq. simpl. apply NoDup_cons in Hnd as [Hnin Hnd].
      destruct (IH Hcells' Hnd) as (IH1 & IH2 & IH3).
      split_and!.
      * apply NoDup_cons. split; [|done]. intros Hin.
        destruct (IH3 q Hin) as (pos' & Hpos' & Hq').
        destruct (cell_inj _ _ _ _ _ _ Hinj Hq Hq') as [H1 H2].
        apply Hnin. destruct pos, pos'; simpl in *; by subst.
      * simpl. f_equal. exact IH2.
      * intros q' Hq'. apply elem_of_cons in Hq' as [->|Hq'].
        -- exists pos. split; [apply list_elem_of_here | done].
        -- destruct (IH3 q' Hq') as (pos' & ? & ?). exists pos'.
           split; [by apply list_elem_of_further | done].
    + by apply IH.
Qed.

(** X11.  After [setNeighbors] on a honeycomb, the slots of a cell that are
    not [NULL] hold pairwise distinct cells, and their number is six for
    every cell that is not in the outermost layer, three for a corner and
    four for an edge cell of the outermost layer, and none for a centre
    that stands alone. *)
Theorem honeycomb_neighbors (pna : list (list ptr)) (h h' : heap) (l c : nat) (cur : ptr) :
  honeycomb pna h → setNeighbors pna h = Ok h' → cell pna l c = Some cur →
  ∃ n', h' !! cur = Some n'
        ∧ NoDup (neighbors n')
        ∧ length (neighbors n') = neighborCount (length pna) l c.
Proof.
  intros Hhc Hrun Hcell.
  destruct (setNeighbors_spec pna h Hhc) as (h2 & Hrun2 & _ & Hcells & _).
  rewrite Hrun in Hrun2. injection Hrun2 as <-.
  assert (cur < length h) as Hlt.
  { apply (hc_valid _ _ Hhc). by eapply cell_elem. }
  destruct (lookup_lt_is_Some_2 _ _ Hlt) as [n Hn].
  exists (with_adjacentList (hexPointers pna l c) n).
  split; [by apply (Hcells l c)|].
  destruct (cell_range pna (hc_shape _ _ Hhc) _ _ _ Hcell) as [Hl Hc].
  destruct (hexSlots_distinct (length pna) l c Hl Hc) as [Hnd Hlen].
  unfold neighbors, with_adjacentList, hexPointers. cbn [adjacentList].
  rewrite vec_to_list_map.
  destruct (cells_of_positions pna (vec_to_list (hexSlots (length pna) l c))
              (hc_inj _ _ Hhc)) as (H1 & H2 & H3); [|done|].
  { intros [l' c'] Hpos. apply elem_of_vlookup in Hpos as [k Hk].
    by eapply hexSlots_in_range; [apply (hc_shape _ _ Hhc) | | | exact Hk]. }
  split; [done | by rewrite H2].
Qed.

Lemma honeycomb_neighbors_witness :
  ∃ n', nodes grid3 !! 8 = Some n'
        ∧ NoDup (neighbors n')
        ∧ length (neighbors n')
          = neighborCount (length (positionNodeArray grid3_unlinked)) 2 1.
Proof.
  apply (honeycomb_neighbors (positionNodeArray grid3_unlinked) (nodes grid3_unlinked)
           (nodes grid3) 2 1 8).
  - apply honeycombb_sound. vm_compute. reflexivity.
  - vm_compute. reflexivity.
  - vm_compute. reflexivity.
Defined.

(** ** The word search *)

(** X12.  A call of [searchNodes] with a word that is not empty returns
    with the marker of [current] cleared, whatever it was before, and with
    every other node as it was.  It answers true exactly when the nodes
    after [current] can be chosen one by one, each listed in a slot of the
    one before, pairwise distinct and distinct from [current], spelling the
    word, and none of them marked when the call began: a marked cell is
    never stepped on. *)
Theorem searchNodes_clears_its_marker (h : heap) (first : ascii) (rest : string)
    (cur : ptr) (n : linkedPolygonNode) :
  closed h → h !! cur = Some n →
  ∃ found,
    searchNodes h (String first rest) (Some cur)
      = Ok (found, <[cur := set_visited false n]> h)
    ∧ (found = true ↔
       ∃ p, linked h (cur :: p) ∧ NoDup (cur :: p)
            ∧ spells h p (String first rest) ∧ Forall (unvisited h) p).
Proof.
  intros Hclosed Hcur.
  pose proof (mark_lookup_eq h cur n false Hcur) as Hcur0.
  pose proof (mark_closed h cur n false Hcur Hclosed) as Hclosed0.
  destruct (searchNodes_spec (String first rest) _ cur _ Hclosed0 Hcur0 eq_refl)
    as (b & Hrun & Hb).
  exists b. split.
  - rewrite <- Hrun.
    rewrite !searchNodes_cons, (store_Some _ _ _ _ Hcur), (store_Some _ _ _ _ Hcur0).
    by rewrite list_insert_insert_eq.
  - rewrite Hb. unfold continuation.
    split; intros (p & Hl & Hnd & Hsp & Hun); exists p.
    + split_and!; [by eapply mark_linked | done | by eapply mark_spells |].
      apply NoDup_cons in Hnd as [Hnin _].
      rewrite Forall_forall in Hun. apply Forall_forall. intros q Hq.
      destruct (Hun q Hq) as (m & Hm & Hv).
      rewrite (mark_lookup_ne h cur n false) in Hm; [by exists m|].
      by intros ->.
    + split_and!; [by eapply mark_linked | done | by eapply mark_spells |].
      apply NoDup_cons in Hnd as [Hnin _].
      rewrite Forall_forall in Hun. apply Forall_forall. intros q Hq.
      destruct (Hun q Hq) as (m & Hm & Hv).
      exists m. rewrite (mark_lookup_ne h cur n false); [done|].
      by intros ->.
Qed.

Lemma searchNodes_clears_its_marker_witness :
  ∃ found,
    searchNodes (nodes grid2) (String "C" "D") (Some 1)
      = Ok (found, <[1 := set_visited false (default newNode (nodes grid2 !! 1))]>
                     (nodes grid2))
    ∧ (found = true ↔
       ∃ p, linked (nodes grid2) (1 :: p) ∧ NoDup (1 :: p)
            ∧ spells (nodes grid2) p (String "C" "D")
            ∧ Forall (unvisited (nodes grid2)) p).
Proof.
  apply (searchNodes_clears_its_marker (nodes grid2) "C" "D" 1).
  - apply closedb_sound. vm_compute. reflexivity.
  - vm_compute. reflexivity.
Defined.

(** A marker that was set when the call began is cleared by the call. *)
Example searchNodes_clears_a_set_marker :
  searchNodes [set_visited true newNode] "A" (Some 0) = Ok (false, [newNode]).
Proof. vm_compute. reflexivity. Qed.

Lemma linked_lookup (h : heap) (p : list ptr) :
  linked h p ↔ ∀ i a b, p !! i = Some a → p !! S i = Some b → lists h a b.
Proof.
  induction p as [|a [|b t] IH].
  - split; [intros _ i a b Hi; done | done].
  - split; [intros _ [|i] x y Hx Hy; done | done].
  - change (linked h (a :: b :: t)) with (lists h a b ∧ linked h (b :: t)).
    rewrite IH. split.
    + intros [Hab Ht] [|i] x y Hx Hy.
      * simpl in Hx, Hy. congruence.
      * apply (Ht i); done.
    + intros Hall. split.
      * apply (Hall 0); done.
      * intros i x y Hx Hy. apply (Hall (S i)); done.
Qed.

Lemma list_ascii_of_string_app (w v : string) :
  list_ascii_of_string (w ++ v) = list_ascii_of_string w ++ list_ascii_of_string v.
Proof. induction w as [|a w IH]; simpl; [done | by rewrite IH]. Qed.

Lemma list_ascii_of_string_length (w : string) :
  length (list_ascii_of_string w) = String.length w.
Proof. induction w as [|a w IH]; simpl; [done | by rewrite IH]. Qed.

(** A simple path has as many cells as the word has characters, and no
    more than the heap has nodes. *)
Lemma simple_path_length (h : heap) start w p :
  simple_path h start w p → length p = String.length w ∧ length p ≤ length h.
Proof.
  intros (_ & _ & Hnd & Hsp). split.
  - rewrite <- list_ascii_of_string_length. by eapply Forall2_length.
  - apply NoDup_bounded_length; [done|].
    intros x Hx. apply list_elem_of_lookup in Hx as [i Hi].
    destruct (Forall2_lookup_l _ _ _ _ _ Hsp Hi) as (a & _ & n & Hn & _).
    by eapply lookup_lt_Some.
Qed.

Lemma simple_path_prefix (h : heap) start w v p :
  w ≠ EmptyString → simple_path h start (w ++ v) p →
  simple_path h start w (take (String.length w) p).
Proof.
  intros Hw (Hhd & Hlk & Hnd & Hsp).
  unfold spells in Hsp. rewrite list_ascii_of_string_app in Hsp.
  apply Forall2_app_inv_r in Hsp as (p1 & p2 & H1 & H2 & ->).
  assert (length p1 = String.length w) as Hlen.
  { rewrite <- list_ascii_of_string_length. by eapply Forall2_length. }
  rewrite <- Hlen, take_app_length.
  split_and!.
  - destruct p1 as [|x p1]; [|done].
    destruct w; [done | simpl in Hlen; lia].
  - apply linked_lookup. intros i a b Ha Hb.
    apply (proj1 (linked_lookup _ _) Hlk i).
    + by apply lookup_app_l_Some.
    + by apply lookup_app_l_Some.
  - by apply NoDup_app in Hnd as (? & _ & _).
  - done.
Qed.

Lemma list_ascii_of_string_rev (w : string) :
  list_ascii_of_string (string_rev w) = reverse (list_ascii_of_string w).
Proof. unfold string_rev. apply list_ascii_of_string_of_list_ascii. Qed.

(** Where the neighbour relation is symmetric, a simple path read backwards
    is a simple path for the word read backwards. *)
Lemma simple_path_reverse (h : heap) start w p :
  symmetric h → simple_path h start w p →
  ∃ start', last p = Some start' ∧ simple_path h start' (string_rev w) (reverse p).
Proof.
  intros Hsym (Hhd & Hlk & Hnd & Hsp).
  destruct (last p) as [e|] eqn:He.
  2:{ apply last_None in He. subst p. done. }
  exists e. split; [done|]. split_and!.
  - rewrite head_reverse. done.
  - apply linked_lookup. intros i a b Ha Hb.
    assert (S i < length p) as Hi.
    { apply lookup_lt_Some in Hb. by rewrite length_reverse in Hb. }
    rewrite reverse_lookup in Ha by lia. rewrite reverse_lookup in Hb by lia.
    apply Hsym. apply (proj1 (linked_lookup _ _) Hlk (length p - S (S i))); [done|].
    replace (S (length p - S (S i))) with (length p - S i) by lia. done.
  - by rewrite reverse_Permutation.
  - unfold spells. rewrite list_ascii_of_string_rev.
    by apply Forall2_reverse.
Qed.

Lemma found_upper (g : grid) (word : string) :
  searchable g →
  searchWord (linkedNodeArray g) (nodes g) word = Ok (true, nodes g) →
  is_upper (string_front word) = true.
Proof.
  intros Hg Hrun. pose proof (searchWord_spec g word Hg) as Hw.
  destruct (is_upper (string_front word)); [done | congruence].
Qed.

Lemma found_iff_path (g : grid) (word : string) :
  searchable g → is_upper (string_front word) = true →
  searchWord (linkedNodeArray g) (nodes g) word = Ok (true, nodes g)
  ↔ ∃ start p, simple_path (nodes g) start word p.
Proof.
  intros Hg Hup. pose proof (searchWord_spec g word Hg) as Hw.
  rewrite Hup in Hw. destruct Hw as (b & Hrun & Hiff). rewrite Hrun.
  split.
  - intros [= ->]. by apply Hiff.
  - intros Hp. apply Hiff in Hp. by subst.
Qed.

Lemma string_front_app (w v : string) :
  w ≠ EmptyString → string_front (w ++ v) = string_front w.
Proof. by destruct w. Qed.

Lemma string_front_rev (h : heap) start w p e :
  simple_path h start w p → last p = Some e →
  ∃ n, h !! e = Some n ∧ value n = string_front (string_rev w).
Proof.
  intros (_ & _ & _ & Hsp) He.
  apply Forall2_reverse in Hsp. rewrite <- list_ascii_of_string_rev in Hsp.
  rewrite <- head_reverse in He.
  destruct (reverse p) as [|x t]; [done|]. simpl in He. injection He as ->.
  destruct (string_rev w) as [|a s]; simpl in Hsp; [by apply Forall2_cons_nil_inv in Hsp|].
  apply list.Forall2_cons in Hsp as [(n & Hn & Hv) _]. by exists n.
Qed.

Lemma hexagonal_two : hexagonal ["A"; "BCDEFG"]%string.
Proof.
  intros [|[|l]] layer Hl; simpl in Hl; [| | done]; by injection Hl as <-.
Qed.

(** X13.  In the grid that [main] builds, a word with more characters than
    the honeycomb has cells is not found: no cell is used twice. *)
Theorem long_words_are_not_found layers (g : grid) (word : string) :
  buildGrid layers = Ok g →
  is_upper (string_front word) = true →
  length (nodes g) < String.length word →
  searchWord (linkedNodeArray g) (nodes g) word = Ok (false, nodes g).
Proof.
  intros Hb Hup Hlong.
  pose proof (searchWord_spec g word (buildGrid_searchable _ _ Hb)) as Hw.
  rewrite Hup in Hw. destruct Hw as ([|] & Hrun & Hiff); [|done].
  destruct (proj1 Hiff eq_refl) as (start & p & Hp).
  apply simple_path_length in Hp. lia.
Qed.

Lemma long_words_are_not_found_witness :
  searchWord (linkedNodeArray grid2) (nodes grid2) "ABCDEFGB" = Ok (false, nodes grid2).
Proof.
  apply (long_words_are_not_found ["A"; "BCDEFG"]%string grid2 "ABCDEFGB").
  - vm_compute. reflexivity.
  - reflexivity.
  - vm_compute. lia.
Defined.

(** X14.  In the grid that [main] builds, when a word is found, every
    beginning of the word that is not empty is found too. *)
Theorem prefixes_of_found_words_are_found layers (g : grid) (w v : string) :
  buildGrid layers = Ok g → w ≠ EmptyString →
  searchWord (linkedNodeArray g) (nodes g) (w ++ v) = Ok (true, nodes g) →
  searchWord (linkedNodeArray g) (nodes g) w = Ok (true, nodes g).
Proof.
  intros Hb Hw Hrun. pose proof (buildGrid_searchable _ _ Hb) as Hg.
  pose proof (found_upper g _ Hg Hrun) as Hup.
  apply found_iff_path in Hrun as (start & p & Hp); [|done|done].
  rewrite string_front_app in Hup by done.
  apply found_iff_path; [done|done|].
  exists start, (take (String.length w) p). by eapply simple_path_prefix.
Qed.

Lemma prefixes_of_found_words_are_found_witness :
  searchWord (linkedNodeArray grid2) (nodes grid2) "AB" = Ok (true, nodes grid2).
Proof.
  apply (prefixes_of_found_words_are_found ["A"; "BCDEFG"]%string grid2 "AB" "CD").
  - vm_compute. reflexivity.
  - discriminate.
  - vm_compute. reflexivity.
Defined.

(** X15.  In the grid that [main] builds from a honeycomb (layer [l] has
    [ringSize l] characters), when a word is found, the word read backwards
    is found too. *)
Theorem reversed_words_are_found layers (g : grid) (word : string) :
  hexagonal layers → buildGrid layers = Ok g →
  searchWord (linkedNodeArray g) (nodes g) word = Ok (true, nodes g) →
  searchWord (linkedNodeArray g) (nodes g) (string_rev word) = Ok (true, nodes g).
Proof.
  intros Hhex Hb Hrun. pose proof (buildGrid_searchable _ _ Hb) as Hg.
  assert (symmetric (nodes g)) as Hsym.
  { destruct (buildGrid_inv _ _ Hb) as (g0 & Hpop & Hset & _ & _).
    eapply neighbors_symmetric; [|exact Hset]. by eapply populate_honeycomb. }
  pose proof (found_upper g _ Hg Hrun) as Hup.
  apply found_iff_path in Hrun as (start & p & Hp); [|done|done].
  destruct (simple_path_reverse _ _ _ _ Hsym Hp) as (e & He & Hrev).
  destruct (string_front_rev _ _ _ _ _ Hp He) as (n & Hn & Hv).
  apply found_iff_path; [done | | by exists e, (reverse p)].
  rewrite <- Hv. by eapply (sr_upper g Hg).
Qed.

Lemma reversed_words_are_found_witness :
  searchWord (linkedNodeArray grid2) (nodes grid2) (string_rev "ABC")
  = Ok (true, nodes grid2).
Proof.
  apply (reversed_words_are_found ["A"; "BCDEFG"]%string grid2 "ABC").
  - exact hexagonal_two.
  - vm_compute. reflexivity.
  - vm_compute. reflexivity.
Defined.

(** Without the honeycomb shape a word can be found and its reverse not:
    with seven cells around the centre, the seventh lists the centre and
    the centre does not list the seventh. *)
Example reversed_word_not_found_on_long_ring :
  searchWord (linkedNodeArray grid_long) (nodes grid_long) "HA" = Ok (true, nodes grid_long)
  ∧ searchWord (linkedNodeArray grid_long) (nodes grid_long) "AH"
    = Ok (false, nodes grid_long).
Proof. split; vm_compute; reflexivity. Qed.

(** ** The driver *)

Lemma searchDictionary_bad_word (g : grid) dictionary : ∀ found,
  searchable g →
  Exists (λ w, is_upper (string_front w) = false) dictionary →
  searchDictionary (linkedNodeArray g) (nodes g) dictionary found = Fault OutOfRange.
Proof.
  induction dictionary as [|w rest IH]; intros found Hg Hex.
  - by apply Exists_nil in Hex.
  - simpl. pose proof (searchWord_spec g w Hg) as Hw.
    destruct (is_upper (string_front w)) eqn:Hup.
    + destruct Hw as (b & -> & _). simpl.
      apply IH; [done|]. apply Exists_cons in Hex as [Hex|Hex]; [congruence | done].
    + by rewrite Hw.
Qed.

(** X16.  When the grid is built and every word of the dictionary begins
    with an uppercase letter, [main] returns, and what it prints is in
    ascending order, holds every word of the dictionary that is found as
    often as the dictionary holds it, and holds a word exactly when the
    word is in the dictionary and a simple path of the grid spells it. *)
Theorem main_prints_the_words_with_a_path layers dictionary (g : grid) :
  buildGrid layers = Ok g →
  Forall (λ w, is_upper (string_front w) = true) dictionary →
  ∃ out, main layers dictionary = Ok out
    ∧ ascending out
    ∧ out ≡ₚ List.filter (foundb g) dictionary
    ∧ ∀ w, w ∈ out ↔ w ∈ dictionary ∧ ∃ start p, simple_path (nodes g) start w p.
Proof.
  intros Hb Hd. exists (sort (List.filter (foundb g) dictionary)).
  destruct (sort_spec (List.filter (foundb g) dictionary)) as [Hperm Hasc].
  split_and!; [by apply main_spec | done | done |].
  intros w. rewrite Hperm, list_elem_of_In, List.filter_In, <- list_elem_of_In.
  rewrite Forall_forall in Hd.
  split; intros [Hin Hf]; (split; [done|]);
    by apply (foundb_spec g w (buildGrid_searchable _ _ Hb) (Hd w Hin)).
Qed.

Lemma main_prints_the_words_with_a_path_witness :
  ∃ out, main ["A"; "BCDEFG"]%string ["BC"; "XYZ"; "AB"; "BC"]%string = Ok out
    ∧ ascending out
    ∧ out ≡ₚ List.filter (foundb grid2) ["BC"; "XYZ"; "AB"; "BC"]%string
    ∧ ∀ w, w ∈ out ↔ w ∈ ["BC"; "XYZ"; "AB"; "BC"]%string
                     ∧ ∃ start p, simple_path (nodes grid2) start w p.
Proof.
  apply (main_prints_the_words_with_a_path ["A"; "BCDEFG"]%string
           ["BC"; "XYZ"; "AB"; "BC"]%string grid2).
  - vm_compute. reflexivity.
  - repeat constructor.
Defined.

(** X17.  On a honeycomb of uppercase letters (layer [l] has [ringSize l]
    characters) and a dictionary whose words all begin with an uppercase
    letter, the program has no undefined behaviour: the grid is built and
    [main] returns. *)
Theorem main_runs_on_a_honeycomb layers dictionary :
  hexagonal layers → all_upper layers = true →
  Forall (λ w, is_upper (string_front w) = true) dictionary →
  ∃ g out, buildGrid layers = Ok g ∧ main layers dictionary = Ok out.
Proof.
  intros Hhex Hup Hd.
  destruct (buildGrid_honeycomb layers Hhex Hup) as (g & Hb & _ & _).
  exists g, (sort (List.filter (foundb g) dictionary)).
  split; [done | by apply main_spec].
Qed.

Lemma main_runs_on_a_honeycomb_witness :
  ∃ g out, buildGrid ["A"; "BCDEFG"]%string = Ok g
           ∧ main ["A"; "BCDEFG"]%string ["AB"; "XYZ"]%string = Ok out.
Proof.
  apply (main_runs_on_a_honeycomb ["A"; "BCDEFG"]%string ["AB"; "XYZ"]%string).
  - exact hexagonal_two.
  - reflexivity.
  - repeat constructor.
Defined.

Lemma searchDictionary_good (g : grid) good : ∀ found,
  searchable g →
  Forall (λ w, is_upper (string_front w) = true) good →
  ∃ found', searchDictionary (linkedNodeArray g) (nodes g) good found
            = Ok (found', nodes g).
Proof.
  intros found Hg Hgood. eexists. by apply searchDictionary_spec.
Qed.

(** X18.  When the grid is built and the dictionary holds a word that is
    empty or begins with a character that is not an uppercase letter, the
    run of [main] comes to that word, wherever it stands: the searches for
    the words before the first such word return and leave the grid as it
    was, and then [main] reads the array of the 26 buckets at the index of
    that word, outside the array.  Nothing is said about what the program
    does after that read. *)
Theorem main_faults_on_a_bad_word layers (g : grid) (good : list string) (w : string)
    (rest : list string) :
  buildGrid layers = Ok g →
  Forall (λ w, is_upper (string_front w) = true) good →
  is_upper (string_front w) = false →
  (∃ found, searchDictionary (linkedNodeArray g) (nodes g) good [] = Ok (found, nodes g))
  ∧ at_index (linkedNodeArray g) (getBucket (string_front w)) = Fault OutOfRange
  ∧ main layers (good ++ w :: rest) = Fault OutOfRange.
Proof.
  intros Hb Hgood Hw. pose proof (buildGrid_searchable _ _ Hb) as Hg.
  split_and!.
  - by apply searchDictionary_good.
  - apply at_index_out_of_range; [apply (sr_lna_length g Hg) |].
    intros Hin. apply getBucket_range in Hin. congruence.
  - unfold main. rewrite Hb. simpl.
    rewrite (searchDictionary_bad_word g (good ++ w :: rest) []); [done | done |].
    apply Exists_app. right. by apply Exists_cons_hd.
Qed.

Lemma main_faults_on_a_bad_word_witness :
  (∃ found, searchDictionary (linkedNodeArray grid2) (nodes grid2) ["AB"%string] []
            = Ok (found, nodes grid2))
  ∧ at_index (linkedNodeArray grid2) (getBucket (string_front EmptyString))
    = Fault OutOfRange
  ∧ main ["A"; "BCDEFG"]%string (["AB"%string] ++ EmptyString :: ["BC"%string])
    = Fault OutOfRange.
Proof.
  apply (main_faults_on_a_bad_word ["A"; "BCDEFG"]%string grid2 ["AB"%string]
           EmptyString ["BC"%string]).
  - vm_compute. reflexivity.
  - repeat constructor.
  - reflexivity.
Defined.

(** ** Releasing the nodes *)

Lemma forM_indexed {A St : Type} (f : A → St → result St) (get : nat → result A) row :
  ∀ k (s : St),
  (∀ c x, row !! c = Some x → get (k + c) = Ok x) →
  forM (seq k (length row)) (λ c s, p ← get c; f p s) s = forM row f s.
Proof.
  induction row as [|x row IH]; intros k s Hget; [done|].
  simpl. rewrite <- (Nat.add_0_r k) at 1. rewrite (Hget 0 x eq_refl), bind_Ok.
  destruct (f x s) as [s'|e]; [|done]. rewrite !bind_Ok.
  apply IH. intros c y Hc. replace (S k + c) with (k + S c) by lia. by apply Hget.
Qed.

(** The two loops visit the nodes of the position array row by row. *)
Lemma deleteNodes_rows (pna pna' : list (list ptr)) : ∀ l (live : list bool),
  (∀ i, pna' !! i = pna !! (l + i)) →
  forM (seq l (length pna'))
    (λ l live,
       row ← at_nat pna l;
       forM (seq 0 (length row)) (λ c live, p ← at2 pna l c; deleteNode p live) live)
    live
  = forM (concat pna') deleteNode live.
Proof.
  induction pna' as [|row rest IH]; intros l live Hsuf; [done|].
  pose proof (Hsuf 0) as Hrow. simpl in Hrow. rewrite Nat.add_0_r in Hrow.
  assert (at_nat pna l = Ok row) as Hat by (unfold at_nat; by rewrite <- Hrow).
  cbn [length seq forM concat]. rewrite forM_app, Hat, bind_Ok.
  rewrite (forM_indexed deleteNode (at2 pna l) row 0).
  2:{ intros c x Hc. simpl. apply at2_cell. unfold cell. by rewrite <- Hrow. }
  destruct (forM row deleteNode live) as [live'|e]; [|done]. rewrite !bind_Ok.
  apply IH. intros i. specialize (Hsuf (S i)). simpl in Hsuf.
  rewrite Hsuf. f_equal. lia.
Qed.

Lemma deleteNode_live p (live : list bool) :
  live !! p = Some true → deleteNode p live = Ok (<[p := false]> live).
Proof. unfold deleteNode. by intros ->. Qed.

Lemma deleteNode_all m : ∀ k,
  forM (seq k m) deleteNode (replicate k false ++ replicate m true)
  = Ok (replicate (k + m) false).
Proof.
  induction m as [|m IH]; intros k.
  - simpl. by rewrite app_nil_r, Nat.add_0_r.
  - assert ((replicate k false ++ replicate (S m) true) !! k = Some true) as Hk.
    { rewrite lookup_app_r; rewrite length_replicate; [|lia]. by rewrite Nat.sub_diag. }
    cbn [seq forM]. rewrite (deleteNode_live _ _ Hk), bind_Ok.
    replace (<[k:=false]> (replicate k false ++ replicate (S m) true))
      with (replicate (S k) false ++ replicate m true).
    + rewrite IH. f_equal. f_equal. lia.
    + rewrite insert_app_r_alt; rewrite length_replicate; [|lia].
      rewrite Nat.sub_diag, (replicate_S_end k false), <- app_assoc. done.
Qed.

(** X19.  The loops at the end of [main] release every node of the grid
    that [main] built, each once: started with all the nodes allocated they
    end with none allocated, and no [delete] meets a node that was released
    before or a pointer that names no node. *)
Theorem deleteNodes_frees_every_node_once layers (g : grid) :
  buildGrid layers = Ok g →
  deleteNodes (positionNodeArray g) (replicate (length (nodes g)) true)
  = Ok (replicate (length (nodes g)) false).
Proof.
  intros Hb.
  destruct (buildGrid_inv _ _ Hb) as (g0 & Hpop & Hset & _ & Hpna).
  pose proof (populate_spec layers) as Hspec. rewrite Hpop in Hspec.
  destruct Hspec as (_ & Hpopd & _).
  destruct (setNeighbors_linking _ _ _ Hset) as [[Hlen _] _].
  unfold deleteNodes.
  rewrite (deleteNodes_rows _ (positionNodeArray g) 0) by done.
  rewrite Hpna, (pop_positions g0 Hpopd), Hlen.
  apply (deleteNode_all (length (nodes g0)) 0).
Qed.

Lemma deleteNodes_frees_every_node_once_witness :
  deleteNodes (positionNodeArray grid2) (replicate (length (nodes grid2)) true)
  = Ok (replicate (length (nodes grid2)) false).
Proof.
  apply (deleteNodes_frees_every_node_once ["A"; "BCDEFG"]%string grid2).
  vm_compute. reflexivity.
Defined.

(** A position array that holds a node twice would release it twice. *)
Example deleteNodes_twice :
  deleteNodes [[0]; [0]] [true] = Fault InvalidPointer.
Proof. vm_compute. reflexivity. Qed.
